(** * MessageClearance: the OpenRouter client and the chat session

    A shallow embedding of [src/utils/ai.js] (response validation, response
    extraction, the request/retry loop of [analyzeMessage]) and of
    [src/hooks/useChat.js] (the session that owns the in-flight request and
    the bounded scan history), with the properties the specification states
    about them.

    JavaScript strings are sequences of UTF-16 code units; values are the
    values [JSON.parse] and property access can produce; exceptions are
    explicit completions; the asynchronous parts run against a virtual clock
    in milliseconds. *)

From Stdlib Require Import List Bool Arith NArith ZArith Lia.
From Stdlib Require Import Ascii String DecimalString.
Import ListNotations.
Open Scope string_scope.
Open Scope list_scope.

Set Implicit Arguments.
Set Warnings "-register-all".

(* ================================================================== *)
(** * JavaScript strings *)
(* ================================================================== *)

Module JsString.

(** A string is its list of UTF-16 code units. *)
Definition jsstring := list N.

(** The code unit of a character of the source text. *)
Definition cu (c : ascii) : N := N_of_ascii c.

(** A literal of the source text as a JavaScript string. *)
Definition js (s : string) : jsstring := map cu (list_ascii_of_string s).

(** A text written with ['] standing for the double quote. *)
Definition jq (s : string) : jsstring :=
  map (fun c => if N.eqb c 39 then 34%N else c) (js s).

Definition is_char (c : N) (a : ascii) : bool := N.eqb c (cu a).

(** The double quote. *)
Definition quote : N := 34.

Fixpoint eqb (a b : jsstring) : bool :=
  match a, b with
  | [], [] => true
  | x :: a', y :: b' => N.eqb x y && eqb a' b'
  | _, _ => false
  end.

(** [WhiteSpace] and [LineTerminator] of ECMAScript: the class [\s] of a
    regular expression and the characters [String.prototype.trim] strips. *)
Definition is_space (c : N) : bool :=
  existsb (N.eqb c)
    [9; 10; 11; 12; 13; 32; 160; 5760; 8232; 8233; 8239; 8287; 12288; 65279]%N
  || (N.leb 8192 c && N.leb c 8202).

Fixpoint trim_start (s : jsstring) : jsstring :=
  match s with
  | c :: r => if is_space c then trim_start r else s
  | [] => []
  end.

Definition trim_end (s : jsstring) : jsstring := rev (trim_start (rev s)).

(** [s.trim()] *)
Definition trim (s : jsstring) : jsstring := trim_end (trim_start s).

(** [s.startsWith(p)], returning what follows the prefix. *)
Fixpoint strip_prefix (p s : jsstring) : option jsstring :=
  match p, s with
  | [], _ => Some s
  | x :: p', y :: s' => if N.eqb x y then strip_prefix p' s' else None
  | _ :: _, [] => None
  end.

(** The first occurrence of [p] in [s]: what precedes it and what follows. *)
Fixpoint split_at (p s : jsstring) {struct s} : option (jsstring * jsstring) :=
  match strip_prefix p s with
  | Some rest => Some ([], rest)
  | None =>
      match s with
      | [] => None
      | c :: r =>
          match split_at p r with
          | Some (before, rest) => Some (c :: before, rest)
          | None => None
          end
      end
  end.

(** [s.includes(p)] *)
Definition includes (s p : jsstring) : bool :=
  match split_at p s with Some _ => true | None => false end.

(** [s.slice(0, n)] for a non-negative [n]. *)
Definition slice_to (n : N) (s : jsstring) : jsstring := firstn (N.to_nat n) s.

End JsString.
Import JsString.

(* ================================================================== *)
(** * JavaScript values *)
(* ================================================================== *)

(** The values the program handles: what [JSON.parse] builds, and
    [undefined], which property access adds.  A number is kept as the exact
    decimal [(-1)^neg * coef * 10^exp10] its text denotes; the engine rounds
    it to a double, the model does not.  An object lists its own properties
    in insertion order, each key once. *)
Inductive value : Type :=
| VUndefined
| VNull
| VBool (b : bool)
| VNumber (neg : bool) (coef : N) (exp10 : Z)
| VString (s : jsstring)
| VArray (items : list value)
| VObject (props : list (jsstring * value)).

Module Js.

(** Own property lookup. *)
Fixpoint own (props : list (jsstring * value)) (key : jsstring) : option value :=
  match props with
  | [] => None
  | (k, v) :: rest => if JsString.eqb k key then Some v else own rest key
  end.

(** [CreateDataProperty]: overwrite in place, or add at the end. *)
Fixpoint set_prop (props : list (jsstring * value)) (key : jsstring) (v : value)
  : list (jsstring * value) :=
  match props with
  | [] => [(key, v)]
  | (k, w) :: rest =>
      if JsString.eqb k key then (k, v) :: rest else (k, w) :: set_prop rest key v
  end.

(** Whether the decimal [coef * 10^exp10] rounds to the double zero: it is
    zero, or at most half the least subnormal, [2^-1075] (a tie goes to the
    even neighbour, zero). *)
Definition rounds_to_zero (coef : N) (exp10 : Z) : bool :=
  N.eqb coef 0
  || (Z.ltb exp10 0 && Z.leb (Z.of_N coef * 2 ^ 1075) (10 ^ (- exp10)))%Z.

(** [ToBoolean] *)
Definition truthy (v : value) : bool :=
  match v with
  | VUndefined | VNull => false
  | VBool b => b
  | VNumber _ c e => negb (rounds_to_zero c e)
  | VString s => match s with [] => false | _ => true end
  | VArray _ | VObject _ => true
  end.

(** [typeof v] *)
Definition typeof (v : value) : string :=
  match v with
  | VUndefined => "undefined"
  | VNull => "object"
  | VBool _ => "boolean"
  | VNumber _ _ _ => "number"
  | VString _ => "string"
  | VArray _ | VObject _ => "object"
  end.

(** [Array.isArray(v)] *)
Definition isArray (v : value) : bool :=
  match v with VArray _ => true | _ => false end.

End Js.

(* ================================================================== *)
(** * Exceptions *)
(* ================================================================== *)

(** [AI_ERROR_TYPES] *)
Inductive AIErrorType : Type :=
| INVALID_API_KEY
| RATE_LIMITED
| NETWORK_ERROR
| INVALID_RESPONSE
| SERVER_ERROR
| TIMEOUT
| UNKNOWN.

(** What the program throws and catches: its own [AIError]
    ([message], [type], [originalError]), the [DOMException] named
    [AbortError] of an aborted signal, and the engine's [TypeError] and
    [SyntaxError]. *)
Inductive exception : Type :=
| AIError (message : jsstring) (type : AIErrorType) (originalError : option exception)
| AbortError
| TypeError (message : jsstring)
| SyntaxError.

(** The outcome of evaluating a piece of the program. *)
Inductive completion (A : Type) : Type :=
| Normal (a : A)
| Throw (e : exception).
Arguments Normal {A} a.
Arguments Throw {A} e.

Definition bind {A B : Type} (c : completion A) (k : A -> completion B)
  : completion B :=
  match c with
  | Normal a => k a
  | Throw e => Throw e
  end.

Notation "x <- c ;; k" := (bind c (fun x => k))
  (at level 61, c at next level, right associativity).

Definition AIErrorType_eqb (a b : AIErrorType) : bool :=
  match a, b with
  | INVALID_API_KEY, INVALID_API_KEY | RATE_LIMITED, RATE_LIMITED
  | NETWORK_ERROR, NETWORK_ERROR | INVALID_RESPONSE, INVALID_RESPONSE
  | SERVER_ERROR, SERVER_ERROR | TIMEOUT, TIMEOUT | UNKNOWN, UNKNOWN => true
  | _, _ => false
  end.

(** [error.name] *)
Definition error_name (e : exception) : string :=
  match e with
  | AIError _ _ _ => "AIError"
  | AbortError => "AbortError"
  | TypeError _ => "TypeError"
  | SyntaxError => "SyntaxError"
  end.

(* ================================================================== *)
(** * Conversions and property access *)
(* ================================================================== *)

Module JsOps.

(** The decimal digits of a natural number. *)
Definition decimal (n : N) : jsstring :=
  js (DecimalString.NilZero.string_of_uint (N.to_uint n)).

(** [Number::toString].  An integer below [10^21] prints as its digits,
    which is the engine's text whenever the integer is a double (every
    magnitude up to [2^53]); any other number prints as coefficient and
    exponent, a text that denotes the same decimal and that [JSON.parse]
    reads back to the same number, where the engine prints the shortest
    digits of the rounded double. *)
Definition number_text (neg : bool) (coef : N) (exp10 : Z) : jsstring :=
  if N.eqb coef 0 then js "0"
  else
    (if neg then js "-" else [])
    ++ (if (Z.leb 0 exp10 && Z.leb exp10 21
            && N.ltb (coef * 10 ^ Z.to_N exp10) (10 ^ 21))%bool
        then decimal (coef * 10 ^ Z.to_N exp10)
        else decimal coef ++ js "e"
             ++ (if Z.ltb exp10 0 then js "-" else [])
             ++ decimal (Z.abs_N exp10)).

(** [Array.prototype.join] with the separator [","]. *)
Fixpoint join (texts : list jsstring) : jsstring :=
  match texts with
  | [] => []
  | [t] => t
  | t :: rest => t ++ js "," ++ join rest
  end.

(** [ToString(v)].  An object converts through [toString] then [valueOf]:
    an own [toString] property of a parsed object is never callable, and
    [Object.prototype.valueOf] returns the object, so such an object has no
    primitive value and the conversion throws; without it the inherited
    [toString] answers.  An array joins its elements, [null] and
    [undefined] as the empty string. *)
Fixpoint ToString (v : value) : completion jsstring :=
  match v with
  | VUndefined => Normal (js "undefined")
  | VNull => Normal (js "null")
  | VBool true => Normal (js "true")
  | VBool false => Normal (js "false")
  | VNumber neg coef e => Normal (number_text neg coef e)
  | VString s => Normal s
  | VArray items =>
      texts <-
        (fix each (l : list value) : completion (list jsstring) :=
           match l with
           | [] => Normal []
           | x :: rest =>
               t <- match x with
                    | VUndefined | VNull => Normal []
                    | _ => ToString x
                    end ;;
               ts <- each rest ;;
               Normal (t :: ts)
           end) items ;;
      Normal (join texts)
  | VObject props =>
      match Js.own props (js "toString") with
      | Some _ => Throw (TypeError (js "Cannot convert object to primitive value"))
      | None => Normal (js "[object Object]")
      end
  end.

(** [v.name] for a name that no prototype defines (the program reads
    [choices], [message], [content], [verdict], [risks], [rewrites],
    [short], [warm], [confident]): an own property of an object, and
    [undefined] on every other value but [null] and [undefined], where the
    access throws. *)
Definition get (v : value) (name : string) : completion value :=
  match v with
  | VUndefined =>
      Throw (TypeError (js "Cannot read properties of undefined (reading '"
                        ++ js name ++ js "')"))
  | VNull =>
      Throw (TypeError (js "Cannot read properties of null (reading '"
                        ++ js name ++ js "')"))
  | VObject props =>
      match Js.own props (js name) with
      | Some w => Normal w
      | None => Normal VUndefined
      end
  | _ => Normal VUndefined
  end.

(** [v[0]] *)
Definition get0 (v : value) : completion value :=
  match v with
  | VUndefined =>
      Throw (TypeError (js "Cannot read properties of undefined (reading '0')"))
  | VNull =>
      Throw (TypeError (js "Cannot read properties of null (reading '0')"))
  | VArray items => Normal (match items with x :: _ => x | [] => VUndefined end)
  | VString s => Normal (match s with c :: _ => VString [c] | [] => VUndefined end)
  | VObject props =>
      match Js.own props (js "0") with
      | Some w => Normal w
      | None => Normal VUndefined
      end
  | _ => Normal VUndefined
  end.

(** [list.includes(v)] for a list of string literals ([SameValueZero]). *)
Definition includes_value (list : list string) (v : value) : bool :=
  match v with
  | VString s => existsb (fun lit => JsString.eqb (js lit) s) list
  | _ => false
  end.

End JsOps.

(* ================================================================== *)
(** * JSON.parse *)
(* ================================================================== *)

(** [JSON.parse] on a string, by recursive descent over the ECMA-404
    grammar.  [None] is the [SyntaxError] the engine throws.  The properties
    of an object are kept in the order of the text; the engine lists the
    keys that are array indices first. *)
Module Json.

(** JSON white space: space, tab, line feed, carriage return. *)
Definition is_ws (c : N) : bool := existsb (N.eqb c) [32; 9; 10; 13]%N.

Fixpoint skip_ws (s : jsstring) : jsstring :=
  match s with
  | c :: r => if is_ws c then skip_ws r else s
  | [] => []
  end.

Definition digit (c : N) : option N :=
  if (N.leb 48 c && N.leb c 57)%bool then Some (c - 48)%N else None.

Definition hex_digit (c : N) : option N :=
  if (N.leb 48 c && N.leb c 57)%bool then Some (c - 48)%N
  else if (N.leb 65 c && N.leb c 70)%bool then Some (c - 55)%N
  else if (N.leb 97 c && N.leb c 102)%bool then Some (c - 87)%N
  else None.

Definition hex4 (a b c d : N) : option N :=
  match hex_digit a, hex_digit b, hex_digit c, hex_digit d with
  | Some x, Some y, Some z, Some w => Some (((x * 16 + y) * 16 + z) * 16 + w)%N
  | _, _, _, _ => None
  end.

(** The code unit an escape letter stands for. *)
Definition escape (c : N) : option N :=
  if N.eqb c quote then Some quote
  else if is_char c "\" then Some 92%N
  else if is_char c "/" then Some 47%N
  else if is_char c "b" then Some 8%N
  else if is_char c "f" then Some 12%N
  else if is_char c "n" then Some 10%N
  else if is_char c "r" then Some 13%N
  else if is_char c "t" then Some 9%N
  else None.

(** The characters of a string after its opening quote, up to and including
    the closing one; [acc] holds the decoded code units, last first. *)
Fixpoint parse_string (s acc : jsstring) {struct s} : option (jsstring * jsstring) :=
  match s with
  | [] => None
  | c :: r =>
      if N.eqb c quote then Some (rev acc, r)
      else if is_char c "\" then
        match r with
        | e :: r1 =>
            if is_char e "u" then
              match r1 with
              | h1 :: h2 :: h3 :: h4 :: r2 =>
                  match hex4 h1 h2 h3 h4 with
                  | Some u => parse_string r2 (u :: acc)
                  | None => None
                  end
              | _ => None
              end
            else
              match escape e with
              | Some u => parse_string r1 (u :: acc)
              | None => None
              end
        | [] => None
        end
      else if N.ltb c 32 then None
      else parse_string r (c :: acc)
  end.

(** A run of decimal digits: their value appended to [acc], how many there
    were, and what follows. *)
Fixpoint digits (s : jsstring) (acc : N) (n : nat) : N * nat * jsstring :=
  match s with
  | c :: r =>
      match digit c with
      | Some d => digits r (acc * 10 + d)%N (S n)
      | None => (acc, n, s)
      end
  | [] => (acc, n, [])
  end.

(** The integer part: a single [0], or a digit run that does not start
    with [0]. *)
Definition parse_int (s : jsstring) : option (N * jsstring) :=
  match s with
  | c :: r =>
      if is_char c "0" then Some (0%N, r)
      else match digits s 0%N 0 with
           | (_, O, _) => None
           | (v, S _, rest) => Some (v, rest)
           end
  | [] => None
  end.

(** The optional fraction: the coefficient extended by its digits, and how
    many digits it had. *)
Definition parse_frac (coef : N) (s : jsstring) : option (N * nat * jsstring) :=
  match s with
  | c :: r =>
      if is_char c "." then
        match digits r coef 0 with
        | (_, O, _) => None
        | (v, S k, rest) => Some (v, S k, rest)
        end
      else Some (coef, O, s)
  | [] => Some (coef, O, [])
  end.

(** The optional exponent. *)
Definition parse_exp (s : jsstring) : option (Z * jsstring) :=
  match s with
  | c :: r =>
      if (is_char c "e" || is_char c "E")%bool then
        let '(sign, r1) :=
          match r with
          | d :: r' =>
              if is_char d "-" then ((-1)%Z, r')
              else if is_char d "+" then (1%Z, r')
              else (1%Z, r)
          | [] => (1%Z, r)
          end in
        match digits r1 0%N 0 with
        | (_, O, _) => None
        | (v, S _, rest) => Some ((sign * Z.of_N v)%Z, rest)
        end
      else Some (0%Z, s)
  | [] => Some (0%Z, [])
  end.

Definition parse_number (s : jsstring) : option (value * jsstring) :=
  let '(neg, s1) :=
    match s with
    | c :: r => if is_char c "-" then (true, r) else (false, s)
    | [] => (false, s)
    end in
  match parse_int s1 with
  | None => None
  | Some (i, s2) =>
      match parse_frac i s2 with
      | None => None
      | Some (coef, k, s3) =>
          match parse_exp s3 with
          | None => None
          | Some (e, s4) => Some (VNumber neg coef (e - Z.of_nat k), s4)
          end
      end
  end.

Definition parse_literal (s : jsstring) : option (value * jsstring) :=
  match strip_prefix (js "true") s with
  | Some r => Some (VBool true, r)
  | None =>
  match strip_prefix (js "false") s with
  | Some r => Some (VBool false, r)
  | None =>
  match strip_prefix (js "null") s with
  | Some r => Some (VNull, r)
  | None => parse_number s
  end end end.

(** A value, then the rest of the text.  Every call consumes at least one
    code unit per two units of [fuel], so [fuel_for] never runs out
    ([parse_fuel_enough] below). *)
Fixpoint parse_value (fuel : nat) (s : jsstring) {struct fuel}
  : option (value * jsstring) :=
  match fuel with
  | O => None
  | S fuel' =>
      match skip_ws s with
      | [] => None
      | c :: r =>
          if is_char c "{" then
            match skip_ws r with
            | d :: r' =>
                if is_char d "}" then Some (VObject [], r')
                else parse_members fuel' r []
            | [] => None
            end
          else if is_char c "[" then
            match skip_ws r with
            | d :: r' =>
                if is_char d "]" then Some (VArray [], r')
                else parse_elements fuel' r []
            | [] => None
            end
          else if N.eqb c quote then
            match parse_string r [] with
            | Some (str, r') => Some (VString str, r')
            | None => None
            end
          else parse_literal (c :: r)
      end
  end

(** The members of an object after its opening brace; [acc] holds the
    properties read so far (a repeated key overwrites). *)
with parse_members (fuel : nat) (s : jsstring) (acc : list (jsstring * value))
  {struct fuel} : option (value * jsstring) :=
  match fuel with
  | O => None
  | S fuel' =>
      match skip_ws s with
      | q :: r =>
          if N.eqb q quote then
            match parse_string r [] with
            | Some (key, r1) =>
                match skip_ws r1 with
                | colon :: r2 =>
                    if is_char colon ":" then
                      match parse_value fuel' r2 with
                      | Some (v, r3) =>
                          match skip_ws r3 with
                          | d :: r4 =>
                              if is_char d "," then
                                parse_members fuel' r4 (Js.set_prop acc key v)
                              else if is_char d "}" then
                                Some (VObject (Js.set_prop acc key v), r4)
                              else None
                          | [] => None
                          end
                      | None => None
                      end
                    else None
                | [] => None
                end
            | None => None
            end
          else None
      | [] => None
      end
  end

(** The elements of an array after its opening bracket; [acc] holds the
    elements read so far, last first. *)
with parse_elements (fuel : nat) (s : jsstring) (acc : list value)
  {struct fuel} : option (value * jsstring) :=
  match fuel with
  | O => None
  | S fuel' =>
      match parse_value fuel' s with
      | Some (v, r) =>
          match skip_ws r with
          | d :: r' =>
              if is_char d "," then parse_elements fuel' r' (v :: acc)
              else if is_char d "]" then Some (VArray (rev (v :: acc)), r')
              else None
          | [] => None
          end
      | None => None
      end
  end.

Definition fuel_for (s : jsstring) : nat := 2 * List.length s + 2.

(** [JSON.parse(text)]: one value, then only white space. *)
Definition parse (text : jsstring) : option value :=
  match parse_value (fuel_for text) text with
  | Some (v, rest) =>
      match skip_ws rest with
      | [] => Some v
      | _ :: _ => None
      end
  | None => None
  end.

End Json.
Import JsOps.

(* ================================================================== *)
(** * src/utils/ai.js: validation and extraction *)
(* ================================================================== *)

Module Ai.

Definition validVerdicts : list string := ["good_to_send"; "needs_edit"; "high_risk"].

Definition requiredRewrites : list string := ["short"; "warm"; "confident"].

(** The loop over [requiredRewrites]: the first key whose value is not a
    string is reported. *)
Fixpoint check_rewrites (rewrites : value) (keys : list string)
  : completion (option jsstring) :=
  match keys with
  | [] => Normal None
  | key :: rest =>
      w <- get rewrites key ;;
      if negb (String.eqb (Js.typeof w) "string")
      then Normal (Some (js "Missing rewrite: " ++ js key))
      else check_rewrites rewrites rest
  end.

(** [validateAnalysisResponse(data)]: [None] is [null], [Some text] the
    error message. *)
Definition validateAnalysisResponse (data : value) : completion (option jsstring) :=
  if negb (Js.truthy data) || negb (String.eqb (Js.typeof data) "object")
  then Normal (Some (js "Response is not an object"))
  else
    verdict <- get data "verdict" ;;
    if negb (includes_value validVerdicts verdict)
    then text <- ToString verdict ;;
         Normal (Some (js "Invalid verdict: " ++ text))
    else
      risks <- get data "risks" ;;
      if negb (Js.isArray risks)
      then Normal (Some (js "Missing or invalid risks array"))
      else
        rewrites <- get data "rewrites" ;;
        if negb (Js.truthy rewrites) || negb (String.eqb (Js.typeof rewrites) "object")
        then Normal (Some (js "Missing or invalid rewrites object"))
        else check_rewrites rewrites requiredRewrites.

(** [JSON.parse(v)]: the argument is converted to a string first. *)
Definition JSON_parse (v : value) : completion value :=
  text <- ToString v ;;
  match Json.parse text with
  | Some r => Normal r
  | None => Throw SyntaxError
  end.

(** [try { return JSON.parse(v); } catch { }]: the value returned, if any. *)
Definition try_parse (v : value) : option value :=
  match JSON_parse v with
  | Normal r => Some r
  | Throw _ => None
  end.

Definition fence : jsstring := js "```".

(** Group 1 of the first match of [/```(?:json)?\s*([\s\S]*?)```/].
    The match starts at the first fence; the tag and the white space are
    taken greedily and the group lazily, up to the next fence.  Giving
    either back cannot produce a match where this choice finds none, since
    neither holds a backtick, and no later start can succeed when the first
    fails. *)
Definition fenced_block (content : jsstring) : option jsstring :=
  match split_at fence content with
  | None => None
  | Some (_, after) =>
      let untagged :=
        match strip_prefix (js "json") after with
        | Some r => r
        | None => after
        end in
      match split_at fence (trim_start untagged) with
      | Some (body, _) => Some body
      | None => None
      end
  end.

(** What precedes the last occurrence of [c] in [s]. *)
Fixpoint before_last (c : N) (s : jsstring) : option jsstring :=
  match s with
  | [] => None
  | x :: r =>
      match before_last c r with
      | Some t => Some (x :: t)
      | None => if N.eqb x c then Some [] else None
      end
  end.

(** What follows the first occurrence of [c] in [s]. *)
Fixpoint after_first (c : N) (s : jsstring) : option jsstring :=
  match s with
  | [] => None
  | x :: r => if N.eqb x c then Some r else after_first c r
  end.

(** The match of [/\{[\s\S]*\}/]: from the first opening brace to the
    last closing brace after it. *)
Definition brace_span (content : jsstring) : option jsstring :=
  match after_first (cu "{") content with
  | None => None
  | Some rest =>
      match before_last (cu "}") rest with
      | Some inner => Some (cu "{" :: inner ++ [cu "}"])
      | None => None
      end
  end.

(** [content.match(regex)]: the method exists on strings only. *)
Definition match_method (content : value) (regex : jsstring -> option jsstring)
  : completion (option jsstring) :=
  match content with
  | VString s => Normal (regex s)
  | VUndefined =>
      Throw (TypeError (js "Cannot read properties of undefined (reading 'match')"))
  | VNull =>
      Throw (TypeError (js "Cannot read properties of null (reading 'match')"))
  | _ => Throw (TypeError (js "content.match is not a function"))
  end.

(** [parseAIResponse(content)] *)
Definition parseAIResponse (content : value) : completion value :=
  match try_parse content with
  | Some v => Normal v
  | None =>
      jsonMatch <- match_method content fenced_block ;;
      match match jsonMatch with
            | Some body => try_parse (VString (trim body))
            | None => None
            end with
      | Some v => Normal v
      | None =>
          objectMatch <- match_method content brace_span ;;
          match match objectMatch with
                | Some span => try_parse (VString span)
                | None => None
                end with
          | Some v => Normal v
          | None =>
              Throw (AIError (js "Could not parse AI response as JSON")
                             INVALID_RESPONSE None)
          end
      end
  end.

(** ** The world of an asynchronous call *)

(** What one call of [fetch] meets on the network: no connection (the
    promise rejects with a [TypeError] after [after_ms]), or a response
    whose head arrives after [head_ms] and whose body takes [body_ms] more
    to read. *)
Inductive Network : Type :=
| Unreachable (after_ms : N) (message : jsstring)
| Responds (head_ms : N) (status : N) (body_ms : N) (body : jsstring).

(** What a call of [fetch] sends that depends on the arguments: the
    [Authorization] header, the model and the content of the user message. *)
Record Request : Type := {
  authorization : jsstring;
  request_model : jsstring;
  user_content : jsstring
}.

(** What a run leaves in the log: a call of [fetch], or a sleep, with the
    instant it began. *)
Inductive event : Type :=
| Fetched (at_ms : N) (request : Request)
| Slept (at_ms : N) (ms : N).

(** The virtual clock, in milliseconds, and what happened so far. *)
Record World : Type := { clock : N; log : list event }.

Definition at_clock (t : N) (w : World) : World := {| clock := t; log := log w |}.

Definition logged (e : event) (w : World) : World :=
  {| clock := clock w; log := log w ++ [e] |}.

(** An asynchronous computation: from the world when it starts to its
    outcome and the world when it settles. *)
Definition async (A : Type) : Type := World -> completion A * World.

Definition ret {A : Type} (a : A) : async A := fun w => (Normal a, w).

Definition throw {A : Type} (e : exception) : async A := fun w => (Throw e, w).

Definition await {A B : Type} (c : async A) (k : A -> async B) : async B :=
  fun w =>
    match c w with
    | (Normal a, w') => k a w'
    | (Throw e, w') => (Throw e, w')
    end.

Notation "x <~ c ;; k" := (await c (fun x => k))
  (at level 61, c at next level, right associativity).

(** [try { body } catch (error) { handler }] *)
Definition try_catch {A : Type} (body : async A) (handler : exception -> async A)
  : async A :=
  fun w =>
    match body w with
    | (Normal a, w') => (Normal a, w')
    | (Throw e, w') => handler e w'
    end.

(** A synchronous step inside an asynchronous function. *)
Definition lift {A : Type} (c : completion A) : async A := fun w => (c, w).

(** An [AbortSignal] is the instant it aborts, if it ever does. *)
Definition aborted_by (signal : option N) (t : N) : bool :=
  match signal with
  | Some a => N.leb a t
  | None => false
  end.

(** [sleep(ms)]: a timer and nothing else; it takes no signal. *)
Definition sleep (ms : N) : async unit :=
  fun w => (Normal tt, at_clock (clock w + ms)%N (logged (Slept (clock w) ms) w)).

Record Response : Type := { status : N; body_ms : N; body : jsstring }.

(** [response.ok] *)
Definition ok (r : Response) : bool :=
  N.leb 200%N (status r) && N.leb (status r) 299%N.

(** [fetch(url, { ..., signal: combinedSignal })], where the combined signal
    aborts when the caller's does or when the timer of [timeoutMs] fires.
    An aborted signal rejects the call with [AbortError], at once if it is
    aborted already.  The timer runs for [timeoutMs] as [setTimeout] does
    for a delay below 2^31 ms, the largest it keeps; what it does with a
    longer one is not modelled, and the statements about a response that
    beats the timer take [timeoutMs] below 2^31. *)
Definition fetch (request : Request) (signal : option N) (timeoutMs : N)
  (net : Network) : async Response :=
  fun w =>
    let now := clock w in
    let w1 := logged (Fetched now request) w in
    if aborted_by signal now then (Throw AbortError, w1)
    else
      let fires := match signal with
                   | Some a => N.min a (now + timeoutMs)%N
                   | None => (now + timeoutMs)%N
                   end in
      let arrives := match net with
                     | Unreachable after_ms _ => (now + after_ms)%N
                     | Responds head_ms _ _ _ => (now + head_ms)%N
                     end in
      if N.leb fires arrives then (Throw AbortError, at_clock fires w1)
      else
        match net with
        | Unreachable _ message => (Throw (TypeError message), at_clock arrives w1)
        | Responds _ st bms b =>
            (Normal {| status := st; body_ms := bms; body := b |}, at_clock arrives w1)
        end.

(** Reading the body ([response.text()], the first half of
    [response.json()]).  The timer is cleared by now; the caller's signal
    still aborts the read. *)
Definition read_body (r : Response) (signal : option N) : async jsstring :=
  fun w =>
    let done := (clock w + body_ms r)%N in
    if aborted_by signal done
    then (Throw AbortError,
          at_clock (match signal with Some a => N.max a (clock w) | None => done end) w)
    else (Normal (body r), at_clock done w).

(** [response.json()] *)
Definition response_json (r : Response) (signal : option N) : async value :=
  text <~ read_body r signal ;;
  match Json.parse text with
  | Some v => ret v
  | None => throw SyntaxError
  end.

(** ** analyzeMessage *)

Definition DEFAULT_MODEL : jsstring := js "anthropic/claude-3.5-sonnet".

Definition MAX_MESSAGE_LENGTH : N := 10000.

(** The [options] argument; [None] is a property left out.  [signal] is the
    instant the caller's signal aborts, if it is given and ever does. *)
Record Options : Type := {
  model : option jsstring;
  maxRetries : option nat;
  timeoutMs : option N;
  signal : option N
}.

Definition default {A : Type} (o : option A) (d : A) : A :=
  match o with Some a => a | None => d end.

Record Meta : Type := {
  meta_model : jsstring;
  timestamp : N;
  originalLength : nat
}.

(** The object [{ ...parsed, _meta }]: the properties of [parsed], and
    [_meta] with the model, the instant of the answer (printed by
    [toISOString]) and the length of the message. *)
Record AnalysisResult : Type := { parsed : value; meta : Meta }.

(** [!v || typeof v !== 'string' || v.trim().length === 0] *)
Definition blank (v : value) : bool :=
  negb (Js.truthy v)
  || negb (String.eqb (Js.typeof v) "string")
  || match v with
     | VString s => Nat.eqb (List.length (trim s)) 0
     | _ => true
     end.

(** [Math.min(1000 * Math.pow(2, attempt - 1), 10000)] *)
Definition delay (attempt : nat) : N :=
  N.min (1000 * 2 ^ N.of_nat (attempt - 1))%N 10000%N.

(** The error the [if (!response.ok)] block throws for a status. *)
Definition status_error (st : N) (errorBody : jsstring) : exception :=
  if N.eqb st 401%N || N.eqb st 403%N then
    AIError (js "Invalid API key. Please check your OpenRouter API key.")
            INVALID_API_KEY None
  else if N.eqb st 429%N then
    AIError (js "Rate limited. Please wait a moment and try again.")
            RATE_LIMITED None
  else if N.leb 500%N st then
    AIError (js "OpenRouter server error. Please try again.") SERVER_ERROR None
  else
    AIError (js "API error: " ++ decimal st ++ js " " ++ errorBody) UNKNOWN None.

(** The [if (!response.ok)] block: the body is read, an empty text standing
    in when the read fails, and the error of the status is thrown. *)
Definition http_error (r : Response) (signal : option N) : async value :=
  errorBody <~ try_catch (read_body r signal) (fun _ => ret []) ;;
  throw (status_error (status r) errorBody).

(** The [try] block of one attempt. *)
Definition attempt_body (message apiKey mdl : jsstring) (timeout : N)
  (sig : option N) (net : Network) : async AnalysisResult :=
  let trimmedMessage := slice_to MAX_MESSAGE_LENGTH message in
  response <~ fetch {| authorization := js "Bearer " ++ apiKey;
                       request_model := mdl;
                       user_content := js "Analyze this message:" ++ [10; 10]%N
                                       ++ trimmedMessage |}
                    sig timeout net ;;
  data <~ (if negb (ok response) then http_error response sig
           else response_json response sig) ;;
  choices <~ lift (get data "choices") ;;
  first <~ (if Js.truthy choices then lift (get0 choices) else ret VUndefined) ;;
  msg <~ (if Js.truthy first then lift (get first "message") else ret VUndefined) ;;
  if negb (Js.truthy msg) then
    throw (AIError (js "Invalid response structure from API") INVALID_RESPONSE None)
  else
    content <~ lift (get msg "content") ;;
    parsed <~ lift (parseAIResponse content) ;;
    validationError <~ lift (validateAnalysisResponse parsed) ;;
    match validationError with
    | Some (c :: text) =>
        throw (AIError (js "Invalid analysis response: " ++ c :: text)
                       INVALID_RESPONSE None)
    | _ =>
        fun w =>
          (Normal {| parsed := parsed;
                     meta := {| meta_model := mdl;
                                timestamp := clock w;
                                originalLength := List.length message |} |}, w)
    end.

(** [error instanceof AIError] with one of the two types that are thrown
    on at once. *)
Definition not_retried (e : exception) : bool :=
  match e with
  | AIError _ type _ =>
      AIErrorType_eqb type INVALID_API_KEY || AIErrorType_eqb type INVALID_RESPONSE
  | _ => false
  end.

(** [error instanceof TypeError && error.message.includes('fetch')] *)
Definition is_fetch_failure (e : exception) : bool :=
  match e with
  | TypeError message => includes message (js "fetch")
  | _ => false
  end.

(** The [for] loop from [attempt] on, with [remaining] iterations left
    ([attempt <= maxRetries] holds exactly while [remaining] is positive,
    as [remaining = maxRetries + 1 - attempt]), and what follows it. *)
Fixpoint attempts (message apiKey mdl : jsstring) (max : nat) (timeout : N)
  (sig : option N) (net : nat -> Network)
  (remaining attempt : nat) (lastError : option exception) {struct remaining}
  : async AnalysisResult :=
  match remaining with
  | O =>
      throw (default lastError
               (AIError (js "Request failed after retries") UNKNOWN None))
  | S remaining' =>
      try_catch (attempt_body message apiKey mdl timeout sig (net attempt))
        (fun error =>
           if not_retried error then throw error
           else if String.eqb (error_name error) "AbortError" then
             throw (AIError (js "Request cancelled") TIMEOUT (Some error))
           else
             let lastError' :=
               if is_fetch_failure error
               then AIError (js "Network error. Check your internet connection.")
                            NETWORK_ERROR (Some error)
               else error in
             _ <~ (if Nat.ltb attempt max then sleep (delay attempt) else ret tt) ;;
             attempts message apiKey mdl max timeout sig net
                      remaining' (S attempt) (Some lastError'))
  end.

(** [analyzeMessage(message, apiKey, options)] against a network that
    answers the [n]-th call of [fetch] with [net n]. *)
Definition analyzeMessage (message apiKey : value) (options : Options)
  (net : nat -> Network) : async AnalysisResult :=
  let mdl := default (model options) DEFAULT_MODEL in
  let max := default (maxRetries options) 3 in
  let timeout := default (timeoutMs options) 30000%N in
  if blank message then
    throw (AIError (js "Message is required") INVALID_RESPONSE None)
  else if blank apiKey then
    throw (AIError (js "API key is required") INVALID_API_KEY None)
  else
    match message, apiKey with
    | VString m, VString k =>
        attempts m k mdl max timeout (signal options) net max 1 None
    | _, _ => throw (AIError (js "Message is required") INVALID_RESPONSE None)
    end.

End Ai.

(* ================================================================== *)
(** * src/hooks/useChat.js: the session *)
(* ================================================================== *)

Module Chat.

Import Ai.

Inductive CHAT_STATUS : Type := IDLE | SCANNING | COMPLETE | ERROR.

(** The record [{ type, message }] kept in the [error] state. *)
Record ErrorInfo : Type := { type : jsstring; message : jsstring }.

(** An entry of the history, as [submitMessage] writes it.  A stored
    history is taken to hold such entries: the hook does not check what it
    reads from the storage, and a stored text of another shape (an entry
    whose [result] is [null], say) is outside the model. *)
Record HistoryEntry : Type := {
  id : jsstring;
  timestamp : N;
  originalMessage : jsstring;
  entry_result : AnalysisResult;
  entry_model : jsstring
}.

(** The state of the hook: the persisted values, the ephemeral scan state,
    and the two refs.  [controllers] lists every [AbortController] made so
    far with the instant it was aborted, if it was; [abortControllerRef]
    points into it.  [history] is [None] when the stored value is [null]. *)
Record Session : Type := {
  apiKey : jsstring;
  selectedModel : jsstring;
  history : option (list HistoryEntry);
  currentMessage : jsstring;
  status : CHAT_STATUS;
  result : option AnalysisResult;
  error : option ErrorInfo;
  controllers : list (option N);
  abortControllerRef : option nat;
  isMountedRef : bool
}.

(** What a call of [submitMessage] holds across its [await]: its argument,
    the values its closure captured when it was made, and its controller. *)
Record Pending : Type := {
  message_sent : jsstring;
  key_sent : jsstring;
  model_sent : jsstring;
  history_seen : option (list HistoryEntry);
  controller : nat
}.

(** [controller.abort()] at instant [now]; a second call changes nothing. *)
Fixpoint abort (now : N) (c : nat) (cs : list (option N)) : list (option N) :=
  match cs, c with
  | [], _ => []
  | None :: rest, O => Some now :: rest
  | Some a :: rest, O => Some a :: rest
  | x :: rest, S c' => x :: abort now c' rest
  end.

(** The signal of a controller: the instant it aborts, if any. *)
Definition signal_of (s : Session) (c : nat) : option N := nth c (controllers s) None.

(** [hasApiKey] of [useApiKey] *)
Definition hasApiKey (s : Session) : bool :=
  match apiKey s with [] => false | _ :: _ => true end.

(** [list.slice(-n)]: the last [n] elements. *)
Definition slice_last (A : Type) (n : nat) (l : list A) : list A :=
  skipn (List.length l - n) l.

(** The updater given to [setHistory]. *)
Definition add_to_history (prev : option (list HistoryEntry)) (historyEntry : HistoryEntry)
  : list HistoryEntry :=
  let newHistory := default prev [] ++ [historyEntry] in
  slice_last 50 newHistory.

(** [submitMessage(message)] up to its [await]: the new state, and the
    request left in flight, if one was started. *)
Definition submit_begin (now : N) (message : jsstring) (s : Session)
  : Session * option Pending :=
  if match message with [] => true | _ => Nat.eqb (List.length (trim message)) 0 end then
    ({| apiKey := apiKey s; selectedModel := selectedModel s; history := history s;
        currentMessage := currentMessage s; status := status s; result := result s;
        error := Some {| type := js "VALIDATION";
                         message := js "Please enter a message to analyze" |};
        controllers := controllers s; abortControllerRef := abortControllerRef s;
        isMountedRef := isMountedRef s |}, None)
  else if negb (hasApiKey s) then
    ({| apiKey := apiKey s; selectedModel := selectedModel s; history := history s;
        currentMessage := currentMessage s; status := status s; result := result s;
        error := Some {| type := js "NO_API_KEY";
                         message := js "Please add your OpenRouter API key" |};
        controllers := controllers s; abortControllerRef := abortControllerRef s;
        isMountedRef := isMountedRef s |}, None)
  else
    let aborted :=
      match abortControllerRef s with
      | Some c => abort now c (controllers s)
      | None => controllers s
      end in
    let fresh := List.length aborted in
    let mounted := isMountedRef s in
    ({| apiKey := apiKey s; selectedModel := selectedModel s; history := history s;
        currentMessage := if mounted then trim message else currentMessage s;
        status := if mounted then SCANNING else status s;
        result := if mounted then None else result s;
        error := if mounted then None else error s;
        controllers := aborted ++ [None];
        abortControllerRef := Some fresh;
        isMountedRef := mounted |},
     Some {| message_sent := trim message; key_sent := apiKey s;
             model_sent := selectedModel s; history_seen := history s;
             controller := fresh |}).

(** The options [submitMessage] passes to [analyzeMessage]. *)
Definition options_of (s : Session) (p : Pending) : Options :=
  {| model := Some (model_sent p); maxRetries := None; timeoutMs := None;
     signal := signal_of s (controller p) |}.

(** [AI_ERROR_TYPES]: each key is its own text. *)
Definition type_text (t : AIErrorType) : jsstring :=
  match t with
  | INVALID_API_KEY => js "INVALID_API_KEY"
  | RATE_LIMITED => js "RATE_LIMITED"
  | NETWORK_ERROR => js "NETWORK_ERROR"
  | INVALID_RESPONSE => js "INVALID_RESPONSE"
  | SERVER_ERROR => js "SERVER_ERROR"
  | TIMEOUT => js "TIMEOUT"
  | UNKNOWN => js "UNKNOWN"
  end.

(** The [switch] over [err.type]. *)
Definition errorInfo_of (msg : jsstring) (t : AIErrorType) : ErrorInfo :=
  match t with
  | INVALID_API_KEY =>
      {| type := js "INVALID_API_KEY";
         message := js "Your API key is invalid. Please check and update it." |}
  | RATE_LIMITED =>
      {| type := js "RATE_LIMITED";
         message := js "Too many requests. Please wait a moment and try again." |}
  | NETWORK_ERROR =>
      {| type := js "NETWORK_ERROR";
         message := js "Network error. Please check your internet connection." |}
  | TIMEOUT =>
      {| type := js "TIMEOUT"; message := js "Request timed out. Please try again." |}
  | SERVER_ERROR =>
      {| type := js "SERVER_ERROR";
         message := js "Server error. Please try again in a moment." |}
  | _ => {| type := type_text t; message := msg |}
  end.

Definition with_scan (s : Session) (st : CHAT_STATUS) (r : option AnalysisResult)
  (e : option ErrorInfo) (h : option (list HistoryEntry)) : Session :=
  {| apiKey := apiKey s; selectedModel := selectedModel s; history := h;
     currentMessage := currentMessage s; status := st; result := r; error := e;
     controllers := controllers s; abortControllerRef := abortControllerRef s;
     isMountedRef := isMountedRef s |}.

(** [submitMessage] after its [await]: the continuation of the request [p]
    run on the state [s] of that moment, with what [analyzeMessage] settled
    with; [uuid] is the identifier the entry gets and [now] the instant. *)
Definition submit_settle (now : N) (uuid : jsstring) (p : Pending)
  (outcome : completion AnalysisResult) (s : Session) : Session :=
  match outcome with
  | Normal analysisResult =>
      let historyEntry :=
        {| id := uuid; timestamp := now; originalMessage := message_sent p;
           entry_result := analysisResult; entry_model := model_sent p |} in
      if isMountedRef s
      then with_scan s COMPLETE (Some analysisResult) (error s)
                     (Some (add_to_history (history_seen p) historyEntry))
      else s
  | Throw (AIError msg t _) =>
      if isMountedRef s
      then with_scan s ERROR (result s) (Some (errorInfo_of msg t)) (history s)
      else s
  | Throw err =>
      if String.eqb (error_name err) "AbortError" then
        if isMountedRef s
        then with_scan s IDLE (result s) (error s) (history s)
        else s
      else
        if isMountedRef s
        then with_scan s ERROR (result s)
               (Some {| type := js "UNKNOWN";
                        message := js "An unexpected error occurred" |})
               (history s)
        else s
  end.

(** [cancelRequest()] *)
Definition cancelRequest (now : N) (s : Session) : Session :=
  let mounted := isMountedRef s in
  {| apiKey := apiKey s; selectedModel := selectedModel s; history := history s;
     currentMessage := currentMessage s;
     status := if mounted then IDLE else status s;
     result := result s;
     error := if mounted then None else error s;
     controllers := match abortControllerRef s with
                    | Some c => abort now c (controllers s)
                    | None => controllers s
                    end;
     abortControllerRef := None;
     isMountedRef := mounted |}.

(** [reset()] *)
Definition reset (now : N) (s : Session) : Session :=
  let s' := cancelRequest now s in
  if isMountedRef s'
  then {| apiKey := apiKey s'; selectedModel := selectedModel s'; history := history s';
          currentMessage := []; status := IDLE; result := None; error := None;
          controllers := controllers s'; abortControllerRef := abortControllerRef s';
          isMountedRef := true |}
  else s'.

(** The state of a freshly mounted hook. *)
Definition mount (key mdl : jsstring) (stored : option (list HistoryEntry)) : Session :=
  {| apiKey := key; selectedModel := mdl; history := stored;
     currentMessage := []; status := IDLE; result := None; error := None;
     controllers := []; abortControllerRef := None; isMountedRef := true |}.

End Chat.

(* ================================================================== *)
(** * Observations on a run *)
(* ================================================================== *)

Module Run.

Import Ai.

(** How many calls of [fetch] a log holds. *)
Fixpoint fetches (l : list event) : nat :=
  match l with
  | [] => 0
  | Fetched _ _ :: rest => S (fetches rest)
  | Slept _ _ :: rest => fetches rest
  end.

(** The delays slept, in order. *)
Fixpoint sleeps (l : list event) : list N :=
  match l with
  | [] => []
  | Fetched _ _ :: rest => sleeps rest
  | Slept _ ms :: rest => ms :: sleeps rest
  end.

(** How long a call of [fetch] takes to settle on this network. *)
Definition latency (net : Network) : N :=
  match net with
  | Unreachable after_ms _ => after_ms
  | Responds head_ms _ _ _ => head_ms
  end.

(** The type of the error an attempt on this network ends with when it
    fails in a way the loop retries: no connection reported by [fetch],
    or a status that is neither a success nor 401 or 403. *)
Definition retryable_kind (net : Network) : option AIErrorType :=
  match net with
  | Unreachable _ message =>
      if includes message (js "fetch") then Some NETWORK_ERROR else None
  | Responds _ st _ _ =>
      if (N.leb 200 st && N.leb st 299) || N.eqb st 401 || N.eqb st 403 then None
      else if N.eqb st 429 then Some RATE_LIMITED
      else if N.leb 500 st then Some SERVER_ERROR
      else Some UNKNOWN
  end.

(** The network answers before the timer of [timeout] fires and fails the
    attempt with one of the four retried types. *)
Definition fails_retryably (timeout : N) (net : Network) : bool :=
  N.ltb (latency net) timeout
  && match retryable_kind net with Some _ => true | None => false end.

(** A log as instants: a call of [fetch] and when it was made, or a sleep,
    when it began and how long it lasted. *)
Definition timeline (l : list event) : list (N * option N) :=
  map (fun e => match e with
                | Fetched t _ => (t, None)
                | Slept t ms => (t, Some ms)
                end) l.

(** A log in which the calls of [fetch] are numbered from [attempt] on and
    each but the last is followed by one sleep, of the delay of its number,
    at whose end the next call is made. *)
Fixpoint paced (attempt : nat) (l : list event) : Prop :=
  match l with
  | [] => True
  | [Fetched _ _] => True
  | Fetched _ _ :: Slept t ms :: rest =>
      ms = delay attempt
      /\ match rest with
         | [] => True
         | Fetched t' _ :: _ => t' = (t + ms)%N
         | Slept _ _ :: _ => False
         end
      /\ paced (S attempt) rest
  | _ => False
  end.

(** [error.type] of an [AIError]. *)
Definition kind (e : exception) : option AIErrorType :=
  match e with
  | AIError _ t _ => Some t
  | _ => None
  end.

(** What the loop remembers of an attempt that failed on this network in a
    way it retries. *)
Definition failure_of (net : Network) : exception :=
  match net with
  | Unreachable _ message =>
      AIError (js "Network error. Check your internet connection.")
              NETWORK_ERROR (Some (TypeError message))
  | Responds _ st _ b => status_error st b
  end.

(** The request every attempt sends. *)
Definition request_of (message apiKey mdl : jsstring) : Request :=
  {| authorization := js "Bearer " ++ apiKey;
     request_model := mdl;
     user_content := js "Analyze this message:" ++ [10; 10]%N
                     ++ slice_to MAX_MESSAGE_LENGTH message |}.

(** A computation during which the clock does not run backwards. *)
Definition advances (A : Type) (c : async A) : Prop :=
  forall w, (clock w <= clock (snd (c w)))%N.

(** A computation that takes a signal and cannot tell a signal that aborts
    after it has settled from no signal at all. *)
Definition blind_to_late_signal (A : Type) (c : option N -> async A) : Prop :=
  forall a w, (clock (snd (c None w)) < a)%N -> c (Some a) w = c None w.

(** The same options with another signal. *)
Definition with_signal (o : Options) (sig : option N) : Options :=
  {| model := model o; maxRetries := maxRetries o; timeoutMs := timeoutMs o;
     signal := sig |}.

(** A computation that leaves the log as it found it. *)
Definition keeps_log (A : Type) (c : async A) : Prop :=
  forall w, log (snd (c w)) = log w.

(** No code unit of [s] is [c]. *)
Definition absent (c : N) (s : jsstring) : bool :=
  forallb (fun x => negb (N.eqb x c)) s.

(** The second step of the extractor on a string: the first fenced block,
    trimmed and parsed. *)
Definition fenced_parse (s : jsstring) : option value :=
  match fenced_block s with
  | Some body => Json.parse (trim body)
  | None => None
  end.

(** The third step: the widest brace span, parsed. *)
Definition brace_parse (s : jsstring) : option value :=
  match brace_span s with
  | Some span => Json.parse span
  | None => None
  end.

(** The four shapes of a validated analysis. *)
Definition conforming (data : value) : bool :=
  match data with
  | VObject props =>
      includes_value validVerdicts (default (Js.own props (js "verdict")) VUndefined)
      && Js.isArray (default (Js.own props (js "risks")) VUndefined)
      && match default (Js.own props (js "rewrites")) VUndefined with
         | VObject rw =>
             forallb (fun key =>
                        match Js.own rw (js key) with
                        | Some (VString _) => true
                        | _ => false
                        end) requiredRewrites
         | _ => false
         end
  | _ => false
  end.

End Run.

(* ================================================================== *)
(** * Sample data *)
(* ================================================================== *)

Module Sample.

Import Ai Chat.

Definition world0 : World := {| clock := 0; log := [] |}.

(** The options [useChat] passes, without a signal. *)
Definition plain : Options :=
  {| model := None; maxRetries := None; timeoutMs := None; signal := None |}.

(** A conforming analysis, as the model is asked to print it. *)
Definition analysis_text : jsstring :=
  jq "{'verdict':'needs_edit','verdictReason':'Curt.','risks':[],'missing':[],'rewrites':{'short':'a','warm':'b','confident':'c'}}".

(** The body of a chat completion whose content is [content]. *)
Definition completion_body (content : jsstring) : jsstring :=
  jq "{'choices':[{'message':{'role':'assistant','content':"
  ++ content ++ jq "}}]}".

(** [analysis_text] as a JSON string literal. *)
Definition analysis_literal : jsstring :=
  jq "'{\'verdict\':\'needs_edit\',\'verdictReason\':\'Curt.\',\'risks\':[],\'missing\':[],\'rewrites\':{\'short\':\'a\',\'warm\':\'b\',\'confident\':\'c\'}}'".

Definition always (n : Network) : nat -> Network := fun _ => n.

(** An analysis whose verdict is an object with a property [toString]. *)
Definition odd_verdict_text : jsstring :=
  jq "{'verdict':{'toString':1},'risks':[],'rewrites':{'short':'a','warm':'b','confident':'c'}}".

(** A chat completion whose message has no content. *)
Definition no_content_body : jsstring :=
  jq "{'choices':[{'message':{'role':'assistant'}}]}".

(** Chat completions that lack more: the message, the first choice, the
    choices; and one whose content is [null]. *)
Definition no_message_body : jsstring := jq "{'choices':[{'index':0}]}".

Definition no_choice_body : jsstring := jq "{'choices':[]}".

Definition no_choices_body : jsstring := jq "{'id':'gen-1'}".

Definition null_content_body : jsstring :=
  jq "{'choices':[{'message':{'role':'assistant','content':null}}]}".

(** A provider that answers 429 twice, then 200 with a conforming analysis. *)
Definition limited_twice (attempt : nat) : Network :=
  if Nat.leb attempt 2 then Responds 100 429 5 (js "slow down")
  else Responds 100 200 5 (completion_body analysis_literal).

(** An object as the model may print it, and ways to wrap it. *)
Definition verdict_text : jsstring := jq "{'verdict':'good_to_send'}".

Definition verdict_value : value :=
  VObject [(js "verdict", VString (js "good_to_send"))].

Definition in_prose : jsstring :=
  js "Here is the analysis: " ++ verdict_text ++ js " Hope this helps!".

Definition in_fence : jsstring :=
  js "Sure." ++ [10%N] ++ fence ++ js "json" ++ [10%N] ++ verdict_text ++ [10%N]
  ++ fence ++ js " Done.".

Definition in_prose_with_braces : jsstring :=
  js "Note {draft}: " ++ verdict_text.

(** The options of a caller whose signal aborts at instant 200. *)
Definition cancelled_at_200 : Options :=
  {| model := None; maxRetries := None; timeoutMs := None; signal := Some 200%N |}.

Definition a_result : AnalysisResult :=
  {| parsed := default (Json.parse analysis_text) VNull;
     meta := {| meta_model := DEFAULT_MODEL; Ai.timestamp := 0; originalLength := 2 |} |}.

Definition an_entry : HistoryEntry :=
  {| id := js "e"; timestamp := 0; originalMessage := js "hi";
     entry_result := a_result; entry_model := DEFAULT_MODEL |}.

Definition a_session : Session := mount (js "sk-or-1") DEFAULT_MODEL None.

(** A provider that takes five seconds to answer, with a conforming
    analysis. *)
Definition slow_success : nat -> Network :=
  always (Responds 5000 200 5 (completion_body analysis_literal)).

(** Two submissions on a fresh session, the second at instant 200 while the
    first is in flight. *)
Definition first_submit : Session * option Pending :=
  submit_begin 0 (js "first") a_session.

Definition second_submit : Session * option Pending :=
  submit_begin 200 (js "second") (fst first_submit).


Definition a_pending (seen : option (list HistoryEntry)) : Pending :=
  {| message_sent := js "hi"; key_sent := js "sk-or-1"; model_sent := DEFAULT_MODEL;
     history_seen := seen; controller := 0 |}.

End Sample.

(* ================================================================== *)
(** * src/utils/ai.js: validateApiKey *)
(* ================================================================== *)

Module KeyCheck.

Import Ai.

(** [fetch(url, options)] with no signal in its options: nothing aborts the
    call, which settles when the network does. *)
Definition fetch_unguarded (request : Request) (net : Network) : async Response :=
  fun w =>
    let now := clock w in
    let w1 := logged (Fetched now request) w in
    match net with
    | Unreachable after_ms message =>
        (Throw (TypeError message), at_clock (now + after_ms)%N w1)
    | Responds head_ms st bms b =>
        (Normal {| Ai.status := st; body_ms := bms; body := b |},
         at_clock (now + head_ms)%N w1)
    end.

(** [apiKey.startsWith(prefix)]: strings have the method; on any other
    value that can be asked, the property is not a function. *)
Definition startsWith (apiKey : value) (prefix : jsstring) : completion bool :=
  match apiKey with
  | VString s =>
      Normal (match strip_prefix prefix s with Some _ => true | None => false end)
  | VUndefined =>
      Throw (TypeError (js "Cannot read properties of undefined (reading 'startsWith')"))
  | VNull =>
      Throw (TypeError (js "Cannot read properties of null (reading 'startsWith')"))
  | _ => Throw (TypeError (js "apiKey.startsWith is not a function"))
  end.

(** The request [validateApiKey] sends. *)
Definition probe (key : jsstring) : Request :=
  {| authorization := js "Bearer " ++ key;
     request_model := js "anthropic/claude-3-haiku";
     user_content := js "Hi" |}.

(** [validateApiKey(apiKey)] against a network that answers its one call
    with [net]. *)
Definition validateApiKey (apiKey : value) (net : Network) : async bool :=
  malformed <~ lift (if negb (Js.truthy apiKey) then Normal true
                     else b <- startsWith apiKey (js "sk-or-") ;; Normal (negb b)) ;;
  if malformed then
    throw (AIError (js "API key should start with sk-or-") INVALID_API_KEY None)
  else
    match apiKey with
    | VString key =>
        try_catch
          (response <~ fetch_unguarded (probe key) net ;;
           if N.eqb (Ai.status response) 401%N || N.eqb (Ai.status response) 403%N then
             throw (AIError (js "Invalid API key") INVALID_API_KEY None)
           else
             _ <~ (if negb (ok response)
                   then body <~ read_body response None ;; ret tt
                   else ret tt) ;;
             ret true)
          (fun error =>
             match error with
             | AIError _ _ _ => throw error
             | _ =>
                 throw (AIError (js "Could not validate API key (network error)")
                                NETWORK_ERROR (Some error))
             end)
    | _ => throw (AIError (js "API key should start with sk-or-") INVALID_API_KEY None)
    end.

End KeyCheck.

(* ================================================================== *)
(** * src/hooks/useChat.js and useLocalStorage.js: the other operations *)
(* ================================================================== *)

Module ChatOps.

Import Ai Chat.

(** [retry()] *)
Definition retry (now : N) (s : Session) : Session * option Pending :=
  match currentMessage s with
  | [] => (s, None)
  | _ :: _ => submit_begin now (currentMessage s) s
  end.

(** [setHistory(h)]: the setter of [useLocalStorage], which no mount check
    guards. *)
Definition setHistory (h : option (list HistoryEntry)) (s : Session) : Session :=
  {| apiKey := apiKey s; selectedModel := selectedModel s; history := h;
     currentMessage := currentMessage s; status := status s; result := result s;
     error := error s; controllers := controllers s;
     abortControllerRef := abortControllerRef s; isMountedRef := isMountedRef s |}.

(** [clearHistory()] *)
Definition clearHistory (s : Session) : Session := setHistory (Some []) s.

(** [removeFromHistory(historyId)] *)
Definition removeFromHistory (historyId : jsstring) (s : Session) : Session :=
  setHistory
    (Some (filter (fun h => negb (JsString.eqb (id h) historyId))
                  (default (history s) [])))
    s.

(** [loadFromHistory(historyId)]: [history.find] is called on the stored
    value itself, which throws when that is [null]. *)
Definition loadFromHistory (historyId : jsstring) (s : Session) : completion Session :=
  match history s with
  | None => Throw (TypeError (js "Cannot read properties of null (reading 'find')"))
  | Some h =>
      match find (fun e => JsString.eqb (id e) historyId) h with
      | Some entry =>
          Normal (if isMountedRef s
                  then {| apiKey := apiKey s; selectedModel := selectedModel s;
                          history := history s;
                          currentMessage := originalMessage entry;
                          status := COMPLETE;
                          result := Some (entry_result entry);
                          error := None;
                          controllers := controllers s;
                          abortControllerRef := abortControllerRef s;
                          isMountedRef := true |}
                  else s)
      | None => Normal s
      end
  end.

(** The cleanup of the mount effect. *)
Definition unmount (now : N) (s : Session) : Session :=
  {| apiKey := apiKey s; selectedModel := selectedModel s; history := history s;
     currentMessage := currentMessage s; status := status s; result := result s;
     error := error s;
     controllers := match abortControllerRef s with
                    | Some c => abort now c (controllers s)
                    | None => controllers s
                    end;
     abortControllerRef := abortControllerRef s;
     isMountedRef := false |}.

(** [setApiKey(key)] and [setSelectedModel(model)] *)
Definition setApiKey (key : jsstring) (s : Session) : Session :=
  {| apiKey := key; selectedModel := selectedModel s; history := history s;
     currentMessage := currentMessage s; status := status s; result := result s;
     error := error s; controllers := controllers s;
     abortControllerRef := abortControllerRef s; isMountedRef := isMountedRef s |}.

Definition setSelectedModel (mdl : jsstring) (s : Session) : Session :=
  {| apiKey := apiKey s; selectedModel := mdl; history := history s;
     currentMessage := currentMessage s; status := status s; result := result s;
     error := error s; controllers := controllers s;
     abortControllerRef := abortControllerRef s; isMountedRef := isMountedRef s |}.

(** The derived state. *)
Definition hasError (s : Session) : bool :=
  match status s, error s with ERROR, Some _ => true | _, _ => false end.

(** What can happen to a mounted hook: the actions it returns, the
    continuation of a request, the setters of the key and of the model, a
    storage event that replaces the history, and the unmounting. *)
Inductive action : Type :=
| Submit (message : jsstring)
| Settle (uuid : jsstring) (p : Pending) (outcome : completion AnalysisResult)
| Cancel
| Reset
| Retry
| Load (historyId : jsstring)
| Remove (historyId : jsstring)
| Clear
| SetKey (key : jsstring)
| SetModel (mdl : jsstring)
| StorageEvent (h : option (list HistoryEntry))
| Unmount.

Definition perform (now : N) (a : action) (s : Session) : completion Session :=
  match a with
  | Submit m => Normal (fst (submit_begin now m s))
  | Settle uuid p outcome => Normal (submit_settle now uuid p outcome s)
  | Cancel => Normal (cancelRequest now s)
  | Reset => Normal (reset now s)
  | Retry => Normal (fst (retry now s))
  | Load historyId => loadFromHistory historyId s
  | Remove historyId => Normal (removeFromHistory historyId s)
  | Clear => Normal (clearHistory s)
  | SetKey key => Normal (setApiKey key s)
  | SetModel mdl => Normal (setSelectedModel mdl s)
  | StorageEvent h => Normal (setHistory h s)
  | Unmount => Normal (unmount now s)
  end.

(** The states a hook can be in. *)
Inductive reachable : Session -> Prop :=
| reachable_mount (key mdl : jsstring) (stored : option (list HistoryEntry)) :
    reachable (mount key mdl stored)
| reachable_step (s s' : Session) (now : N) (a : action) :
    reachable s -> perform now a s = Normal s' -> reachable s'.

(** The states that follow a given one. *)
Inductive follows (s : Session) : Session -> Prop :=
| follows_refl : follows s s
| follows_step (s1 s2 : Session) (now : N) (a : action) :
    follows s s1 -> perform now a s1 = Normal s2 -> follows s s2.

(** ** useApiKey and useApiKeySettings *)

(** The bullet of the mask, U+2022. *)
Definition bullet : N := 8226.

(** [maskedKey] *)
Definition maskedKey (apiKey : jsstring) : jsstring :=
  match apiKey with
  | [] => []
  | _ :: _ =>
      if Nat.ltb 12 (List.length apiKey)
      then firstn 8 apiKey ++ repeat bullet 16 ++ slice_last 4 apiKey
      else repeat bullet (List.length apiKey)
  end.

(** [isValidFormat] *)
Definition isValidFormat (apiKey : jsstring) : bool :=
  match strip_prefix (js "sk-or-") apiKey with Some _ => true | None => false end.

(** The state of [useApiKeySettings]: the key of its [useApiKey] and its own
    two pieces. *)
Record KeySettings : Type := {
  savedKey : jsstring;
  isValidating : bool;
  validationError : option jsstring
}.

(** [saveApiKey(newKey)]: the new state and the value returned. *)
Definition saveApiKey (newKey : jsstring) (st : KeySettings) : KeySettings * bool :=
  if match newKey with [] => true | _ :: _ => Nat.eqb (List.length (trim newKey)) 0 end
  then ({| savedKey := savedKey st; isValidating := isValidating st;
           validationError := Some (js "API key is required") |}, false)
  else if negb (isValidFormat newKey)
  then ({| savedKey := savedKey st; isValidating := isValidating st;
           validationError := Some (js "API key should start with sk-or-") |}, false)
  else ({| savedKey := trim newKey; isValidating := false;
           validationError := None |}, true).

(** What the scan state of a hook keeps true: a failed scan has its error
    record, a controller that was not aborted is the current one, and a
    mounted hook that is scanning has a current controller that was not
    aborted. *)
Definition consistent (s : Session) : Prop :=
  (status s = ERROR -> error s <> None)
  /\ (forall i, nth_error (controllers s) i = Some None -> abortControllerRef s = Some i)
  /\ (isMountedRef s = true -> status s = SCANNING ->
      exists c, abortControllerRef s = Some c
                /\ nth_error (controllers s) c = Some None).

End ChatOps.

(* ================================================================== *)
(** * src/components: what the input lets through *)
(* ================================================================== *)

Module Ui.

(** [maxChars] of [MessageInput]. *)
Definition maxChars : N := 5000.

(** The [onChange] of the text area: [e.target.value.slice(0, maxChars)]. *)
Definition onChange (typed : jsstring) : jsstring := slice_to maxChars typed.

End Ui.

(* ================================================================== *)
(** * src/utils/storage.js *)
(* ================================================================== *)

Module Storage.

(** [STORAGE_KEYS]: the keys the functions are called with. *)
Inductive STORAGE_KEYS : Type :=
| API_KEY
| SELECTED_MODEL
| CHAT_HISTORY
| USER_PREFERENCES.

Definition STORAGE_PREFIX : jsstring := js "messageclearance_".

(** The text of a key. *)
Definition key_text (key : STORAGE_KEYS) : jsstring :=
  STORAGE_PREFIX ++ match key with
                    | API_KEY => js "api_key"
                    | SELECTED_MODEL => js "selected_model"
                    | CHAT_HISTORY => js "chat_history"
                    | USER_PREFERENCES => js "preferences"
                    end.

Definition STORAGE_DEFAULTS (key : STORAGE_KEYS) : value :=
  match key with
  | API_KEY => VString []
  | SELECTED_MODEL => VString (js "anthropic/claude-3.5-sonnet")
  | CHAT_HISTORY => VArray []
  | USER_PREFERENCES => VObject [(js "safetyCheckEnabled", VBool true)]
  end.

(** [window.localStorage]: whether the browser denies every access to it
    (each call throws), which contents it takes (its quota, whatever the
    policy), and the items it holds, in insertion order, each key once. *)
Record LocalStorage : Type := {
  denied : bool;
  accepts : list (jsstring * jsstring) -> bool;
  items : list (jsstring * jsstring)
}.

Fixpoint lookup (key : jsstring) (l : list (jsstring * jsstring)) : option jsstring :=
  match l with
  | [] => None
  | (k, v) :: rest => if JsString.eqb k key then Some v else lookup key rest
  end.

(** Overwrite in place, or add at the end. *)
Fixpoint put (key v : jsstring) (l : list (jsstring * jsstring))
  : list (jsstring * jsstring) :=
  match l with
  | [] => [(key, v)]
  | (k, old) :: rest =>
      if JsString.eqb k key then (k, v) :: rest else (k, old) :: put key v rest
  end.

Definition drop (key : jsstring) (l : list (jsstring * jsstring))
  : list (jsstring * jsstring) :=
  filter (fun kv => negb (JsString.eqb (fst kv) key)) l.

Definition with_items (st : LocalStorage) (l : list (jsstring * jsstring))
  : LocalStorage :=
  {| denied := denied st; accepts := accepts st; items := l |}.

(** The three methods of [window.localStorage]; [None] when the call
    throws. *)
Definition native_setItem (key v : jsstring) (st : LocalStorage) : option LocalStorage :=
  if denied st then None
  else if accepts st (put key v (items st))
  then Some (with_items st (put key v (items st)))
  else None.

Definition native_getItem (key : jsstring) (st : LocalStorage)
  : option (option jsstring) :=
  if denied st then None else Some (lookup key (items st)).

Definition native_removeItem (key : jsstring) (st : LocalStorage)
  : option LocalStorage :=
  if denied st then None else Some (with_items st (drop key (items st))).

Definition testKey : jsstring := STORAGE_PREFIX ++ js "__test__".

(** [isStorageAvailable()]: the answer, and the storage it leaves. *)
Definition isStorageAvailable (st : LocalStorage) : bool * LocalStorage :=
  match native_setItem testKey (js "test") st with
  | None => (false, st)
  | Some st1 =>
      match native_getItem testKey st1 with
      | None => (false, st1)
      | Some item =>
          let result := match item with
                        | Some text => JsString.eqb text (js "test")
                        | None => false
                        end in
          match native_removeItem testKey st1 with
          | None => (false, st1)
          | Some st2 => (result, st2)
          end
      end
  end.

(** [v ?? w] *)
Definition nullish_or (v w : value) : value :=
  match v with
  | VUndefined | VNull => w
  | _ => v
  end.

(** [defaultValue ?? STORAGE_DEFAULTS[key] ?? null] *)
Definition fallback (key : STORAGE_KEYS) (defaultValue : value) : value :=
  nullish_or (nullish_or defaultValue (STORAGE_DEFAULTS key)) VNull.

(** [getItem(key, defaultValue)] *)
Definition getItem (key : STORAGE_KEYS) (defaultValue : value) (st : LocalStorage)
  : value * LocalStorage :=
  let (available, st1) := isStorageAvailable st in
  if negb available then (fallback key defaultValue, st1)
  else
    match native_getItem (key_text key) st1 with
    | Some (Some item) =>
        (match Json.parse item with
         | Some parsed => parsed
         | None => VString item
         end, st1)
    | Some None => (fallback key defaultValue, st1)
    | None => (fallback key defaultValue, st1)
    end.

(** The size of [new Blob([text])]: the length of the text in UTF-8, a
    surrogate that is not part of a pair counting as U+FFFD. *)
Fixpoint utf8_size (text : jsstring) : N :=
  match text with
  | [] => 0
  | c :: rest =>
      if N.ltb c 128 then 1 + utf8_size rest
      else if N.ltb c 2048 then 2 + utf8_size rest
      else if N.leb 55296 c && N.leb c 56319 then
        match rest with
        | d :: rest' =>
            if N.leb 56320 d && N.leb d 57343
            then 4 + utf8_size rest'
            else 3 + utf8_size rest
        | [] => 3
        end
      else 3 + utf8_size rest
  end%N.

Definition MAX_ITEM_SIZE : N := 1024 * 1024.

(** [setItem(key, value)] for a value that is a string, which is stored as
    it is (any other value is stored as its [JSON.stringify]). *)
Definition setItem (key : STORAGE_KEYS) (value : jsstring) (st : LocalStorage)
  : bool * LocalStorage :=
  let (available, st1) := isStorageAvailable st in
  if negb available then (false, st1)
  else
    let serialized := value in
    let sizeInBytes := utf8_size serialized in
    if N.ltb MAX_ITEM_SIZE sizeInBytes then (false, st1)
    else
      match native_setItem (key_text key) serialized st1 with
      | Some st2 => (true, st2)
      | None => (false, st1)
      end.

(** [removeItem(key)] *)
Definition removeItem (key : STORAGE_KEYS) (st : LocalStorage) : bool * LocalStorage :=
  let (available, st1) := isStorageAvailable st in
  if negb available then (false, st1)
  else
    match native_removeItem (key_text key) st1 with
    | Some st2 => (true, st2)
    | None => (false, st1)
    end.

(** [clearAll()]: the keys are collected first, then removed. *)
Definition clearAll (st : LocalStorage) : bool * LocalStorage :=
  let (available, st1) := isStorageAvailable st in
  if negb available then (false, st1)
  else if denied st1 then (false, st1)
  else
    let keysToRemove :=
      filter (fun key =>
                match key with
                | [] => false
                | _ :: _ =>
                    match strip_prefix STORAGE_PREFIX key with
                    | Some _ => true
                    | None => false
                    end
                end)
             (map fst (items st1)) in
    (true, with_items st1 (fold_left (fun l key => drop key l) keysToRemove (items st1))).

(** [apiKeyStorage.get()] *)
Definition apiKeyStorage_get (st : LocalStorage) : jsstring * LocalStorage :=
  let (key, st1) := getItem API_KEY (VString []) st in
  (match key with
   | VString (c :: rest) => c :: rest
   | _ => []
   end, st1).

(** [apiKeyStorage.set(key)] *)
Definition apiKeyStorage_set (key : value) (st : LocalStorage) : bool * LocalStorage :=
  match key with
  | VString text =>
      match trim text with
      | [] => removeItem API_KEY st
      | _ :: _ => setItem API_KEY text st
      end
  | _ => (false, st)
  end.

(** [apiKeyStorage.exists()] *)
Definition apiKeyStorage_exists (st : LocalStorage) : bool * LocalStorage :=
  let (key, st1) := apiKeyStorage_get st in
  (Nat.ltb 0 (List.length key), st1).

(** A storage that works, takes anything and holds nothing. *)
Definition empty : LocalStorage :=
  {| denied := false; accepts := fun _ => true; items := [] |}.

(** A storage that is full: it takes no content larger than what it
    holds. *)
Definition full (l : list (jsstring * jsstring)) : LocalStorage :=
  {| denied := false;
     accepts := fun l' => Nat.leb (List.length l') (List.length l);
     items := l |}.

End Storage.

(* ================================================================== *)
(** * src/hooks/useLocalStorage.js: reading the stored value *)
(* ================================================================== *)

Module LocalState.

Import Storage.

(** The initializer of the state of [useLocalStorage], in a browser and
    with the default [deserialize]: what [getItem(key, null)] gives, or
    [initialValue] when that is [null]. *)
Definition initialState (key : STORAGE_KEYS) (initialValue : value) (st : LocalStorage)
  : value * LocalStorage :=
  let (item, st1) := getItem key VNull st in
  match item with
  | VNull => (initialValue, st1)
  | _ => (item, st1)
  end.

(** [handleStorageChange(event)]: the state after the event, given the
    state before; [event.key] and [event.newValue] are [None] when [null]. *)
Definition handleStorageChange (key : jsstring) (initialValue : value)
  (event_key : option jsstring) (newValue : option jsstring) (storedValue : value)
  : value :=
  match event_key with
  | Some k =>
      if JsString.eqb k key then
        match newValue with
        | None => initialValue
        | Some text =>
            match Json.parse text with
            | Some v => v
            | None => VString text
            end
        end
      else storedValue
  | None => storedValue
  end.

End LocalState.

(* ================================================================== *)
(** * src/components/APIKeyModal.jsx: what the modal stores *)
(* ================================================================== *)

Module Modal.

Import Storage.

(** The two writes of [handleSave] to [localStorage]: the storage they
    leave, [None] when one of them throws. *)
Definition handleSave (tempKey tempModel : jsstring) (st : LocalStorage)
  : option LocalStorage :=
  match native_setItem (js "openrouter_api_key") tempKey st with
  | Some st1 => native_setItem (js "openrouter_model") tempModel st1
  | None => None
  end.

End Modal.

(* ================================================================== *)
(** * A history written from two tabs *)
(* ================================================================== *)

Module Tabs.

Import Ai Chat Sample.

(** The entry of a scan of [hi] made at an instant, under an identifier. *)
Definition entry_at (i : jsstring) (t : N) : HistoryEntry :=
  {| id := i; timestamp := t; originalMessage := js "hi";
     entry_result := a_result; entry_model := DEFAULT_MODEL |}.

(** A hook mounted on a history of one entry, made at instant 1. *)
Definition one_entry : Session :=
  mount (js "sk-or-1") DEFAULT_MODEL (Some [entry_at (js "old") 1]).

(** The history another tab has stored by instant 20: two entries more,
    made at instants 12 and 15. *)
Definition from_other_tab : option (list HistoryEntry) :=
  Some [entry_at (js "old") 1; entry_at (js "e1") 12; entry_at (js "e2") 15].

End Tabs.

(* ================================================================== *)
(** * Properties *)
(* ================================================================== *)

Import Ai Chat Run Sample.

Unset Implicit Arguments.

(** ** JSON.parse: fuel *)

Import Json.

Lemma skip_ws_length (s : jsstring) : List.length (skip_ws s) <= List.length s.
Proof.
  induction s as [|c s IH]; simpl; [lia|].
  destruct (is_ws c); simpl; lia.
Qed.

Lemma strip_prefix_length (p s r : jsstring) :
  strip_prefix p s = Some r -> List.length s = List.length p + List.length r.
Proof.
  revert s. induction p as [|x p IH]; intros s H.
  - inversion H. reflexivity.
  - destruct s as [|y s]; [discriminate|]. simpl in H.
    destruct (N.eqb x y); [|discriminate]. simpl. rewrite (IH s H). reflexivity.
Qed.

Lemma parse_string_length (n : nat) :
  forall s acc str r,
    List.length s <= n ->
    parse_string s acc = Some (str, r) -> List.length r < List.length s.
Proof.
  induction n as [|n IH]; intros s acc str r Hn H.
  - destruct s; [discriminate|simpl in Hn; lia].
  - destruct s as [|c s]; [discriminate|]. cbn [parse_string] in H.
    simpl in Hn.
    destruct (N.eqb c quote).
    { inversion H. subst. simpl. lia. }
    destruct (is_char c "\").
    + destruct s as [|e s]; [discriminate|].
      destruct (is_char e "u").
      * destruct s as [|h1 [|h2 [|h3 [|h4 s]]]]; try discriminate.
        destruct (hex4 h1 h2 h3 h4); [|discriminate].
        apply IH in H; simpl in *; lia.
      * destruct (escape e); [|discriminate].
        apply IH in H; simpl in *; lia.
    + destruct (N.ltb c 32); [discriminate|].
      apply IH in H; simpl in *; lia.
Qed.

Lemma digits_count (s : jsstring) :
  forall acc n v k r,
    digits s acc n = (v, k, r) -> k + List.length r = n + List.length s.
Proof.
  induction s as [|c s IH]; intros acc n v k r H; simpl in H.
  - inversion H. reflexivity.
  - destruct (digit c).
    + apply IH in H. simpl. lia.
    + inversion H. reflexivity.
Qed.

Lemma parse_int_length (s : jsstring) (v : N) (r : jsstring) :
  parse_int s = Some (v, r) -> List.length r < List.length s.
Proof.
  unfold parse_int. destruct s as [|c s]; [discriminate|].
  destruct (is_char c "0").
  - intros H. inversion H. simpl. lia.
  - destruct (digits (c :: s) 0 0) as [[v' k] r'] eqn:E.
    destruct k; [discriminate|]. intros H. inversion H. subst.
    apply digits_count in E. lia.
Qed.

Lemma parse_frac_length (coef : N) (s : jsstring) (v : N) (k : nat) (r : jsstring) :
  parse_frac coef s = Some (v, k, r) -> List.length r <= List.length s.
Proof.
  unfold parse_frac. destruct s as [|c s].
  - intros H. inversion H. simpl. lia.
  - destruct (is_char c ".").
    + destruct (digits s coef 0) as [[v' k'] r'] eqn:E.
      destruct k'; [discriminate|]. intros H. inversion H. subst.
      apply digits_count in E. simpl. lia.
    + intros H. inversion H. lia.
Qed.

Lemma parse_exp_length (s : jsstring) (e : Z) (r : jsstring) :
  parse_exp s = Some (e, r) -> List.length r <= List.length s.
Proof.
  unfold parse_exp. destruct s as [|c s].
  - intros H. inversion H. simpl. lia.
  - destruct (is_char c "e" || is_char c "E").
    + destruct (match s with
                | d :: r' =>
                    if is_char d "-" then ((-1)%Z, r')
                    else if is_char d "+" then (1%Z, r') else (1%Z, s)
                | [] => (1%Z, s)
                end) as [sg r1] eqn:Es.
      assert (Hr1 : List.length r1 <= List.length s).
      { destruct s as [|d s']; [inversion Es; simpl; lia|].
        destruct (is_char d "-"); [inversion Es; simpl; lia|].
        destruct (is_char d "+"); inversion Es; simpl; lia. }
      destruct (digits r1 0 0) as [[v' k'] r'] eqn:E.
      destruct k'; [discriminate|]. intros H. inversion H. subst.
      apply digits_count in E. simpl. lia.
    + intros H. inversion H. lia.
Qed.

Lemma parse_number_length (s : jsstring) (v : value) (r : jsstring) :
  parse_number s = Some (v, r) -> List.length r < List.length s.
Proof.
  unfold parse_number.
  destruct (match s with
            | c :: r0 => if is_char c "-" then (true, r0) else (false, s)
            | [] => (false, s)
            end) as [neg s1] eqn:E1.
  assert (H1 : List.length s1 <= List.length s).
  { destruct s as [|c s']; [inversion E1; lia|].
    destruct (is_char c "-"); inversion E1; simpl; lia. }
  destruct (parse_int s1) as [[i s2]|] eqn:E2; [|discriminate].
  apply parse_int_length in E2.
  destruct (parse_frac i s2) as [[[coef k] s3]|] eqn:E3; [|discriminate].
  apply parse_frac_length in E3.
  destruct (parse_exp s3) as [[e s4]|] eqn:E4; [|discriminate].
  apply parse_exp_length in E4.
  intros H. inversion H. subst. lia.
Qed.

Lemma parse_literal_length (s : jsstring) (v : value) (r : jsstring) :
  parse_literal s = Some (v, r) -> List.length r < List.length s.
Proof.
  unfold parse_literal.
  destruct (strip_prefix (js "true") s) eqn:E1.
  { intros H. inversion H. subst. apply strip_prefix_length in E1. simpl in E1. lia. }
  destruct (strip_prefix (js "false") s) eqn:E2.
  { intros H. inversion H. subst. apply strip_prefix_length in E2. simpl in E2. lia. }
  destruct (strip_prefix (js "null") s) eqn:E3.
  { intros H. inversion H. subst. apply strip_prefix_length in E3. simpl in E3. lia. }
  apply parse_number_length.
Qed.

(** A parse that succeeds with some fuel consumes at least one code unit and
    succeeds, with the same result, with any fuel of at least twice what it
    consumed. *)
Lemma parse_fuel_stable :
  forall f,
    (forall s v r,
        parse_value f s = Some (v, r) ->
        List.length r < List.length s
        /\ forall f', 2 * (List.length s - List.length r) <= f' ->
                      parse_value f' s = Some (v, r))
    /\ (forall s acc v r,
          parse_members f s acc = Some (v, r) ->
          List.length r < List.length s
          /\ forall f', 2 * (List.length s - List.length r) <= f' ->
                        parse_members f' s acc = Some (v, r))
    /\ (forall s acc v r,
          parse_elements f s acc = Some (v, r) ->
          List.length r < List.length s
          /\ forall f', 2 * (List.length s - List.length r) <= f' ->
                        parse_elements f' s acc = Some (v, r)).
Proof.
  induction f as [|f (IHV & IHM & IHE)].
  - repeat split; intros; discriminate.
  - split; [|split].
    + intros s v r H. cbn [parse_value] in H.
      pose proof (skip_ws_length s) as Hws.
      destruct (skip_ws s) as [|c r0] eqn:Ews; [discriminate|]. simpl in Hws.
      destruct (is_char c "{") eqn:Hc1.
      { pose proof (skip_ws_length r0) as Hws0.
        destruct (skip_ws r0) as [|d r'] eqn:Ews0; [discriminate|]. simpl in Hws0.
        destruct (is_char d "}") eqn:Hd.
        - inversion H; subst. split; [lia|]. intros f' Hf'.
          destruct f' as [|f']; [lia|]. cbn [parse_value].
          rewrite Ews, Hc1, Ews0, Hd. reflexivity.
        - apply IHM in H as [Hlen Hfuel]. split; [lia|]. intros f' Hf'.
          destruct f' as [|f']; [lia|]. cbn [parse_value].
          rewrite Ews, Hc1, Ews0, Hd. apply Hfuel. lia. }
      destruct (is_char c "[") eqn:Hc2.
      { pose proof (skip_ws_length r0) as Hws0.
        destruct (skip_ws r0) as [|d r'] eqn:Ews0; [discriminate|]. simpl in Hws0.
        destruct (is_char d "]") eqn:Hd.
        - inversion H; subst. split; [lia|]. intros f' Hf'.
          destruct f' as [|f']; [lia|]. cbn [parse_value].
          rewrite Ews, Hc1, Hc2, Ews0, Hd. reflexivity.
        - apply IHE in H as [Hlen Hfuel]. split; [lia|]. intros f' Hf'.
          destruct f' as [|f']; [lia|]. cbn [parse_value].
          rewrite Ews, Hc1, Hc2, Ews0, Hd. apply Hfuel. lia. }
      destruct (N.eqb c quote) eqn:Hc3.
      { destruct (parse_string r0 []) as [[str r']|] eqn:Es; [|discriminate].
        inversion H; subst.
        pose proof (parse_string_length (List.length r0) r0 [] str r (le_n _) Es) as Hl.
        split; [lia|]. intros f' Hf'.
        destruct f' as [|f']; [lia|]. cbn [parse_value].
        rewrite Ews, Hc1, Hc2, Hc3, Es. reflexivity. }
      pose proof (parse_literal_length _ _ _ H) as Hl. simpl in Hl.
      split; [lia|]. intros f' Hf'.
      destruct f' as [|f']; [lia|]. cbn [parse_value].
      rewrite Ews, Hc1, Hc2, Hc3. exact H.
    + intros s acc v r H. cbn [parse_members] in H.
      pose proof (skip_ws_length s) as Hws.
      destruct (skip_ws s) as [|q r0] eqn:Ews; [discriminate|]. simpl in Hws.
      destruct (N.eqb q quote) eqn:Hq; [|discriminate].
      destruct (parse_string r0 []) as [[key r1]|] eqn:Es; [|discriminate].
      pose proof (parse_string_length (List.length r0) r0 [] key r1 (le_n _) Es) as Hl1.
      pose proof (skip_ws_length r1) as Hws1.
      destruct (skip_ws r1) as [|colon r2] eqn:Ews1; [discriminate|]. simpl in Hws1.
      destruct (is_char colon ":") eqn:Hcolon; [|discriminate].
      destruct (parse_value f r2) as [[v' r3]|] eqn:Ev; [|discriminate].
      apply IHV in Ev as [Hl3 Hfuel3].
      pose proof (skip_ws_length r3) as Hws3.
      destruct (skip_ws r3) as [|d r4] eqn:Ews3; [discriminate|]. simpl in Hws3.
      destruct (is_char d ",") eqn:Hd1.
      { apply IHM in H as [Hl Hfuel]. split; [lia|]. intros f' Hf'.
        destruct f' as [|f']; [lia|]. cbn [parse_members].
        rewrite Ews, Hq, Es, Ews1, Hcolon, (Hfuel3 f') by lia.
        rewrite Ews3, Hd1. apply Hfuel. lia. }
      destruct (is_char d "}") eqn:Hd2; [|discriminate].
      inversion H; subst. split; [lia|]. intros f' Hf'.
      destruct f' as [|f']; [lia|]. cbn [parse_members].
      rewrite Ews, Hq, Es, Ews1, Hcolon, (Hfuel3 f') by lia.
      rewrite Ews3, Hd1, Hd2. reflexivity.
    + intros s acc v r H. cbn [parse_elements] in H.
      destruct (parse_value f s) as [[v' r1]|] eqn:Ev; [|discriminate].
      apply IHV in Ev as [Hl1 Hfuel1].
      pose proof (skip_ws_length r1) as Hws1.
      destruct (skip_ws r1) as [|d r'] eqn:Ews1; [discriminate|]. simpl in Hws1.
      destruct (is_char d ",") eqn:Hd1.
      { apply IHE in H as [Hl Hfuel]. split; [lia|]. intros f' Hf'.
        destruct f' as [|f']; [lia|]. cbn [parse_elements].
        rewrite (Hfuel1 f') by lia. rewrite Ews1, Hd1. apply Hfuel. lia. }
      destruct (is_char d "]") eqn:Hd2; [|discriminate].
      inversion H; subst. split; [lia|]. intros f' Hf'.
      destruct f' as [|f']; [lia|]. cbn [parse_elements].
      rewrite (Hfuel1 f') by lia. rewrite Ews1, Hd1, Hd2. reflexivity.
Qed.

(** The fuel [JSON.parse] is given is enough: a text that parses with any
    fuel parses, to the same value, with [fuel_for]. *)
Lemma parse_fuel_enough (text : jsstring) (f : nat) (v : value) (rest : jsstring) :
  parse_value f text = Some (v, rest) ->
  parse_value (fuel_for text) text = Some (v, rest).
Proof.
  intros H. destruct (parse_fuel_stable f) as (HV & _ & _).
  destruct (HV text v rest H) as [Hlen Hfuel].
  apply Hfuel. unfold fuel_for. lia.
Qed.

(** ** The scan history *)

Lemma slice_last_length (A : Type) (n : nat) (l : list A) :
  List.length (slice_last n l) <= n.
Proof.
  unfold slice_last. rewrite length_skipn. lia.
Qed.

Lemma slice_last_suffix (A : Type) (n : nat) (l : list A) :
  firstn (List.length l - n) l ++ slice_last n l = l.
Proof.
  unfold slice_last. apply firstn_skipn.
Qed.

Lemma slice_last_short (A : Type) (n : nat) (l : list A) :
  List.length l <= n -> slice_last n l = l.
Proof.
  intros H. unfold slice_last.
  replace (List.length l - n) with 0 by lia. reflexivity.
Qed.

(** The updater of the history.  A successful analysis on a mounted
    session stores [add_to_history] of the history its call saw and the new
    entry: at most 50 entries, a suffix of the entries seen followed by the
    new one, which is the whole list while it has fewer than 50 and loses
    exactly its oldest entry when it had 50. *)
Theorem history_never_exceeds_50 :
  forall (now : N) (uuid : jsstring) (p : Pending) (r : AnalysisResult) (s : Session),
    isMountedRef s = true ->
    let entry := {| id := uuid; timestamp := now; originalMessage := message_sent p;
                    entry_result := r; entry_model := model_sent p |} in
    let prev := default (history_seen p) [] in
    let kept := add_to_history (history_seen p) entry in
    history (submit_settle now uuid p (Normal r) s) = Some kept
    /\ List.length kept <= 50
    /\ firstn (List.length prev + 1 - 50) (prev ++ [entry]) ++ kept = prev ++ [entry]
    /\ (List.length prev < 50 -> kept = prev ++ [entry])
    /\ (List.length prev = 50 -> kept = tl prev ++ [entry]).
Proof.
  intros now uuid p r s Hm entry prev kept.
  assert (Hk : kept = slice_last 50 (prev ++ [entry])) by reflexivity.
  repeat split.
  - simpl. rewrite Hm. reflexivity.
  - rewrite Hk. apply slice_last_length.
  - rewrite Hk.
    replace (List.length prev + 1 - 50) with (List.length (prev ++ [entry]) - 50)
      by (rewrite length_app; simpl; lia).
    apply slice_last_suffix.
  - intros Hlt. rewrite Hk. apply slice_last_short.
    rewrite length_app. simpl. lia.
  - intros H50. rewrite Hk. unfold slice_last.
    rewrite length_app. simpl. rewrite H50. simpl.
    destruct prev as [|oldest rest]; [discriminate|]. reflexivity.
Qed.

Lemma history_never_exceeds_50_witness :
  let p := a_pending (Some (repeat an_entry 50)) in
  history (submit_settle 7 (js "n") p (Normal a_result) a_session)
  = Some (repeat an_entry 49
          ++ [{| id := js "n"; timestamp := 7; originalMessage := js "hi";
                 entry_result := a_result; entry_model := DEFAULT_MODEL |}]).
Proof.
  intros p.
  destruct (history_never_exceeds_50 7 (js "n") p a_result a_session eq_refl)
    as (Hstored & _ & _ & _ & Hfull).
  rewrite Hstored. rewrite (Hfull eq_refl). reflexivity.
Defined.

(** ** The input checks of analyzeMessage *)

Lemma blank_string (s : jsstring) :
  blank (VString s) = Nat.eqb (List.length (trim s)) 0.
Proof.
  unfold blank. destruct s; reflexivity.
Qed.

Lemma blank_spec (v : value) :
  blank v = false <-> exists s, v = VString s /\ trim s <> [].
Proof.
  split.
  - intros H. destruct v as [| |b|neg c e|s|items|props];
      try (unfold blank in H; simpl in H;
           rewrite ?orb_true_r in H; discriminate).
    exists s. split; [reflexivity|].
    rewrite blank_string in H. intros E. rewrite E in H. discriminate.
  - intros (s & -> & Hs). rewrite blank_string.
    destruct (trim s); [contradiction|reflexivity].
Qed.

(** Past its two checks, [analyzeMessage] is the loop started at attempt 1. *)
Lemma analyzeMessage_runs_loop (message apiKey : value) (options : Options)
  (net : nat -> Network) (w : World) :
  blank message = false -> blank apiKey = false ->
  exists m k,
    message = VString m /\ apiKey = VString k
    /\ analyzeMessage message apiKey options net w
       = attempts m k (default (model options) DEFAULT_MODEL)
                  (default (maxRetries options) 3)
                  (default (timeoutMs options) 30000%N)
                  (signal options) net
                  (default (maxRetries options) 3) 1 None w.
Proof.
  intros Hm Hk.
  destruct (proj1 (blank_spec message) Hm) as (m & -> & _).
  destruct (proj1 (blank_spec apiKey) Hk) as (k & -> & _).
  exists m, k. repeat split.
  unfold analyzeMessage. rewrite Hm, Hk. reflexivity.
Qed.

(** C10. The blank-message check comes first.  A message that is empty,
    not a string or only white space (that is, [blank]) is rejected with
    the INVALID_RESPONSE error [Message is required] whatever the key, and
    the world is left as it was: no call of [fetch], no time spent.  The
    INVALID_API_KEY error [API key is required] is what a non-blank message
    with a blank key gets, again before any call.  With neither blank, both
    are strings and the loop runs. *)
Theorem blank_message_checked_before_key :
  forall (message apiKey : value) (options : Options) (net : nat -> Network)
         (w : World),
    (blank message = false <-> exists s, message = VString s /\ trim s <> [])
    /\ (blank message = true ->
        analyzeMessage message apiKey options net w
        = (Throw (AIError (js "Message is required") INVALID_RESPONSE None), w))
    /\ (blank message = false -> blank apiKey = true ->
        analyzeMessage message apiKey options net w
        = (Throw (AIError (js "API key is required") INVALID_API_KEY None), w))
    /\ (blank message = false -> blank apiKey = false ->
        exists m k,
          message = VString m /\ apiKey = VString k
          /\ analyzeMessage message apiKey options net w
             = attempts m k (default (model options) DEFAULT_MODEL)
                        (default (maxRetries options) 3)
                        (default (timeoutMs options) 30000%N)
                        (signal options) net
                        (default (maxRetries options) 3) 1 None w).
Proof.
  intros message apiKey options net w.
  split; [apply blank_spec|].
  split; [|split].
  - intros Hm. unfold analyzeMessage. rewrite Hm. reflexivity.
  - intros Hm Hk. unfold analyzeMessage. rewrite Hm, Hk. reflexivity.
  - apply analyzeMessage_runs_loop.
Qed.

Lemma blank_message_checked_before_key_witness :
  analyzeMessage (VString (js "  ")) (VString []) plain
                 (always (Responds 100 200 5 [])) world0
  = (Throw (AIError (js "Message is required") INVALID_RESPONSE None), world0)
  /\ analyzeMessage (VNumber false 5 0) VUndefined plain
                    (always (Responds 100 200 5 [])) world0
     = (Throw (AIError (js "Message is required") INVALID_RESPONSE None), world0)
  /\ analyzeMessage (VString (js "hi")) (VString []) plain
                    (always (Responds 100 200 5 [])) world0
     = (Throw (AIError (js "API key is required") INVALID_API_KEY None), world0).
Proof.
  split; [|split].
  - apply (proj1 (proj2 (blank_message_checked_before_key
                           (VString (js "  ")) (VString []) plain
                           (always (Responds 100 200 5 [])) world0))).
    reflexivity.
  - apply (proj1 (proj2 (blank_message_checked_before_key
                           (VNumber false 5 0) VUndefined plain
                           (always (Responds 100 200 5 [])) world0))).
    reflexivity.
  - apply (proj1 (proj2 (proj2 (blank_message_checked_before_key
                                  (VString (js "hi")) (VString []) plain
                                  (always (Responds 100 200 5 [])) world0))));
      reflexivity.
Defined.

(** ** validateAnalysisResponse *)

Lemma js_nonempty_app (a : string) (c : ascii) (rest : jsstring) :
  js (String c a) ++ rest <> [].
Proof. discriminate. Qed.

Lemma check_rewrites_spec (rw : list (jsstring * value)) :
  match check_rewrites (VObject rw) requiredRewrites with
  | Normal None =>
      forallb (fun key => match Js.own rw (js key) with
                          | Some (VString _) => true
                          | _ => false
                          end) requiredRewrites = true
  | Normal (Some text) =>
      text <> []
      /\ forallb (fun key => match Js.own rw (js key) with
                             | Some (VString _) => true
                             | _ => false
                             end) requiredRewrites = false
  | Throw _ => False
  end.
Proof.
  unfold requiredRewrites, check_rewrites, get, bind. cbn [forallb].
  destruct (Js.own rw (js "short")) as [[]|]; cbn [Js.typeof String.eqb negb andb];
    try (split; [discriminate|reflexivity]);
  destruct (Js.own rw (js "warm")) as [[]|]; cbn [Js.typeof String.eqb negb andb];
    try (split; [discriminate|reflexivity]);
  destruct (Js.own rw (js "confident")) as [[]|]; cbn [Js.typeof String.eqb negb andb];
    try (split; [discriminate|reflexivity]);
  reflexivity.
Qed.

Lemma check_rewrites_array (items : list value) :
  check_rewrites (VArray items) requiredRewrites
  = Normal (Some (js "Missing rewrite: " ++ js "short")).
Proof. reflexivity. Qed.

(** What the validator answers, against the shape the specification
    describes: [null] exactly on a conforming candidate, a non-empty text
    on any other, unless the text would quote a verdict that has no string
    conversion, in which case the conversion's exception escapes. *)
Lemma validate_spec (data : value) :
  match validateAnalysisResponse data with
  | Normal None => conforming data = true
  | Normal (Some text) => text <> [] /\ conforming data = false
  | Throw e =>
      conforming data = false
      /\ exists verdict, get data "verdict" = Normal verdict /\ ToString verdict = Throw e
  end.
Proof.
  destruct data as [| |b|neg c e|s|items|props].
  - cbn. split; [discriminate|reflexivity].
  - cbn. split; [discriminate|reflexivity].
  - destruct b; cbn; (split; [discriminate|reflexivity]).
  - unfold validateAnalysisResponse.
    replace (Js.typeof (VNumber neg c e)) with "number" by reflexivity.
    cbn [String.eqb Ascii.eqb Bool.eqb andb negb]. rewrite orb_true_r.
    split; [discriminate|reflexivity].
  - destruct s; cbn; (split; [discriminate|reflexivity]).
  - cbn. split; [discriminate|reflexivity].
  - unfold validateAnalysisResponse, conforming.
    replace (negb (Js.truthy (VObject props))
             || negb (String.eqb (Js.typeof (VObject props)) "object"))
      with false by reflexivity.
    unfold get at 1. cbn [bind].
    destruct (Js.own props (js "verdict")) as [verdict|] eqn:Hv; cbn [default bind].
    + destruct (includes_value validVerdicts verdict) eqn:Hin; cbn [negb andb].
      * unfold get at 1.
        destruct (Js.own props (js "risks")) as [risks|]; cbn [default bind];
          [|cbn; split; [discriminate|reflexivity]].
        destruct (Js.isArray risks); cbn [negb andb];
          [|split; [discriminate|reflexivity]].
        unfold get at 1.
        destruct (Js.own props (js "rewrites")) as [rewrites|]; cbn [default bind];
          [|cbn; split; [discriminate|reflexivity]].
        destruct rewrites as [| |b|neg c e|s|items|rw].
        -- cbn. split; [discriminate|reflexivity].
        -- cbn. split; [discriminate|reflexivity].
        -- destruct b; cbn; (split; [discriminate|reflexivity]).
        -- replace (Js.typeof (VNumber neg c e)) with "number" by reflexivity.
           cbn [String.eqb Ascii.eqb Bool.eqb andb negb]. rewrite orb_true_r.
           split; [discriminate|reflexivity].
        -- destruct s; cbn; (split; [discriminate|reflexivity]).
        -- replace (negb (Js.truthy (VArray items))
                    || negb (String.eqb (Js.typeof (VArray items)) "object"))
             with false by reflexivity.
           rewrite check_rewrites_array. split; [discriminate|reflexivity].
        -- replace (negb (Js.truthy (VObject rw))
                    || negb (String.eqb (Js.typeof (VObject rw)) "object"))
             with false by reflexivity.
           pose proof (check_rewrites_spec rw) as Hrw.
           destruct (check_rewrites (VObject rw) requiredRewrites) as [[text|]|e].
           ++ destruct Hrw as [Ht Hf]. split; assumption.
           ++ exact Hrw.
           ++ contradiction.
      * destruct (ToString verdict) as [text|e] eqn:Ht; cbn [bind].
        -- split; [apply js_nonempty_app|reflexivity].
        -- split; [reflexivity|]. exists verdict. split; [|exact Ht].
           unfold get. rewrite Hv. reflexivity.
    + cbn. split; [discriminate|reflexivity].
Qed.

(** C8. The validator can throw.  On the parsed candidate
    [{"verdict":{"toString":1},"risks":[],"rewrites":{...}}] the verdict is
    outside the three values, and building the text [Invalid verdict: ...]
    converts it to a string: the object has an own [toString] that is not a
    function, so the conversion throws a [TypeError], which
    [validateAnalysisResponse] lets through instead of returning a text. *)
Theorem validate_throws_on_verdict_without_text :
  exists data,
    Json.parse odd_verdict_text = Some data
    /\ conforming data = false
    /\ validateAnalysisResponse data
       = Throw (TypeError (js "Cannot convert object to primitive value")).
Proof.
  eexists. split; [vm_compute; reflexivity|]. split; vm_compute; reflexivity.
Qed.

(** ** A completion without content *)

(** The sibling cases are caught: a response without choices, without a
    first choice or without a message, and one whose content is [null], all
    end the run with INVALID_RESPONSE after one call of [fetch]. *)
Lemma missing_message_is_invalid_response :
  Forall (fun b =>
            let run := analyzeMessage (VString (js "hi")) (VString (js "sk-or-1")) plain
                         (always (Responds 100 200 5 b)) world0 in
            (exists e, fst run = Throw e /\ kind e = Some INVALID_RESPONSE)
            /\ fetches (log (snd run)) = 1 /\ sleeps (log (snd run)) = [])
         [no_choices_body; no_choice_body; no_message_body; null_content_body].
Proof.
  repeat constructor; vm_compute; eexists; split; reflexivity.
Qed.

(** C6. A 200 response whose message has no [content] is not reported as
    INVALID_RESPONSE.  [parseAIResponse(undefined)] fails its direct parse,
    then calls [match] on [undefined]; the [TypeError] is no [AIError], so
    the loop retries: three calls of [fetch], the delays 1000 and 2000, and
    the bare [TypeError] at the end. *)
Theorem missing_content_is_retried :
  let run := analyzeMessage (VString (js "hi")) (VString (js "sk-or-1")) plain
               (always (Responds 100 200 5 no_content_body)) world0 in
  fst run
  = Throw (TypeError (js "Cannot read properties of undefined (reading 'match')"))
  /\ kind (TypeError (js "Cannot read properties of undefined (reading 'match')"))
     <> Some INVALID_RESPONSE
  /\ fetches (log (snd run)) = 3
  /\ sleeps (log (snd run)) = [1000; 2000]%N.
Proof.
  vm_compute. repeat split; discriminate.
Qed.

(** ** The retry loop *)

Lemma fetches_app (l1 l2 : list event) :
  fetches (l1 ++ l2) = fetches l1 + fetches l2.
Proof.
  induction l1 as [|[t r|t ms] l1 IH]; simpl; [reflexivity| |]; rewrite IH; reflexivity.
Qed.

Lemma sleeps_app (l1 l2 : list event) :
  sleeps (l1 ++ l2) = sleeps l1 ++ sleeps l2.
Proof.
  induction l1 as [|[t r|t ms] l1 IH]; simpl; [reflexivity| |]; rewrite IH; reflexivity.
Qed.

Section LogKeeping.

Variables A B : Type.

Lemma keeps_log_ret (a : A) : keeps_log (ret a).
Proof. intros w. reflexivity. Qed.

Lemma keeps_log_throw (e : exception) : keeps_log (@throw A e).
Proof. intros w. reflexivity. Qed.

Lemma keeps_log_lift (c : completion A) : keeps_log (lift c).
Proof. intros w. reflexivity. Qed.

Lemma keeps_log_await (c : async A) (k : A -> async B) :
  keeps_log c -> (forall a, keeps_log (k a)) -> keeps_log (await c k).
Proof.
  intros Hc Hk w. unfold await. specialize (Hc w).
  destruct (c w) as [[a|e] w']; simpl in *.
  - rewrite Hk. exact Hc.
  - exact Hc.
Qed.

Lemma keeps_log_try_catch (c : async A) (h : exception -> async A) :
  keeps_log c -> (forall e, keeps_log (h e)) -> keeps_log (try_catch c h).
Proof.
  intros Hc Hh w. unfold try_catch. specialize (Hc w).
  destruct (c w) as [[a|e] w']; simpl in *.
  - exact Hc.
  - rewrite Hh. exact Hc.
Qed.

Lemma keeps_log_if (b : bool) (c1 c2 : async A) :
  keeps_log c1 -> keeps_log c2 -> keeps_log (if b then c1 else c2).
Proof. destruct b; auto. Qed.

End LogKeeping.

Lemma keeps_log_read_body (r : Response) (sig : option N) :
  keeps_log (read_body r sig).
Proof.
  intros w. unfold read_body.
  destruct (aborted_by sig (clock w + body_ms r)); reflexivity.
Qed.

Lemma keeps_log_response_json (r : Response) (sig : option N) :
  keeps_log (response_json r sig).
Proof.
  unfold response_json. apply keeps_log_await.
  - apply keeps_log_read_body.
  - intros text. destruct (Json.parse text);
      [apply keeps_log_ret|apply keeps_log_throw].
Qed.

Lemma keeps_log_http_error (r : Response) (sig : option N) :
  keeps_log (http_error r sig).
Proof.
  unfold http_error. apply keeps_log_await.
  - apply keeps_log_try_catch; [apply keeps_log_read_body|].
    intros e. apply keeps_log_ret.
  - intros b. apply keeps_log_throw.
Qed.

(** Goals [keeps_log c] for a computation built from the pieces above. *)
Ltac keeps_log :=
  repeat first
    [ apply keeps_log_ret | apply keeps_log_throw | apply keeps_log_lift
    | apply keeps_log_read_body | apply keeps_log_response_json
    | apply keeps_log_http_error | apply keeps_log_if
    | apply keeps_log_await; [|intro] | apply keeps_log_try_catch; [|intro] ].

(** One attempt logs one call of [fetch], made when it starts, and nothing
    else. *)
Lemma attempt_body_log (message apiKey mdl : jsstring) (timeout : N)
  (sig : option N) (net : Network) (w : World) :
  log (snd (attempt_body message apiKey mdl timeout sig net w))
  = log w ++ [Fetched (clock w) (request_of message apiKey mdl)].
Proof.
  unfold attempt_body, await at 1.
  fold (request_of message apiKey mdl).
  destruct (fetch (request_of message apiKey mdl) sig timeout net w)
    as [[response|e] w1] eqn:Hf.
  - assert (Hl : log w1 = log w ++ [Fetched (clock w) (request_of message apiKey mdl)]).
    { unfold fetch in Hf.
      destruct (aborted_by sig (clock w)); [discriminate|].
      destruct (N.leb _ _); [discriminate|].
      destruct net; inversion Hf; reflexivity. }
    rewrite <- Hl.
    match goal with |- log (snd (?c w1)) = _ => assert (Hk : keeps_log c) end.
    { keeps_log.
      match goal with
      | |- keeps_log (match ?v with _ => _ end) =>
          destruct v as [[|c text]|]; intros w'; reflexivity
      end. }
    apply Hk.
  - simpl. unfold fetch in Hf.
    destruct (aborted_by sig (clock w)); [inversion Hf; reflexivity|].
    destruct (N.leb _ _); [inversion Hf; reflexivity|].
    destruct net; inversion Hf; reflexivity.
Qed.

(** The loop, one iteration unfolded. *)
Lemma attempts_step (message apiKey mdl : jsstring) (max : nat) (timeout : N)
  (sig : option N) (net : nat -> Network) (remaining attempt : nat)
  (lastError : option exception) (w : World) :
  attempts message apiKey mdl max timeout sig net (S remaining) attempt lastError w
  = match attempt_body message apiKey mdl timeout sig (net attempt) w with
    | (Normal a, w1) => (Normal a, w1)
    | (Throw e, w1) =>
        if not_retried e then (Throw e, w1)
        else if String.eqb (error_name e) "AbortError"
        then (Throw (AIError (js "Request cancelled") TIMEOUT (Some e)), w1)
        else
          (_ <~ (if Nat.ltb attempt max then sleep (delay attempt) else ret tt) ;;
           attempts message apiKey mdl max timeout sig net remaining (S attempt)
             (Some (if is_fetch_failure e
                    then AIError (js "Network error. Check your internet connection.")
                                 NETWORK_ERROR (Some e)
                    else e))) w1
    end.
Proof.
  simpl. unfold try_catch.
  destruct (attempt_body message apiKey mdl timeout sig (net attempt) w)
    as [[a|e] w1]; [reflexivity|].
  destruct (not_retried e); [reflexivity|].
  destruct (String.eqb (error_name e) "AbortError"); reflexivity.
Qed.

(** A call of [fetch] whose signal is still quiet when the network settles,
    and settles before the timer fires, gets what the network gives. *)
Lemma fetch_delivers (request : Request) (sig : option N) (timeout : N)
  (net : Network) (w : World) :
  aborted_by sig (clock w + latency net) = false ->
  (latency net < timeout)%N ->
  fetch request sig timeout net w
  = (match net with
     | Unreachable _ message => Throw (TypeError message)
     | Responds _ st bms b => Normal {| Ai.status := st; body_ms := bms; body := b |}
     end,
     {| clock := clock w + latency net; log := log w ++ [Fetched (clock w) request] |}).
Proof.
  intros Hq Ht. unfold fetch.
  assert (H0 : aborted_by sig (clock w) = false).
  { destruct sig as [a|]; [|reflexivity]. simpl in *.
    apply N.leb_gt. apply N.leb_gt in Hq. lia. }
  rewrite H0.
  assert (H1 : N.leb (match sig with
                      | Some a => N.min a (clock w + timeout)
                      | None => (clock w + timeout)%N
                      end) (clock w + latency net) = false).
  { apply N.leb_gt. destruct sig as [a|]; simpl in Hq.
    - apply N.leb_gt in Hq. lia.
    - lia. }
  destruct net as [after_ms message|head_ms st bms b]; simpl in *;
    rewrite H1; reflexivity.
Qed.

(** A 401 or a 403 that arrives ends the attempt with the INVALID_API_KEY
    error, whether or not reading the error body succeeds. *)
Lemma attempt_body_unauthorized (message apiKey mdl : jsstring) (timeout : N)
  (sig : option N) (h st bms : N) (b : jsstring) (w : World) :
  aborted_by sig (clock w + h) = false ->
  (h < timeout)%N ->
  st = 401%N \/ st = 403%N ->
  exists w1,
    attempt_body message apiKey mdl timeout sig (Responds h st bms b) w
    = (Throw (AIError (js "Invalid API key. Please check your OpenRouter API key.")
                      INVALID_API_KEY None), w1).
Proof.
  intros Hq Ht Hst. unfold attempt_body, await at 1.
  rewrite (fetch_delivers _ sig timeout (Responds h st bms b) w Hq Ht).
  assert (Hok : ok {| Ai.status := st; body_ms := bms; body := b |} = false)
    by (destruct Hst; subst st; reflexivity).
  rewrite Hok. cbn [negb]. unfold await at 1, http_error, await at 1, try_catch.
  assert (Herr : forall eb, status_error st eb
                 = AIError (js "Invalid API key. Please check your OpenRouter API key.")
                           INVALID_API_KEY None)
    by (intros eb; destruct Hst; subst st; reflexivity).
  match goal with
  | |- context [read_body ?r sig ?w0] => destruct (read_body r sig w0) as [[eb|e] w1]
  end; cbn [ret throw Ai.status]; rewrite Herr; eexists; reflexivity.
Qed.

(** C2. An attempt that fails with INVALID_API_KEY or INVALID_RESPONSE ends
    the loop: the same error is thrown, from the world that attempt left,
    with one more call of [fetch] and no sleep, however many iterations
    remain.  In particular, when the first response is a 401 (or 403) that
    arrives, [analyzeMessage] throws the INVALID_API_KEY error after exactly
    one call.  A response arrives when the caller's signal is quiet until
    then and the timer has not fired: it is set for [timeoutMs], a delay
    below 2^31 ms, the largest [setTimeout] keeps, and the headers are in
    before that. *)
Theorem non_retryable_error_stops_the_loop :
  (forall (message apiKey mdl : jsstring) (max : nat) (timeout : N)
          (sig : option N) (net : nat -> Network) (remaining attempt : nat)
          (lastError : option exception) (w w1 : World) (e : exception),
      attempt_body message apiKey mdl timeout sig (net attempt) w = (Throw e, w1) ->
      kind e = Some INVALID_API_KEY \/ kind e = Some INVALID_RESPONSE ->
      attempts message apiKey mdl max timeout sig net (S remaining) attempt lastError w
      = (Throw e, w1)
      /\ fetches (log w1) = S (fetches (log w))
      /\ sleeps (log w1) = sleeps (log w))
  /\ (forall (message apiKey : value) (options : Options) (net : nat -> Network)
             (w : World) (n : nat) (h st bms : N) (b : jsstring),
         blank message = false -> blank apiKey = false ->
         default (maxRetries options) 3 = S n ->
         net 1 = Responds h st bms b ->
         st = 401%N \/ st = 403%N ->
         aborted_by (signal options) (clock w + h) = false ->
         (h < default (timeoutMs options) 30000)%N ->
         (default (timeoutMs options) 30000 < 2147483648)%N ->
         exists w1,
           analyzeMessage message apiKey options net w
           = (Throw (AIError (js "Invalid API key. Please check your OpenRouter API key.")
                             INVALID_API_KEY None), w1)
           /\ fetches (log w1) = S (fetches (log w))
           /\ sleeps (log w1) = sleeps (log w)).
Proof.
  assert (Hloop :
    forall (message apiKey mdl : jsstring) (max : nat) (timeout : N)
           (sig : option N) (net : nat -> Network) (remaining attempt : nat)
           (lastError : option exception) (w w1 : World) (e : exception),
      attempt_body message apiKey mdl timeout sig (net attempt) w = (Throw e, w1) ->
      kind e = Some INVALID_API_KEY \/ kind e = Some INVALID_RESPONSE ->
      attempts message apiKey mdl max timeout sig net (S remaining) attempt lastError w
      = (Throw e, w1)
      /\ fetches (log w1) = S (fetches (log w))
      /\ sleeps (log w1) = sleeps (log w)).
  { intros message apiKey mdl max timeout sig net remaining attempt lastError
           w w1 e Hbody Hkind.
    assert (Hnr : not_retried e = true).
    { destruct e as [m t o| | |]; simpl in Hkind;
        try (destruct Hkind; discriminate).
      destruct Hkind as [Hk|Hk]; inversion Hk; reflexivity. }
    pose proof (attempt_body_log message apiKey mdl timeout sig (net attempt) w) as Hlog.
    rewrite Hbody in Hlog. simpl in Hlog.
    split; [|split].
    - rewrite attempts_step, Hbody, Hnr. reflexivity.
    - rewrite Hlog, fetches_app. simpl. lia.
    - rewrite Hlog, sleeps_app. simpl. apply app_nil_r. }
  split; [exact Hloop|].
  intros message apiKey options net w n h st bms b Hm Hk Hmax Hnet Hst Hq Ht _.
  destruct (analyzeMessage_runs_loop message apiKey options net w Hm Hk)
    as (m & k & _ & _ & ->).
  rewrite Hmax.
  destruct (attempt_body_unauthorized m k (default (model options) DEFAULT_MODEL)
              _ (signal options) h st bms b w Hq Ht Hst) as (w1 & Hbody).
  rewrite <- Hnet in Hbody.
  exists w1. apply Hloop; [exact Hbody|left; reflexivity].
Qed.

Lemma non_retryable_error_stops_the_loop_witness :
  exists w1,
    analyzeMessage (VString (js "hi")) (VString (js "sk-or-1")) plain
                   (always (Responds 100 401 5 (js "denied"))) world0
    = (Throw (AIError (js "Invalid API key. Please check your OpenRouter API key.")
                      INVALID_API_KEY None), w1)
    /\ fetches (log w1) = 1.
Proof.
  destruct (proj2 non_retryable_error_stops_the_loop
              (VString (js "hi")) (VString (js "sk-or-1")) plain
              (always (Responds 100 401 5 (js "denied"))) world0
              2 100%N 401%N 5%N (js "denied"))
    as (w1 & Hrun & Hfetch & _);
    try reflexivity.
  - left. reflexivity.
  - exists w1. split; [exact Hrun|exact Hfetch].
Defined.

(** With no signal, an attempt on a network that fails retryably throws
    what [failure_of] remembers of it, or the raw [TypeError] of [fetch]
    that the handler turns into it. *)
Lemma attempt_body_fails_retryably (message apiKey mdl : jsstring) (timeout : N)
  (net : Network) (w : World) :
  fails_retryably timeout net = true ->
  exists raw w1,
    attempt_body message apiKey mdl timeout None net w = (Throw raw, w1)
    /\ not_retried raw = false
    /\ String.eqb (error_name raw) "AbortError" = false
    /\ (if is_fetch_failure raw
        then AIError (js "Network error. Check your internet connection.")
                     NETWORK_ERROR (Some raw)
        else raw) = failure_of net
    /\ kind (failure_of net) = retryable_kind net.
Proof.
  unfold fails_retryably. intros H. apply andb_true_iff in H as [Hlat Hkind].
  apply N.ltb_lt in Hlat.
  unfold attempt_body, await at 1.
  rewrite (fetch_delivers _ None timeout net w eq_refl Hlat).
  destruct net as [after_ms message'|h st bms b]; simpl in Hkind.
  - destruct (includes message' (js "fetch")) eqn:Hinc; [|discriminate].
    do 2 eexists. split; [reflexivity|].
    simpl. rewrite Hinc. repeat split; reflexivity.
  - unfold ok. cbn [Ai.status].
    destruct (N.leb 200 st && N.leb st 299) eqn:Hok; [discriminate|].
    cbn [negb orb] in *.
    unfold await at 1, http_error, await at 1, try_catch, read_body.
    cbn [aborted_by body_ms body Ai.status ret throw].
    do 2 eexists. split; [reflexivity|].
    unfold failure_of, status_error, retryable_kind. rewrite Hok. cbn [orb].
    destruct (N.eqb st 401 || N.eqb st 403) eqn:H4; [discriminate|].
    destruct (N.eqb st 429); [repeat split; reflexivity|].
    destruct (N.leb 500 st); repeat split; reflexivity.
Qed.

(** The loop over attempts that all fail retryably runs to its end. *)
Lemma attempts_all_fail (message apiKey mdl : jsstring) (max : nat) (timeout : N)
  (net : nat -> Network) :
  forall (remaining attempt : nat) (lastError : option exception) (w : World),
    (forall k, attempt <= k <= max -> fails_retryably timeout (net k) = true) ->
    attempt + remaining = max ->
    exists w',
      attempts message apiKey mdl max timeout None net (S remaining) attempt lastError w
      = (Throw (failure_of (net max)), w')
      /\ fetches (log w') = fetches (log w) + S remaining
      /\ sleeps (log w') = sleeps (log w) ++ map delay (seq attempt remaining).
Proof.
  induction remaining as [|remaining IH]; intros attempt lastError w Hall Hmax.
  - assert (attempt = max) by lia. subst attempt.
    destruct (attempt_body_fails_retryably message apiKey mdl timeout (net max) w
                (Hall max (conj (le_n _) (le_n _))))
      as (raw & w1 & Hbody & Hnr & Hab & Hfail & _).
    pose proof (attempt_body_log message apiKey mdl timeout None (net max) w) as Hlog.
    rewrite Hbody in Hlog. simpl in Hlog.
    exists w1. rewrite attempts_step, Hbody, Hnr, Hab, Nat.ltb_irrefl.
    unfold await, ret. simpl. unfold throw. rewrite Hfail.
    repeat split.
    + rewrite Hlog, fetches_app. reflexivity.
    + rewrite Hlog, sleeps_app. simpl. reflexivity.
  - assert (Hlt : Nat.ltb attempt max = true) by (apply Nat.ltb_lt; lia).
    assert (Hin : attempt <= attempt <= max) by lia.
    destruct (attempt_body_fails_retryably message apiKey mdl timeout (net attempt) w
                (Hall attempt Hin))
      as (raw & w1 & Hbody & Hnr & Hab & Hfail & _).
    pose proof (attempt_body_log message apiKey mdl timeout None (net attempt) w) as Hlog.
    rewrite Hbody in Hlog. simpl in Hlog.
    rewrite attempts_step, Hbody, Hnr, Hab, Hlt.
    unfold await at 1, sleep.
    match goal with
    | |- context [attempts _ _ _ _ _ _ _ _ _ ?le ?w2] =>
        destruct (IH (S attempt) le w2) as (w' & Hrun & Hf & Hs)
    end.
    + intros k Hk. apply Hall. lia.
    + lia.
    + exists w'. split; [exact Hrun|]. simpl in Hf, Hs. split.
      * rewrite Hf, fetches_app, Hlog, fetches_app. simpl. lia.
      * rewrite Hs, sleeps_app, Hlog, sleeps_app. simpl.
        rewrite app_nil_r, <- app_assoc. reflexivity.
Qed.

(** C3. With [maxRetries = n], [n >= 1], and every attempt from 1 to [n]
    failing with a retried type (RATE_LIMITED, NETWORK_ERROR, SERVER_ERROR
    or UNKNOWN: the network answers in time with a status, or a connection
    failure, that [retryable_kind] gives a type, and the caller's signal
    stays quiet), the loop makes exactly [n] calls of [fetch], sleeps
    between them and not after the last, and throws the error of the last
    attempt.  In time is before the timer fires, which is set for
    [timeoutMs], a delay below 2^31 ms, the largest [setTimeout] keeps. *)
Theorem retryable_failures_exhaust_all_attempts :
  forall (message apiKey : value) (options : Options) (net : nat -> Network)
         (w : World) (n : nat),
    blank message = false -> blank apiKey = false ->
    default (maxRetries options) 3 = n -> 1 <= n ->
    signal options = None ->
    (default (timeoutMs options) 30000 < 2147483648)%N ->
    forallb (fails_retryably (default (timeoutMs options) 30000%N)) (map net (seq 1 n))
    = true ->
    exists w',
      analyzeMessage message apiKey options net w = (Throw (failure_of (net n)), w')
      /\ kind (failure_of (net n)) = retryable_kind (net n)
      /\ retryable_kind (net n) <> None
      /\ fetches (log w') = fetches (log w) + n
      /\ sleeps (log w') = sleeps (log w) ++ map delay (seq 1 (n - 1)).
Proof.
  intros message apiKey options net w n Hm Hk Hmax Hn Hsig _ Hall.
  destruct (analyzeMessage_runs_loop message apiKey options net w Hm Hk)
    as (m & k & _ & _ & ->).
  rewrite Hmax, Hsig.
  assert (Hall' : forall j, 1 <= j <= n ->
            fails_retryably (default (timeoutMs options) 30000%N) (net j) = true).
  { intros j Hj. rewrite forallb_forall in Hall. apply Hall.
    apply in_map. apply in_seq. lia. }
  destruct n as [|n']; [lia|].
  destruct (attempts_all_fail m k (default (model options) DEFAULT_MODEL) (S n')
              (default (timeoutMs options) 30000%N) net n' 1 None w Hall' eq_refl)
    as (w' & Hrun & Hf & Hs).
  assert (Hlast : 1 <= S n' <= S n') by lia.
  destruct (attempt_body_fails_retryably m k (default (model options) DEFAULT_MODEL)
              _ (net (S n')) w (Hall' (S n') Hlast))
    as (_ & _ & _ & _ & _ & _ & Hkind).
  exists w'. split; [exact Hrun|]. split; [exact Hkind|]. split.
  - specialize (Hall' (S n') Hlast). unfold fails_retryably in Hall'.
    apply andb_true_iff in Hall' as [_ Hsome].
    destruct (retryable_kind (net (S n'))); [discriminate|discriminate].
  - split; [exact Hf|]. rewrite Hs. simpl. rewrite Nat.sub_0_r. reflexivity.
Qed.

Lemma retryable_failures_exhaust_all_attempts_witness :
  exists w',
    analyzeMessage (VString (js "hi")) (VString (js "sk-or-1")) plain
                   (always (Responds 100 500 5 (js "oops"))) world0
    = (Throw (AIError (js "OpenRouter server error. Please try again.")
                      SERVER_ERROR None), w')
    /\ fetches (log w') = 3
    /\ sleeps (log w') = [1000; 2000]%N.
Proof.
  destruct (retryable_failures_exhaust_all_attempts
              (VString (js "hi")) (VString (js "sk-or-1")) plain
              (always (Responds 100 500 5 (js "oops"))) world0 3)
    as (w' & Hrun & _ & _ & Hf & Hs);
    try reflexivity.
  - lia.
  - exists w'. split; [exact Hrun|]. split; [exact Hf|exact Hs].
Defined.

(** ** The backoff *)

Lemma delay_capped (n : nat) : 5 <= n -> delay n = 10000%N.
Proof.
  intros Hn. unfold delay. apply N.min_r.
  assert (H : (2 ^ 4 <= 2 ^ N.of_nat (n - 1))%N)
    by (apply N.pow_le_mono_r; lia).
  change (2 ^ 4)%N with 16%N in H. lia.
Qed.

(** Whatever the network and the signal do, the delays a run of the loop
    sleeps are those of consecutive attempts, from the one it starts at. *)
Lemma attempts_sleeps (message apiKey mdl : jsstring) (max : nat) (timeout : N)
  (sig : option N) (net : nat -> Network) :
  forall (remaining attempt : nat) (lastError : option exception) (w : World),
    exists j,
      j <= max - attempt
      /\ sleeps (log (snd (attempts message apiKey mdl max timeout sig net
                                    remaining attempt lastError w)))
         = sleeps (log w) ++ map delay (seq attempt j).
Proof.
  induction remaining as [|remaining IH]; intros attempt lastError w.
  - exists 0. split; [lia|]. simpl. rewrite app_nil_r. reflexivity.
  - rewrite attempts_step.
    pose proof (attempt_body_log message apiKey mdl timeout sig (net attempt) w) as Hlog.
    assert (Hquiet : forall w1, log w1 = log w ++ [Fetched (clock w) (request_of message apiKey mdl)] ->
                       sleeps (log w1) = sleeps (log w) ++ map delay (seq attempt 0)).
    { intros w1 H1. rewrite H1, sleeps_app. reflexivity. }
    destruct (attempt_body message apiKey mdl timeout sig (net attempt) w)
      as [[a|e] w1]; simpl in Hlog.
    + exists 0. split; [lia|]. apply Hquiet, Hlog.
    + destruct (not_retried e); [exists 0; split; [lia|apply Hquiet, Hlog]|].
      destruct (String.eqb (error_name e) "AbortError");
        [exists 0; split; [lia|apply Hquiet, Hlog]|].
      unfold await at 1.
      destruct (Nat.ltb attempt max) eqn:Hlt.
      * apply Nat.ltb_lt in Hlt. unfold sleep.
        match goal with
        | |- context [attempts _ _ _ _ _ _ _ _ _ ?le ?w2] =>
            destruct (IH (S attempt) le w2) as (j & Hj & Hs)
        end.
        exists (S j). split; [lia|].
        rewrite Hs. simpl. rewrite sleeps_app, Hlog, sleeps_app. simpl.
        rewrite app_nil_r, <- app_assoc. reflexivity.
      * apply Nat.ltb_ge in Hlt. unfold ret.
        match goal with
        | |- context [attempts _ _ _ _ _ _ _ _ _ ?le ?w2] =>
            destruct (IH (S attempt) le w2) as (j & Hj & Hs)
        end.
        assert (j = 0) by lia. subst j.
        exists 0. split; [lia|]. rewrite Hs. simpl.
        rewrite app_nil_r. apply Hquiet, Hlog.
Qed.

(** Every run of the loop is paced. *)
Lemma attempts_paced (message apiKey mdl : jsstring) (max : nat) (timeout : N)
  (sig : option N) (net : nat -> Network) :
  forall (remaining attempt : nat) (lastError : option exception) (w : World),
    attempt + remaining = S max ->
    exists new,
      log (snd (attempts message apiKey mdl max timeout sig net
                         remaining attempt lastError w)) = log w ++ new
      /\ paced attempt new
      /\ match new with
         | [] => remaining = 0
         | Fetched t _ :: _ => t = clock w
         | Slept _ _ :: _ => False
         end.
Proof.
  induction remaining as [|remaining IH]; intros attempt lastError w Hmax.
  - exists []. simpl. rewrite app_nil_r. repeat split.
  - rewrite attempts_step.
    pose proof (attempt_body_log message apiKey mdl timeout sig (net attempt) w) as Hlog.
    assert (Hone : forall w1,
               log w1 = log w ++ [Fetched (clock w) (request_of message apiKey mdl)] ->
               exists new, log w1 = log w ++ new /\ paced attempt new
                           /\ match new with
                              | [] => S remaining = 0
                              | Fetched t _ :: _ => t = clock w
                              | Slept _ _ :: _ => False
                              end).
    { intros w1 H1. eexists. split; [exact H1|]. simpl. repeat split. }
    destruct (attempt_body message apiKey mdl timeout sig (net attempt) w)
      as [[a|e] w1]; simpl in Hlog; [apply Hone, Hlog|].
    destruct (not_retried e); [apply Hone, Hlog|].
    destruct (String.eqb (error_name e) "AbortError"); [apply Hone, Hlog|].
    unfold await at 1.
    destruct (Nat.ltb attempt max) eqn:Hlt.
    + apply Nat.ltb_lt in Hlt. unfold sleep.
      match goal with
      | |- context [attempts _ _ _ _ _ _ _ _ _ ?le ?w2] =>
          destruct (IH (S attempt) le w2) as (new & Hnew & Hp & Hhead); [lia|]
      end.
      exists (Fetched (clock w) (request_of message apiKey mdl)
              :: Slept (clock w1) (delay attempt) :: new).
      split.
      { rewrite Hnew. simpl. rewrite Hlog, <- !app_assoc. reflexivity. }
      split; [|reflexivity].
      simpl. split; [reflexivity|]. split; [|exact Hp].
      destruct new as [|[t r|t ms] new]; [exact I|exact Hhead|exact Hhead].
    + apply Nat.ltb_ge in Hlt. unfold ret.
      assert (remaining = 0) by lia. subst remaining.
      simpl. apply Hone, Hlog.
Qed.

Lemma analyzeMessage_paced (message apiKey : value) (options : Options)
  (net : nat -> Network) (w : World) :
  exists new,
    log (snd (analyzeMessage message apiKey options net w)) = log w ++ new
    /\ paced 1 new.
Proof.
  unfold analyzeMessage.
  destruct (blank message); [exists []; simpl; rewrite app_nil_r; split; reflexivity|].
  destruct (blank apiKey); [exists []; simpl; rewrite app_nil_r; split; reflexivity|].
  destruct message as [| |b|neg c e|m|items|props];
    try (exists []; simpl; rewrite app_nil_r; split; reflexivity).
  destruct apiKey as [| |b|neg c e|k|items|props];
    try (exists []; simpl; rewrite app_nil_r; split; reflexivity).
  destruct (attempts_paced m k (default (model options) DEFAULT_MODEL)
              (default (maxRetries options) 3) (default (timeoutMs options) 30000%N)
              (signal options) net (default (maxRetries options) 3) 1 None w eq_refl)
    as (new & Hnew & Hp & _).
  exists new. split; assumption.
Qed.

(** C4. The delay slept after failed attempt [n] is
    [min(1000 * 2^(n-1), 10000)] ms: 1000, 2000, 4000, 8000, then 10000.
    Every run is paced: each call of [fetch] but the last is followed by
    one sleep of exactly the delay of its attempt number, and the next call
    is made at the instant that sleep ends; the loop sleeps nothing else.
    With [maxRetries = 3] and a provider answering 429, 429, 200, the
    third call succeeds, after sleeps of 1000 and 2000. *)
Theorem backoff_delay_doubles_up_to_cap :
  (forall n, delay n = N.min (1000 * 2 ^ N.of_nat (n - 1)) 10000)
  /\ delay 1 = 1000%N /\ delay 2 = 2000%N /\ delay 3 = 4000%N /\ delay 4 = 8000%N
  /\ (forall n, 5 <= n -> delay n = 10000%N)
  /\ (forall (message apiKey : value) (options : Options) (net : nat -> Network)
             (w : World),
        exists new,
          log (snd (analyzeMessage message apiKey options net w)) = log w ++ new
          /\ paced 1 new)
  /\ (forall (message apiKey mdl : jsstring) (max : nat) (timeout : N)
             (sig : option N) (net : nat -> Network) (remaining attempt : nat)
             (lastError : option exception) (w : World),
        exists j,
          j <= max - attempt
          /\ sleeps (log (snd (attempts message apiKey mdl max timeout sig net
                                        remaining attempt lastError w)))
             = sleeps (log w) ++ map delay (seq attempt j))
  /\ (let run := analyzeMessage (VString (js "hi")) (VString (js "sk-or-1")) plain
                    limited_twice world0 in
      fst run = Normal {| parsed := default (Json.parse analysis_text) VNull;
                          meta := {| meta_model := DEFAULT_MODEL;
                                     Ai.timestamp := 3315;
                                     originalLength := 2 |} |}
      /\ timeline (log (snd run))
         = [(0, None); (105, Some 1000); (1105, None); (1210, Some 2000);
            (3210, None)]%N).
Proof.
  split; [reflexivity|].
  do 4 (split; [reflexivity|]).
  split; [exact delay_capped|].
  split; [exact analyzeMessage_paced|].
  split; [exact attempts_sleeps|].
  vm_compute. split; reflexivity.
Qed.

Lemma backoff_delay_doubles_up_to_cap_witness :
  delay 7 = 10000%N.
Proof.
  apply (proj1 (proj2 (proj2 (proj2 (proj2 (proj2 backoff_delay_doubles_up_to_cap))))) 7).
  lia.
Defined.

(** C7, as the code has it.  [sleep] takes no signal.  When an attempt
    short of the last fails in a way the loop retries and the caller's
    signal fires during the backoff that follows, the loop still sleeps the
    whole delay; the next call of [fetch] then finds the signal aborted and
    is rejected at once, and [Request cancelled] is thrown at the instant
    the sleep ended. *)
Theorem backoff_sleeps_through_cancellation :
  forall (message apiKey mdl : jsstring) (max : nat) (timeout a : N)
         (net : nat -> Network) (remaining attempt : nat)
         (lastError : option exception) (w w1 : World) (e : exception),
    attempt_body message apiKey mdl timeout (Some a) (net attempt) w = (Throw e, w1) ->
    not_retried e = false ->
    String.eqb (error_name e) "AbortError" = false ->
    attempt < max ->
    (clock w1 < a <= clock w1 + delay attempt)%N ->
    attempts message apiKey mdl max timeout (Some a) net (S (S remaining)) attempt
             lastError w
    = (Throw (AIError (js "Request cancelled") TIMEOUT (Some AbortError)),
       {| clock := clock w1 + delay attempt;
          log := log w1 ++ [Slept (clock w1) (delay attempt);
                            Fetched (clock w1 + delay attempt)
                                    (request_of message apiKey mdl)] |}).
Proof.
  intros message apiKey mdl max timeout a net remaining attempt lastError w w1 e
         Hbody Hnr Hab Hlt [Hafter Hduring].
  apply Nat.ltb_lt in Hlt.
  rewrite attempts_step, Hbody, Hnr, Hab, Hlt.
  unfold await at 1, sleep. rewrite attempts_step.
  unfold attempt_body at 1, await at 1, fetch.
  cbn [clock at_clock logged log aborted_by].
  assert (Hfired : N.leb a (clock w1 + delay attempt) = true)
    by (apply N.leb_le; exact Hduring).
  rewrite Hfired. cbn [not_retried error_name String.eqb Ascii.eqb Bool.eqb andb].
  unfold logged, at_clock. cbn [clock log]. rewrite <- app_assoc. reflexivity.
Qed.

Lemma backoff_sleeps_through_cancellation_witness :
  analyzeMessage (VString (js "hi")) (VString (js "sk-or-1")) cancelled_at_200
                 (always (Responds 100 500 5 (js "oops"))) world0
  = (Throw (AIError (js "Request cancelled") TIMEOUT (Some AbortError)),
     {| clock := 1105;
        log := [Fetched 0 (request_of (js "hi") (js "sk-or-1") DEFAULT_MODEL);
                Slept 105 1000;
                Fetched 1105 (request_of (js "hi") (js "sk-or-1") DEFAULT_MODEL)] |}).
Proof.
  exact (backoff_sleeps_through_cancellation
           (js "hi") (js "sk-or-1") DEFAULT_MODEL 3 30000%N 200%N
           (always (Responds 100 500 5 (js "oops"))) 1 1 None world0
           {| clock := 105;
              log := [Fetched 0 (request_of (js "hi") (js "sk-or-1") DEFAULT_MODEL)] |}
           (AIError (js "OpenRouter server error. Please try again.") SERVER_ERROR None)
           eq_refl eq_refl eq_refl ltac:(lia) ltac:(vm_compute; split; [reflexivity|discriminate])).
Defined.

(** C7, as the specification has it, fails: with the signal firing at
    instant 200, in the middle of the backoff that runs from 105 to 1105,
    the run settles at 1105, the end of the full delay, and not before. *)
Lemma backoff_is_not_cut_short :
  let run := analyzeMessage (VString (js "hi")) (VString (js "sk-or-1"))
               cancelled_at_200 (always (Responds 100 500 5 (js "oops"))) world0 in
  signal cancelled_at_200 = Some 200%N
  /\ timeline (log (snd run)) = [(0, None); (105, Some (delay 1)); (1105, None)]%N
  /\ fst run = Throw (AIError (js "Request cancelled") TIMEOUT (Some AbortError))
  /\ clock (snd run) = (105 + delay 1)%N
  /\ ~ (clock (snd run) < 105 + delay 1)%N.
Proof.
  vm_compute. repeat split; try reflexivity. discriminate.
Qed.

(** ** A signal that aborts late *)

Section Causality.

Variables A B : Type.

Lemma advances_ret (a : A) : advances (ret a).
Proof. intros w. simpl. lia. Qed.

Lemma advances_throw (e : exception) : advances (@throw A e).
Proof. intros w. simpl. lia. Qed.

Lemma advances_lift (c : completion A) : advances (lift c).
Proof. intros w. simpl. lia. Qed.

Lemma advances_await (c : async A) (k : A -> async B) :
  advances c -> (forall a, advances (k a)) -> advances (await c k).
Proof.
  intros Hc Hk w. unfold await. specialize (Hc w).
  destruct (c w) as [[a|e] w']; simpl in *; [|exact Hc].
  specialize (Hk a w'). lia.
Qed.

Lemma advances_try_catch (c : async A) (h : exception -> async A) :
  advances c -> (forall e, advances (h e)) -> advances (try_catch c h).
Proof.
  intros Hc Hh w. unfold try_catch. specialize (Hc w).
  destruct (c w) as [[a|e] w']; simpl in *; [exact Hc|].
  specialize (Hh e w'). lia.
Qed.

Lemma advances_if (b : bool) (c1 c2 : async A) :
  advances c1 -> advances c2 -> advances (if b then c1 else c2).
Proof. destruct b; auto. Qed.

Lemma blind_const (c : async A) : blind_to_late_signal (fun _ => c).
Proof. intros a w _. reflexivity. Qed.

Lemma blind_await (c : option N -> async A) (k : A -> option N -> async B) :
  blind_to_late_signal c ->
  (forall x, blind_to_late_signal (k x)) ->
  (forall x, advances (k x None)) ->
  blind_to_late_signal (fun sig => await (c sig) (fun x => k x sig)).
Proof.
  intros Hc Hk Hadv a w Hlate. unfold await in *.
  destruct (c None w) as [[x|e] w1] eqn:E.
  - assert (H1 : (clock w1 < a)%N) by (specialize (Hadv x w1); lia).
    rewrite (Hc a w) by (rewrite E; exact H1). rewrite E.
    apply Hk. exact Hlate.
  - rewrite (Hc a w) by (rewrite E; exact Hlate). rewrite E. reflexivity.
Qed.

Lemma blind_try_catch (c : option N -> async A) (h : exception -> option N -> async A) :
  blind_to_late_signal c ->
  (forall e, blind_to_late_signal (h e)) ->
  (forall e, advances (h e None)) ->
  blind_to_late_signal (fun sig => try_catch (c sig) (fun e => h e sig)).
Proof.
  intros Hc Hh Hadv a w Hlate. unfold try_catch in *.
  destruct (c None w) as [[x|e] w1] eqn:E.
  - rewrite (Hc a w) by (rewrite E; exact Hlate). rewrite E. reflexivity.
  - assert (H1 : (clock w1 < a)%N) by (specialize (Hadv e w1); lia).
    rewrite (Hc a w) by (rewrite E; exact H1). rewrite E.
    apply Hh. exact Hlate.
Qed.

End Causality.

Lemma advances_sleep (ms : N) : advances (sleep ms).
Proof. intros w. simpl. lia. Qed.

Lemma advances_read_body (r : Response) (sig : option N) : advances (read_body r sig).
Proof.
  intros w. unfold read_body.
  destruct (aborted_by sig (clock w + body_ms r)); simpl; [|lia].
  destruct sig; lia.
Qed.

Lemma advances_fetch (request : Request) (sig : option N) (timeout : N) (net : Network) :
  advances (fetch request sig timeout net).
Proof.
  intros w. unfold fetch.
  destruct (aborted_by sig (clock w)) eqn:Hq; [simpl; lia|].
  assert (Hf : (clock w <= match sig with
                           | Some a => N.min a (clock w + timeout)
                           | None => clock w + timeout
                           end)%N).
  { destruct sig as [a|]; [|lia]. simpl in Hq. apply N.leb_gt in Hq. lia. }
  destruct (N.leb _ _); [simpl; lia|].
  destruct net; simpl; lia.
Qed.

Lemma blind_read_body (r : Response) : blind_to_late_signal (read_body r).
Proof.
  intros a w Hlate. unfold read_body in *. simpl in *.
  assert (H : N.leb a (clock w + body_ms r) = false) by (apply N.leb_gt; exact Hlate).
  rewrite H. reflexivity.
Qed.

Lemma blind_fetch (request : Request) (timeout : N) (net : Network) :
  blind_to_late_signal (fun sig => fetch request sig timeout net).
Proof.
  intros a w Hlate. unfold fetch in *. cbn [aborted_by] in *.
  destruct (N.leb (clock w + timeout)
                  (match net with
                   | Unreachable after_ms _ => clock w + after_ms
                   | Responds head_ms _ _ _ => clock w + head_ms
                   end)) eqn:Ht.
  - simpl in Hlate.
    assert (H0 : N.leb a (clock w) = false) by (apply N.leb_gt; lia).
    assert (Hmin : N.min a (clock w + timeout) = (clock w + timeout)%N) by lia.
    rewrite H0, Hmin, Ht. reflexivity.
  - apply N.leb_gt in Ht.
    assert (Harr : (match net with
                    | Unreachable after_ms _ => clock w + after_ms
                    | Responds head_ms _ _ _ => clock w + head_ms
                    end < a)%N) by (destruct net; simpl in Hlate; exact Hlate).
    assert (H0 : N.leb a (clock w) = false) by (apply N.leb_gt; destruct net; lia).
    rewrite H0.
    assert (H1 : N.leb (N.min a (clock w + timeout))
                       (match net with
                        | Unreachable after_ms _ => clock w + after_ms
                        | Responds head_ms _ _ _ => clock w + head_ms
                        end) = false) by (apply N.leb_gt; lia).
    rewrite H1. reflexivity.
Qed.

(** Goals [advances c] for a computation built from the pieces above. *)
Ltac advances :=
  repeat first
    [ apply advances_ret | apply advances_throw | apply advances_lift
    | apply advances_sleep | apply advances_read_body | apply advances_fetch
    | apply advances_if
    | apply advances_await; [|intro] | apply advances_try_catch; [|intro] ].

Lemma advances_attempt_body (message apiKey mdl : jsstring) (timeout : N)
  (sig : option N) (net : Network) :
  advances (attempt_body message apiKey mdl timeout sig net).
Proof.
  unfold attempt_body, http_error, response_json. advances.
  - match goal with
    | |- advances (match ?v with _ => _ end) => destruct v; advances
    end.
  - match goal with
    | |- advances (match ?v with _ => _ end) =>
        destruct v as [[|c text]|]; try (intros w'; simpl; lia)
    end.
Qed.

Lemma advances_attempts (message apiKey mdl : jsstring) (max : nat) (timeout : N)
  (sig : option N) (net : nat -> Network) :
  forall (remaining attempt : nat) (lastError : option exception),
    advances (attempts message apiKey mdl max timeout sig net remaining attempt lastError).
Proof.
  induction remaining as [|remaining IH]; intros attempt lastError; simpl.
  - apply advances_throw.
  - apply advances_try_catch; [apply advances_attempt_body|].
    intros e. destruct (not_retried e); [apply advances_throw|].
    destruct (String.eqb (error_name e) "AbortError"); [apply advances_throw|].
    apply advances_await; [destruct (Nat.ltb attempt max); advances|].
    intros _. apply IH.
Qed.

Lemma blind_http_error (r : Response) : blind_to_late_signal (http_error r).
Proof.
  unfold http_error.
  apply (blind_await _ _ (fun sig => try_catch (read_body r sig) (fun _ => ret []))
                     (fun errorBody _ => throw (status_error (Ai.status r) errorBody))).
  - apply (blind_try_catch _ (read_body r) (fun _ _ => ret [])).
    + apply blind_read_body.
    + intros e. apply blind_const.
    + intros e. apply advances_ret.
  - intros x. apply blind_const.
  - intros x. apply advances_throw.
Qed.

Lemma blind_response_json (r : Response) : blind_to_late_signal (response_json r).
Proof.
  unfold response_json.
  apply (blind_await _ _ (read_body r)
                     (fun text _ => match Json.parse text with
                                    | Some v => ret v
                                    | None => throw SyntaxError
                                    end)).
  - apply blind_read_body.
  - intros x. apply blind_const.
  - intros x. destruct (Json.parse x); advances.
Qed.

Lemma blind_attempt_body (message apiKey mdl : jsstring) (timeout : N) (net : Network) :
  blind_to_late_signal (fun sig => attempt_body message apiKey mdl timeout sig net).
Proof.
  intros a w Hlate.
  pose proof (advances_attempt_body message apiKey mdl timeout None net) as Hadv.
  unfold attempt_body in *.
  match goal with
  | |- await (fetch ?req _ _ _) ?k1 w = _ =>
      match k1 with
      | (fun response => await (@?c response) ?k2) =>
          apply (blind_await _ _
                   (fun sig => fetch req sig timeout net)
                   (fun response sig =>
                      await (if negb (ok response) then http_error response sig
                             else response_json response sig) k2))
      end
  end.
  - apply blind_fetch.
  - intros response.
    match goal with
    | |- blind_to_late_signal (fun sig => await _ ?k2) =>
        apply (blind_await _ _
                 (fun sig => if negb (ok response) then http_error response sig
                             else response_json response sig)
                 (fun data _ => k2 data))
    end.
    + destruct (negb (ok response)); [apply blind_http_error|apply blind_response_json].
    + intros x. apply blind_const.
    + intros x. advances.
      match goal with
      | |- advances (match ?v with _ => _ end) =>
          destruct v as [[|c text]|]; try (intros w'; simpl; lia)
      end.
  - intros response. unfold http_error, response_json. advances.
    + match goal with
      | |- advances (match ?v with _ => _ end) => destruct v; advances
      end.
    + match goal with
      | |- advances (match ?v with _ => _ end) =>
          destruct v as [[|c text]|]; try (intros w'; simpl; lia)
      end.
  - exact Hlate.
Qed.

Lemma blind_attempts (message apiKey mdl : jsstring) (max : nat) (timeout : N)
  (net : nat -> Network) :
  forall (remaining attempt : nat) (lastError : option exception),
    blind_to_late_signal
      (fun sig => attempts message apiKey mdl max timeout sig net
                           remaining attempt lastError).
Proof.
  induction remaining as [|remaining IH]; intros attempt lastError.
  - apply blind_const.
  - cbn [attempts].
    apply (blind_try_catch _
             (fun sig => attempt_body message apiKey mdl timeout sig (net attempt))
             (fun error sig =>
                if not_retried error then throw error
                else if String.eqb (error_name error) "AbortError" then
                  throw (AIError (js "Request cancelled") TIMEOUT (Some error))
                else
                  _ <~ (if Nat.ltb attempt max then sleep (delay attempt) else ret tt) ;;
                  attempts message apiKey mdl max timeout sig net remaining (S attempt)
                    (Some (if is_fetch_failure error
                           then AIError (js "Network error. Check your internet connection.")
                                        NETWORK_ERROR (Some error)
                           else error)))).
    + apply blind_attempt_body.
    + intros e. destruct (not_retried e); [apply blind_const|].
      destruct (String.eqb (error_name e) "AbortError"); [apply blind_const|].
      apply (blind_await _ _
               (fun _ => if Nat.ltb attempt max then sleep (delay attempt) else ret tt)
               (fun _ sig => attempts message apiKey mdl max timeout sig net remaining
                               (S attempt)
                               (Some (if is_fetch_failure e
                                      then AIError (js "Network error. Check your internet connection.")
                                                   NETWORK_ERROR (Some e)
                                      else e)))).
      * apply blind_const.
      * intros _. apply IH.
      * intros _. apply advances_attempts.
    + intros e. destruct (not_retried e); [apply advances_throw|].
      destruct (String.eqb (error_name e) "AbortError"); [apply advances_throw|].
      apply advances_await; [destruct (Nat.ltb attempt max); advances|].
      intros _. apply advances_attempts.
Qed.

(** A signal that aborts only after the run without it has settled leaves
    the run as it is: [signal = None] stands for every signal that stays
    quiet for as long as the run lasts. *)
Lemma late_signal_changes_nothing (message apiKey : value) (options : Options)
  (net : nat -> Network) (w : World) (a : N) :
  (clock (snd (analyzeMessage message apiKey (with_signal options None) net w)) < a)%N ->
  analyzeMessage message apiKey (with_signal options (Some a)) net w
  = analyzeMessage message apiKey (with_signal options None) net w.
Proof.
  unfold analyzeMessage. cbn [with_signal model maxRetries timeoutMs signal].
  destruct (blank message); [reflexivity|].
  destruct (blank apiKey); [reflexivity|].
  destruct message; try reflexivity. destruct apiKey; try reflexivity.
  apply (blind_attempts s s0 (default (model options) DEFAULT_MODEL)
           (default (maxRetries options) 3) (default (timeoutMs options) 30000%N)
           net (default (maxRetries options) 3) 1 None a w).
Qed.

(** ** parseAIResponse *)

Lemma try_parse_string (s : jsstring) : try_parse (VString s) = Json.parse s.
Proof.
  unfold try_parse, JSON_parse. simpl. destruct (Json.parse s); reflexivity.
Qed.

(** On a string the extractor is its three steps, in order. *)
Lemma parseAIResponse_string (s : jsstring) :
  parseAIResponse (VString s)
  = match Json.parse s with
    | Some v => Normal v
    | None =>
        match fenced_parse s with
        | Some v => Normal v
        | None =>
            match brace_parse s with
            | Some v => Normal v
            | None => Throw (AIError (js "Could not parse AI response as JSON")
                                     INVALID_RESPONSE None)
            end
        end
    end.
Proof.
  unfold parseAIResponse, fenced_parse, brace_parse. rewrite try_parse_string.
  destruct (Json.parse s); [reflexivity|].
  cbn [match_method bind].
  destruct (fenced_block s) as [body|].
  - rewrite try_parse_string. destruct (Json.parse (trim body)); [reflexivity|].
    destruct (brace_span s) as [span|]; [|reflexivity].
    rewrite try_parse_string. destruct (Json.parse span); reflexivity.
  - destruct (brace_span s) as [span|]; [|reflexivity].
    rewrite try_parse_string. destruct (Json.parse span); reflexivity.
Qed.

Lemma trim_start_idempotent (s : jsstring) : trim_start (trim_start s) = trim_start s.
Proof.
  induction s as [|c s IH]; [reflexivity|].
  simpl. destruct (is_space c) eqn:Hc; [exact IH|].
  simpl. rewrite Hc. reflexivity.
Qed.

Lemma trim_trim_start (s : jsstring) : trim (trim_start s) = trim s.
Proof. unfold trim. rewrite trim_start_idempotent. reflexivity. Qed.

Lemma absent_trim_start (c : N) (s : jsstring) :
  absent c s = true -> absent c (trim_start s) = true.
Proof.
  induction s as [|x s IH]; [reflexivity|].
  intros H. simpl. destruct (is_space x); [|exact H].
  simpl in H. apply andb_true_iff in H as [_ H]. auto.
Qed.

(** The first fence of a text that opens with fence-free prose. *)
Lemma split_at_fence (pre rest : jsstring) :
  absent 96 pre = true ->
  split_at fence (pre ++ fence ++ rest) = Some (pre, rest).
Proof.
  induction pre as [|c pre IH]; intros H.
  - reflexivity.
  - simpl in H. apply andb_true_iff in H as [Hc H].
    cbn [app split_at]. unfold fence at 1. cbn [js list_ascii_of_string map strip_prefix].
    change (cu "`") with 96%N. rewrite N.eqb_sym.
    destruct (N.eqb c 96); [discriminate|].
    rewrite (IH H). reflexivity.
Qed.

Lemma strip_prefix_stops_at_fence (p inner rest : jsstring) :
  absent 96 p = true ->
  strip_prefix p inner = None ->
  strip_prefix p (inner ++ 96%N :: rest) = None.
Proof.
  revert inner. induction p as [|y p IH]; intros inner Hp Hnone.
  - destruct inner; discriminate.
  - simpl in Hp. apply andb_true_iff in Hp as [Hy Hp].
    destruct inner as [|x inner]; simpl in *.
    + destruct (N.eqb y 96); [discriminate|reflexivity].
    + destruct (N.eqb y x); [apply IH; assumption|reflexivity].
Qed.

(** The first fenced block of a text made of fence-free prose, a fence, an
    optional tag, a fence-free interior and the closing fence. *)
Lemma fenced_block_found (pre tag inner post : jsstring) :
  absent 96 pre = true -> absent 96 inner = true ->
  (tag = js "json" \/ (tag = [] /\ strip_prefix (js "json") inner = None)) ->
  fenced_block (pre ++ fence ++ tag ++ inner ++ fence ++ post)
  = Some (trim_start inner).
Proof.
  intros Hpre Hinner Htag. unfold fenced_block.
  rewrite (split_at_fence pre _ Hpre).
  assert (Huntag : match strip_prefix (js "json") (tag ++ inner ++ fence ++ post) with
                   | Some r => r
                   | None => tag ++ inner ++ fence ++ post
                   end = inner ++ fence ++ post).
  { destruct Htag as [->|[-> Hnone]]; [reflexivity|].
    cbn [app].
    change (fence ++ post) with (96%N :: js "``" ++ post).
    rewrite strip_prefix_stops_at_fence; [reflexivity|reflexivity|exact Hnone]. }
  rewrite Huntag.
  assert (Hts : trim_start (inner ++ fence ++ post) = trim_start inner ++ fence ++ post).
  { clear. induction inner as [|x inner IH]; [reflexivity|].
    simpl. destruct (is_space x); [exact IH|reflexivity]. }
  rewrite Hts.
  rewrite (split_at_fence (trim_start inner) post (absent_trim_start 96 inner Hinner)).
  reflexivity.
Qed.

Lemma after_first_found (c : N) (pre rest : jsstring) :
  absent c pre = true -> after_first c (pre ++ c :: rest) = Some rest.
Proof.
  induction pre as [|x pre IH]; intros H; simpl.
  - rewrite N.eqb_refl. reflexivity.
  - simpl in H. apply andb_true_iff in H as [Hx H].
    destruct (N.eqb x c); [discriminate|]. apply IH, H.
Qed.

Lemma before_last_none (c : N) (post : jsstring) :
  absent c post = true -> before_last c post = None.
Proof.
  induction post as [|x post IH]; intros H; simpl; [reflexivity|].
  simpl in H. apply andb_true_iff in H as [Hx H].
  rewrite (IH H). destruct (N.eqb x c); [discriminate|reflexivity].
Qed.

Lemma before_last_found (c : N) (inner post : jsstring) :
  absent c post = true -> before_last c (inner ++ c :: post) = Some inner.
Proof.
  intros H. induction inner as [|x inner IH]; simpl.
  - rewrite (before_last_none c post H), N.eqb_refl. reflexivity.
  - rewrite IH. reflexivity.
Qed.

(** The brace span of a text whose prose has no opening brace before the
    object and no closing brace after it is the object. *)
Lemma brace_span_found (pre inner post : jsstring) :
  absent (cu "{") pre = true -> absent (cu "}") post = true ->
  brace_span (pre ++ cu "{" :: inner ++ cu "}" :: post)
  = Some (cu "{" :: inner ++ [cu "}"]).
Proof.
  intros Hpre Hpost. unfold brace_span.
  rewrite (after_first_found _ pre _ Hpre).
  rewrite (before_last_found _ inner post Hpost). reflexivity.
Qed.

(** C5, as the code has it.  On a string the extractor tries the whole
    text, then the first fenced block (optionally tagged json) trimmed,
    then the span from the first opening brace to the last closing brace,
    and returns the first that parses; it throws INVALID_RESPONSE exactly
    when none does, and nothing else.  So a raw value is returned as
    parsed; a value in a fenced block is recovered when the text is not
    JSON itself and has no backtick before the block or inside it; and an
    object embedded in prose is recovered when the text is not JSON itself,
    no fenced block parses, and the prose has no opening brace before the
    object and no closing brace after it. *)
Theorem extractor_first_success_wins :
  (forall s,
      parseAIResponse (VString s)
      = match Json.parse s with
        | Some v => Normal v
        | None =>
            match fenced_parse s with
            | Some v => Normal v
            | None =>
                match brace_parse s with
                | Some v => Normal v
                | None => Throw (AIError (js "Could not parse AI response as JSON")
                                         INVALID_RESPONSE None)
                end
            end
        end)
  /\ (forall s v, Json.parse s = Some v -> parseAIResponse (VString s) = Normal v)
  /\ (forall pre tag inner post v,
        absent 96 pre = true -> absent 96 inner = true ->
        (tag = js "json" \/ (tag = [] /\ strip_prefix (js "json") inner = None)) ->
        Json.parse (pre ++ fence ++ tag ++ inner ++ fence ++ post) = None ->
        Json.parse (trim inner) = Some v ->
        parseAIResponse (VString (pre ++ fence ++ tag ++ inner ++ fence ++ post))
        = Normal v)
  /\ (forall pre inner post v,
        absent (cu "{") pre = true -> absent (cu "}") post = true ->
        Json.parse (pre ++ cu "{" :: inner ++ cu "}" :: post) = None ->
        fenced_parse (pre ++ cu "{" :: inner ++ cu "}" :: post) = None ->
        Json.parse (cu "{" :: inner ++ [cu "}"]) = Some v ->
        parseAIResponse (VString (pre ++ cu "{" :: inner ++ cu "}" :: post))
        = Normal v)
  /\ (forall s e,
        parseAIResponse (VString s) = Throw e ->
        e = AIError (js "Could not parse AI response as JSON") INVALID_RESPONSE None
        /\ Json.parse s = None /\ fenced_parse s = None /\ brace_parse s = None).
Proof.
  split; [exact parseAIResponse_string|].
  split; [|split; [|split]].
  - intros s v H. rewrite parseAIResponse_string, H. reflexivity.
  - intros pre tag inner post v Hpre Hinner Htag Hraw Hparse.
    rewrite parseAIResponse_string, Hraw. unfold fenced_parse.
    rewrite (fenced_block_found pre tag inner post Hpre Hinner Htag).
    rewrite trim_trim_start, Hparse. reflexivity.
  - intros pre inner post v Hpre Hpost Hraw Hfence Hparse.
    rewrite parseAIResponse_string, Hraw, Hfence. unfold brace_parse.
    rewrite (brace_span_found pre inner post Hpre Hpost), Hparse. reflexivity.
  - intros s e. rewrite parseAIResponse_string.
    destruct (Json.parse s); [discriminate|].
    destruct (fenced_parse s); [discriminate|].
    destruct (brace_parse s); [discriminate|].
    intros H. inversion H. repeat split.
Qed.

Lemma extractor_first_success_wins_witness :
  parseAIResponse (VString verdict_text) = Normal verdict_value
  /\ parseAIResponse (VString in_fence) = Normal verdict_value
  /\ parseAIResponse (VString in_prose) = Normal verdict_value.
Proof.
  destruct extractor_first_success_wins as (_ & Hraw & Hfence & Hbrace & _).
  split; [|split].
  - apply Hraw. reflexivity.
  - apply (Hfence (js "Sure." ++ [10%N]) (js "json")
                  ([10%N] ++ verdict_text ++ [10%N]) (js " Done.") verdict_value);
      try reflexivity.
    left. reflexivity.
  - apply (Hbrace (js "Here is the analysis: ") (jq "'verdict':'good_to_send'")
                  (js " Hope this helps!") verdict_value);
      reflexivity.
Defined.

(** C5, as the specification has it, fails: an object embedded in prose
    that itself holds a brace is not recovered.  The widest span starts at
    the brace of the prose and does not parse. *)
Lemma embedded_object_not_recovered :
  Json.parse verdict_text = Some verdict_value
  /\ in_prose_with_braces = js "Note {draft}: " ++ verdict_text
  /\ brace_span in_prose_with_braces = Some (js "{draft}: " ++ verdict_text)
  /\ parseAIResponse (VString in_prose_with_braces)
     = Throw (AIError (js "Could not parse AI response as JSON") INVALID_RESPONSE None).
Proof.
  repeat split; vm_compute; reflexivity.
Qed.

(** ** Superseding a request *)

Lemma abort_at_end (now : N) (l : list (option N)) :
  abort now (List.length l) (l ++ [None]) = l ++ [Some now].
Proof.
  induction l as [|x l IH]; [reflexivity|].
  simpl. rewrite IH. destruct x; reflexivity.
Qed.

Lemma submit_begin_starts (now : N) (m : jsstring) (s : Session) :
  isMountedRef s = true -> hasApiKey s = true -> trim m <> [] ->
  let aborted := match abortControllerRef s with
                 | Some c => abort now c (controllers s)
                 | None => controllers s
                 end in
  submit_begin now m s
  = ({| apiKey := apiKey s; selectedModel := selectedModel s; history := history s;
        currentMessage := trim m; status := SCANNING; result := None; error := None;
        controllers := aborted ++ [None];
        abortControllerRef := Some (List.length aborted);
        isMountedRef := true |},
     Some {| message_sent := trim m; key_sent := apiKey s;
             model_sent := selectedModel s; history_seen := history s;
             controller := List.length aborted |}).
Proof.
  intros Hm Hk Ht aborted. unfold submit_begin.
  assert (Hblank : match m with
                   | [] => true
                   | _ :: _ => Nat.eqb (List.length (trim m)) 0
                   end = false).
  { destruct m as [|c m]; [exfalso; apply Ht; reflexivity|].
    destruct (trim (c :: m)); [contradiction|reflexivity]. }
  rewrite Hblank, Hk, Hm. reflexivity.
Qed.

(** The status a continuation leaves on a mounted session is fixed by the
    outcome it is given: no request identity enters. *)
Lemma submit_settle_status (now : N) (uuid : jsstring) (p : Pending)
  (out : completion AnalysisResult) (s : Session) :
  isMountedRef s = true ->
  status (submit_settle now uuid p out s)
  = match out with
    | Normal _ => COMPLETE
    | Throw (AIError _ _ _) => ERROR
    | Throw AbortError => IDLE
    | Throw _ => ERROR
    end.
Proof.
  intros Hm. unfold submit_settle.
  destruct out as [r|[msg t o| |msg|]]; simpl; rewrite Hm; reflexivity.
Qed.

(* ================================================================== *)
(** * More properties of analyzeMessage *)
(* ================================================================== *)

Import KeyCheck ChatOps.

Lemma await_normal {A B : Type} (c : async A) (k : A -> async B) (w w' : World) (b : B) :
  await c k w = (Normal b, w') ->
  exists a w1, c w = (Normal a, w1) /\ k a w1 = (Normal b, w').
Proof.
  unfold await. destruct (c w) as [[a|e] w1]; [|discriminate].
  intros H. exists a, w1. split; [reflexivity|exact H].
Qed.

Lemma lift_normal {A : Type} (c : completion A) (w w' : World) (a : A) :
  lift c w = (Normal a, w') -> c = Normal a /\ w' = w.
Proof. unfold lift. intros H. inversion H. split; reflexivity. Qed.

(** What an attempt returns has passed the validator, and carries the
    model, the instant and the length of the message. *)
Lemma attempt_body_returns (message apiKey mdl : jsstring) (timeout : N)
  (sig : option N) (net : Network) (w w' : World) (r : AnalysisResult) :
  attempt_body message apiKey mdl timeout sig net w = (Normal r, w') ->
  conforming (parsed r) = true
  /\ meta r = {| meta_model := mdl; Ai.timestamp := clock w';
                 originalLength := List.length message |}.
Proof.
  unfold attempt_body. intros H.
  apply await_normal in H as (response & w1 & _ & H).
  apply await_normal in H as (data & w2 & _ & H).
  apply await_normal in H as (choices & w3 & _ & H).
  apply await_normal in H as (first & w4 & _ & H).
  apply await_normal in H as (msg & w5 & _ & H).
  destruct (negb (Js.truthy msg)); [discriminate|].
  apply await_normal in H as (content & w6 & _ & H).
  apply await_normal in H as (candidate & w7 & _ & H).
  apply await_normal in H as (validationError & w8 & Hv & H).
  apply lift_normal in Hv as [Hv _].
  pose proof (validate_spec candidate) as Hspec. rewrite Hv in Hspec.
  destruct validationError as [[|c text]|].
  - destruct Hspec as [Hne _]. contradiction Hne. reflexivity.
  - discriminate.
  - inversion H. subst. split; [exact Hspec|reflexivity].
Qed.

(** What the loop returns is what one of its attempts returned. *)
Lemma attempts_returns (message apiKey mdl : jsstring) (max : nat) (timeout : N)
  (sig : option N) (net : nat -> Network) :
  forall (remaining attempt : nat) (lastError : option exception) (w w' : World)
         (r : AnalysisResult),
    attempts message apiKey mdl max timeout sig net remaining attempt lastError w
    = (Normal r, w') ->
    exists n w0, attempt_body message apiKey mdl timeout sig (net n) w0 = (Normal r, w').
Proof.
  induction remaining as [|remaining IH]; intros attempt lastError w w' r H.
  - discriminate.
  - rewrite attempts_step in H.
    destruct (attempt_body message apiKey mdl timeout sig (net attempt) w)
      as [[a|e] w1] eqn:Hbody.
    + inversion H. subst. exists attempt, w. exact Hbody.
    + destruct (not_retried e); [discriminate|].
      destruct (String.eqb (error_name e) "AbortError"); [discriminate|].
      apply await_normal in H as (u & w2 & _ & H).
      apply IH in H. exact H.
Qed.

(** X1. A result is returned only if it validates.  Whatever [analyzeMessage]
    returns is a conforming analysis, and its metadata are the model asked
    for, the instant of the return and the length of the message as given,
    before the cut to 10000. *)
Theorem returned_analysis_conforms :
  forall (message apiKey : value) (options : Options) (net : nat -> Network)
         (w w' : World) (r : AnalysisResult),
    analyzeMessage message apiKey options net w = (Normal r, w') ->
    conforming (parsed r) = true
    /\ validateAnalysisResponse (parsed r) = Normal None
    /\ exists m,
        message = VString m
        /\ meta r = {| meta_model := default (model options) DEFAULT_MODEL;
                       Ai.timestamp := clock w';
                       originalLength := List.length m |}.
Proof.
  intros message apiKey options net w w' r H.
  destruct (blank message) eqn:Hm.
  { unfold analyzeMessage in H. rewrite Hm in H. discriminate. }
  destruct (blank apiKey) eqn:Hk.
  { unfold analyzeMessage in H. rewrite Hm, Hk in H. discriminate. }
  destruct (analyzeMessage_runs_loop message apiKey options net w Hm Hk)
    as (m & k & Em & _ & Erun).
  rewrite Erun in H. apply attempts_returns in H as (n & w0 & H).
  apply attempt_body_returns in H as [Hconf Hmeta].
  split; [exact Hconf|]. split.
  - pose proof (validate_spec (parsed r)) as Hspec.
    destruct (validateAnalysisResponse (parsed r)) as [[text|]|e].
    + destruct Hspec as [_ Hf]. rewrite Hconf in Hf. discriminate.
    + reflexivity.
    + destruct Hspec as [Hf _]. rewrite Hconf in Hf. discriminate.
  - exists m. split; assumption.
Qed.

Lemma returned_analysis_conforms_witness :
  conforming (default (Json.parse analysis_text) VNull) = true.
Proof.
  exact (proj1 (returned_analysis_conforms
                  (VString (js "hi")) (VString (js "sk-or-1")) plain limited_twice world0
                  (snd (analyzeMessage (VString (js "hi")) (VString (js "sk-or-1")) plain
                                       limited_twice world0))
                  {| parsed := default (Json.parse analysis_text) VNull;
                     meta := {| meta_model := DEFAULT_MODEL; Ai.timestamp := 3315;
                                originalLength := 2 |} |}
                  ltac:(vm_compute; reflexivity))).
Defined.

Lemma attempts_fetches_bound (message apiKey mdl : jsstring) (max : nat) (timeout : N)
  (sig : option N) (net : nat -> Network) :
  forall (remaining attempt : nat) (lastError : option exception) (w : World),
    fetches (log (snd (attempts message apiKey mdl max timeout sig net
                                remaining attempt lastError w)))
    <= fetches (log w) + remaining.
Proof.
  induction remaining as [|remaining IH]; intros attempt lastError w.
  - simpl. lia.
  - rewrite attempts_step.
    pose proof (attempt_body_log message apiKey mdl timeout sig (net attempt) w) as Hlog.
    destruct (attempt_body message apiKey mdl timeout sig (net attempt) w)
      as [[a|e] w1]; simpl in Hlog.
    + simpl. rewrite Hlog, fetches_app. simpl. lia.
    + assert (H1 : fetches (log w1) = fetches (log w) + 1)
        by (rewrite Hlog, fetches_app; reflexivity).
      destruct (not_retried e); [simpl; lia|].
      destruct (String.eqb (error_name e) "AbortError"); [simpl; lia|].
      unfold await at 1.
      destruct (Nat.ltb attempt max).
      * unfold sleep.
        match goal with
        | |- context [attempts _ _ _ _ _ _ _ _ _ ?le ?w2] =>
            pose proof (IH (S attempt) le w2) as Hb
        end.
        simpl in Hb. rewrite fetches_app in Hb. simpl in Hb. lia.
      * unfold ret.
        match goal with
        | |- context [attempts _ _ _ _ _ _ _ _ _ ?le ?w2] =>
            pose proof (IH (S attempt) le w2) as Hb
        end.
        lia.
Qed.

Lemma delay_at_most_cap (n : nat) : (delay n <= 10000)%N.
Proof. unfold delay. apply N.le_min_r. Qed.

(** X2. The loop is bounded.  A run makes at most [maxRetries] calls of
    [fetch] and sleeps at most [maxRetries - 1] times, never more than ten
    seconds at a time; with [maxRetries = 0] it makes no call at all and
    fails with the UNKNOWN error [Request failed after retries]. *)
Theorem analyzeMessage_calls_bounded :
  forall (message apiKey : value) (options : Options) (net : nat -> Network)
         (w : World),
    let max := default (maxRetries options) 3 in
    let w' := snd (analyzeMessage message apiKey options net w) in
    fetches (log w') <= fetches (log w) + max
    /\ (exists slept,
          sleeps (log w') = sleeps (log w) ++ slept
          /\ List.length slept <= max - 1
          /\ Forall (fun ms => (ms <= 10000)%N) slept)
    /\ (max = 0 -> blank message = false -> blank apiKey = false ->
        analyzeMessage message apiKey options net w
        = (Throw (AIError (js "Request failed after retries") UNKNOWN None), w)).
Proof.
  intros message apiKey options net w max w'. subst w'.
  destruct (blank message) eqn:Hm.
  { unfold analyzeMessage. rewrite Hm. simpl. split; [lia|]. split.
    - exists []. rewrite app_nil_r. repeat split; [simpl; lia|constructor].
    - intros _ H. discriminate. }
  destruct (blank apiKey) eqn:Hk.
  { unfold analyzeMessage. rewrite Hm, Hk. simpl. split; [lia|]. split.
    - exists []. rewrite app_nil_r. repeat split; [simpl; lia|constructor].
    - intros _ _ H. discriminate. }
  destruct (analyzeMessage_runs_loop message apiKey options net w Hm Hk)
    as (m & k & _ & _ & Erun).
  rewrite Erun. fold max. split; [apply attempts_fetches_bound|]. split.
  - destruct (attempts_sleeps m k (default (model options) DEFAULT_MODEL) max
                (default (timeoutMs options) 30000%N) (signal options) net
                max 1 None w) as (j & Hj & Hs).
    exists (map delay (seq 1 j)). split; [exact Hs|]. split.
    + rewrite length_map, length_seq. exact Hj.
    + apply Forall_forall. intros ms Hin. apply in_map_iff in Hin as (n & <- & _).
      apply delay_at_most_cap.
  - intros H0 _ _. rewrite H0. reflexivity.
Qed.

Lemma analyzeMessage_calls_bounded_witness :
  analyzeMessage (VString (js "hi")) (VString (js "sk-or-1"))
                 {| model := None; maxRetries := Some 0; timeoutMs := None;
                    signal := None |}
                 limited_twice world0
  = (Throw (AIError (js "Request failed after retries") UNKNOWN None), world0).
Proof.
  apply (proj2 (proj2 (analyzeMessage_calls_bounded
                         (VString (js "hi")) (VString (js "sk-or-1"))
                         {| model := None; maxRetries := Some 0; timeoutMs := None;
                            signal := None |}
                         limited_twice world0)));
    reflexivity.
Defined.

(** A call of [fetch] that the signal or the timer aborts before the
    network settles is rejected with [AbortError], no later than the network
    would have settled or the timer fires. *)
Lemma fetch_aborted (request : Request) (sig : option N) (timeout : N)
  (net : Network) (w : World) :
  aborted_by sig (clock w + latency net) = true \/ (timeout <= latency net)%N ->
  exists w1,
    fetch request sig timeout net w = (Throw AbortError, w1)
    /\ log w1 = log w ++ [Fetched (clock w) request]
    /\ (clock w <= clock w1)%N
    /\ (clock w1 <= clock w + latency net)%N
    /\ (clock w1 <= clock w + timeout)%N.
Proof.
  intros H. unfold fetch.
  destruct (aborted_by sig (clock w)) eqn:H0.
  - eexists. split; [reflexivity|]. simpl. repeat split; lia.
  - assert (Hfires : N.leb (match sig with
                            | Some a => N.min a (clock w + timeout)
                            | None => (clock w + timeout)%N
                            end)
                           (match net with
                            | Unreachable after_ms _ => (clock w + after_ms)%N
                            | Responds head_ms _ _ _ => (clock w + head_ms)%N
                            end) = true).
    { apply N.leb_le.
      assert (Hl : (match net with
                    | Unreachable after_ms _ => (clock w + after_ms)%N
                    | Responds head_ms _ _ _ => (clock w + head_ms)%N
                    end = clock w + latency net)%N) by (destruct net; reflexivity).
      rewrite Hl. destruct H as [H|H].
      - destruct sig as [a|]; [|discriminate]. simpl in H. apply N.leb_le in H. lia.
      - destruct sig as [a|]; lia. }
    rewrite Hfires. eexists. split; [reflexivity|].
    cbn [at_clock logged log clock].
    assert (Hnow : (clock w <= match sig with
                               | Some a => N.min a (clock w + timeout)
                               | None => clock w + timeout
                               end)%N).
    { destruct sig as [a|]; [|lia]. simpl in H0. apply N.leb_gt in H0. lia. }
    apply N.leb_le in Hfires.
    assert (Hl : (match net with
                  | Unreachable after_ms _ => (clock w + after_ms)%N
                  | Responds head_ms _ _ _ => (clock w + head_ms)%N
                  end = clock w + latency net)%N) by (destruct net; reflexivity).
    rewrite Hl in Hfires.
    repeat split; try assumption.
    destruct sig as [a|]; lia.
Qed.

(** The first call of a run, aborted: the run ends there. *)
Lemma first_call_aborted :
  forall (message apiKey : value) (options : Options) (net : nat -> Network)
         (w : World) (n : nat),
    blank message = false -> blank apiKey = false ->
    default (maxRetries options) 3 = S n ->
    aborted_by (signal options) (clock w + latency (net 1%nat)) = true
    \/ (default (timeoutMs options) 30000 <= latency (net 1%nat))%N ->
    exists w',
      analyzeMessage message apiKey options net w
      = (Throw (AIError (js "Request cancelled") TIMEOUT (Some AbortError)), w')
      /\ fetches (log w') = S (fetches (log w))
      /\ sleeps (log w') = sleeps (log w)
      /\ (clock w <= clock w')%N
      /\ (clock w' <= clock w + latency (net 1%nat))%N
      /\ (clock w' <= clock w + default (timeoutMs options) 30000)%N.
Proof.
  intros message apiKey options net w n Hm Hk Hmax Hab.
  destruct (analyzeMessage_runs_loop message apiKey options net w Hm Hk)
    as (m & k & _ & _ & ->).
  rewrite Hmax, attempts_step. unfold attempt_body, await at 1.
  destruct (fetch_aborted (request_of m k (default (model options) DEFAULT_MODEL))
              (signal options) (default (timeoutMs options) 30000%N) (net 1) w Hab)
    as (w1 & Hf & Hlog & H1 & H2 & H3).
  fold (request_of m k (default (model options) DEFAULT_MODEL)).
  rewrite Hf. cbn [not_retried error_name String.eqb Ascii.eqb Bool.eqb andb].
  exists w1. split; [reflexivity|].
  rewrite Hlog, fetches_app, sleeps_app. simpl.
  repeat split; try assumption; [lia|apply app_nil_r].
Qed.



(** The loop throws no [AbortError] of its own accord: it wraps the ones it
    catches. *)
Lemma attempts_never_AbortError (message apiKey mdl : jsstring) (max : nat)
  (timeout : N) (sig : option N) (net : nat -> Network) :
  forall (remaining attempt : nat) (lastError : option exception) (w w' : World)
         (e : exception),
    (forall e0, lastError = Some e0 -> String.eqb (error_name e0) "AbortError" = false) ->
    attempts message apiKey mdl max timeout sig net remaining attempt lastError w
    = (Throw e, w') ->
    String.eqb (error_name e) "AbortError" = false.
Proof.
  induction remaining as [|remaining IH]; intros attempt lastError w w' e Hlast H.
  - simpl in H. unfold throw in H. inversion H.
    destruct lastError as [e0|]; simpl; [apply Hlast; reflexivity|reflexivity].
  - rewrite attempts_step in H.
    destruct (attempt_body message apiKey mdl timeout sig (net attempt) w)
      as [[a|e0] w1]; [discriminate|].
    destruct (not_retried e0) eqn:Hnr.
    { inversion H. subst. destruct e; try discriminate. reflexivity. }
    destruct (String.eqb (error_name e0) "AbortError") eqn:Hab.
    { inversion H. reflexivity. }
    unfold await in H.
    destruct ((if Nat.ltb attempt max then sleep (delay attempt) else ret tt) w1)
      as [[u|e1] w2] eqn:Hs.
    + apply IH in H; [exact H|].
      intros e2 He2. inversion He2.
      destruct (is_fetch_failure e0); [reflexivity|exact Hab].
    + destruct (Nat.ltb attempt max); discriminate.
Qed.

(** The record the continuation of [submitMessage] stores for an exception
    that is an [AIError]. *)
Lemma submit_settle_AIError (now : N) (uuid : jsstring) (p : Pending)
  (msg : jsstring) (t : AIErrorType) (o : option exception) (s : Session) :
  isMountedRef s = true ->
  status (submit_settle now uuid p (Throw (AIError msg t o)) s) = ERROR
  /\ error (submit_settle now uuid p (Throw (AIError msg t o)) s)
     = Some (errorInfo_of msg t).
Proof. intros Hm. unfold submit_settle. rewrite Hm. split; reflexivity. Qed.

(** X4. Cancellation is never silent.  [analyzeMessage] never throws an
    exception named [AbortError]: the branch of [submitMessage] that returns
    to idle without an error is never taken, and the continuation of any
    request leaves a mounted session complete or in error. *)
Theorem analyzeMessage_never_throws_AbortError :
  forall (message apiKey : value) (options : Options) (net : nat -> Network)
         (w : World) (now : N) (uuid : jsstring) (p : Pending) (s : Session),
    isMountedRef s = true ->
    let outcome := fst (analyzeMessage message apiKey options net w) in
    (forall e, outcome = Throw e -> String.eqb (error_name e) "AbortError" = false)
    /\ status (submit_settle now uuid p outcome s)
       = match outcome with Normal _ => COMPLETE | Throw _ => ERROR end.
Proof.
  intros message apiKey options net w now uuid p s Hm outcome.
  assert (Hnever : forall e, outcome = Throw e ->
                             String.eqb (error_name e) "AbortError" = false).
  { subst outcome. intros e He. unfold analyzeMessage in He.
    destruct (blank message); [inversion He; reflexivity|].
    destruct (blank apiKey); [inversion He; reflexivity|].
    destruct message; try (inversion He; reflexivity).
    destruct apiKey; try (inversion He; reflexivity).
    match type of He with
    | fst (?run) = _ => destruct run as [out w'] eqn:Hrun
    end.
    simpl in He. subst out.
    apply attempts_never_AbortError in Hrun; [exact Hrun|].
    intros e0 H0. discriminate. }
  split; [exact Hnever|].
  rewrite submit_settle_status by exact Hm.
  destruct outcome as [r|e]; [reflexivity|].
  specialize (Hnever e eq_refl). destruct e; try reflexivity. discriminate.
Qed.

Lemma analyzeMessage_never_throws_AbortError_witness :
  status (submit_settle 200 (js "u") (a_pending None)
            (fst (analyzeMessage (VString (js "first")) (VString (js "sk-or-1"))
                                 cancelled_at_200 slow_success world0))
            a_session)
  = ERROR.
Proof.
  exact (proj2 (analyzeMessage_never_throws_AbortError
                  (VString (js "first")) (VString (js "sk-or-1")) cancelled_at_200
                  slow_success world0 200 (js "u") (a_pending None) a_session eq_refl)).
Defined.

(** ** A superseded request *)









(** What the loop adds to the log: calls of [fetch] that all carry the one
    request, and sleeps. *)
Lemma attempts_requests (message apiKey mdl : jsstring) (max : nat) (timeout : N)
  (sig : option N) (net : nat -> Network) :
  forall (remaining attempt : nat) (lastError : option exception) (w : World),
  exists new,
    log (snd (attempts message apiKey mdl max timeout sig net
                       remaining attempt lastError w)) = log w ++ new
    /\ Forall (fun ev => match ev with
                         | Fetched _ r => r = request_of message apiKey mdl
                         | Slept _ _ => True
                         end) new.
Proof.
  induction remaining as [|remaining IH]; intros attempt lastError w.
  - exists []. simpl. rewrite app_nil_r. split; [reflexivity|constructor].
  - rewrite attempts_step.
    pose proof (attempt_body_log message apiKey mdl timeout sig (net attempt) w) as Hlog.
    destruct (attempt_body message apiKey mdl timeout sig (net attempt) w)
      as [[a|e] w1]; simpl in Hlog.
    + eexists. split; [exact Hlog|]. repeat constructor.
    + destruct (not_retried e);
        [eexists; split; [exact Hlog|repeat constructor]|].
      destruct (String.eqb (error_name e) "AbortError");
        [eexists; split; [exact Hlog|repeat constructor]|].
      unfold await at 1.
      destruct (Nat.ltb attempt max).
      * unfold sleep.
        match goal with
        | |- context [attempts _ _ _ _ _ _ _ _ _ ?le ?w2] =>
            destruct (IH (S attempt) le w2) as (new & Hnew & Hall)
        end.
        exists (Fetched (clock w) (request_of message apiKey mdl)
                :: Slept (clock w1) (delay attempt) :: new).
        split.
        -- rewrite Hnew. simpl. rewrite Hlog, <- !app_assoc. reflexivity.
        -- repeat constructor. exact Hall.
      * unfold ret.
        match goal with
        | |- context [attempts _ _ _ _ _ _ _ _ _ ?le ?w2] =>
            destruct (IH (S attempt) le w2) as (new & Hnew & Hall)
        end.
        exists (Fetched (clock w) (request_of message apiKey mdl) :: new).
        split.
        -- rewrite Hnew, Hlog, <- app_assoc. reflexivity.
        -- repeat constructor. exact Hall.
Qed.

(** X5. Every call of a run sends the same request.  A run only adds to the
    log, and each call of [fetch] it makes, the first and every retry,
    carries the key as bearer, the chosen model (the default one when none is
    given) and the instruction followed by the first 10000 code units of the
    message. *)
Theorem every_call_sends_the_same_request :
  forall (message apiKey : value) (options : Options) (net : nat -> Network)
         (w : World),
    blank message = false -> blank apiKey = false ->
    exists m k new,
      message = VString m /\ apiKey = VString k
      /\ log (snd (analyzeMessage message apiKey options net w)) = log w ++ new
      /\ forall t r, In (Fetched t r) new ->
           r = {| authorization := js "Bearer " ++ k;
                  request_model := default (model options) DEFAULT_MODEL;
                  user_content := js "Analyze this message:" ++ [10; 10]%N
                                  ++ slice_to 10000 m |}.
Proof.
  intros message apiKey options net w Hm Hk.
  destruct (analyzeMessage_runs_loop message apiKey options net w Hm Hk)
    as (m & k & -> & -> & ->).
  destruct (attempts_requests m k (default (model options) DEFAULT_MODEL)
              (default (maxRetries options) 3) (default (timeoutMs options) 30000%N)
              (signal options) net (default (maxRetries options) 3) 1 None w)
    as (new & Hnew & Hall).
  exists m, k, new. repeat split; [exact Hnew|].
  intros t r Hin. rewrite Forall_forall in Hall.
  exact (Hall _ Hin).
Qed.

Lemma every_call_sends_the_same_request_witness :
  exists new,
    log (snd (analyzeMessage (VString (js "hi")) (VString (js "sk-or-1")) plain
                             limited_twice world0)) = new
    /\ forall t r, In (Fetched t r) new ->
         user_content r = js "Analyze this message:" ++ [10; 10]%N ++ js "hi".
Proof.
  destruct (every_call_sends_the_same_request
              (VString (js "hi")) (VString (js "sk-or-1")) plain limited_twice world0
              eq_refl eq_refl)
    as (m & k & new & Hm & Hk & Hlog & Hall).
  exists new. split; [exact Hlog|].
  intros t r Hin. rewrite (Hall t r Hin).
  inversion Hm. reflexivity.
Defined.

(** ** validateApiKey *)

(** What [validateApiKey] throws is of one of three kinds. *)
Ltac validate_throws :=
  let e0 := fresh "e" in
  let H := fresh "H" in
  intros e0 H; cbn in H; inversion H;
  first [ left; eexists; reflexivity
        | right; left; do 2 eexists; reflexivity
        | right; right; do 2 eexists; reflexivity ].

(** X6. [validateApiKey] never answers [false], and calls the provider only
    for a string that starts with [sk-or-].  It resolves to [true] or throws;
    what it throws is an INVALID_API_KEY or NETWORK_ERROR error, or, for a
    truthy value that is not a string, the [TypeError] of the missing
    [startsWith].  A value that is not such a string is turned down with the
    world as it was; a string that is costs exactly one call, which carries
    it as bearer, and no sleep. *)
Theorem validateApiKey_never_answers_false :
  forall (apiKey : value) (net : Network) (w : World),
    let run := validateApiKey apiKey net w in
    fst run <> Normal false
    /\ (forall e, fst run = Throw e ->
          (exists msg, e = TypeError msg)
          \/ (exists msg o, e = AIError msg INVALID_API_KEY o)
          \/ (exists msg o, e = AIError msg NETWORK_ERROR o))
    /\ match apiKey with
       | VString key =>
           if isValidFormat key
           then log (snd run) = log w ++ [Fetched (clock w) (probe key)]
           else run = (Throw (AIError (js "API key should start with sk-or-")
                                      INVALID_API_KEY None), w)
       | _ => snd run = w
       end.
Proof.
  intros apiKey net w run. subst run.
  destruct apiKey as [| |b|neg c e|key|items|props];
    try (split; [discriminate|split; [validate_throws|reflexivity]]).
  - destruct b; (split; [discriminate|split; [validate_throws|reflexivity]]).
  - unfold validateApiKey, await at 1, lift.
    destruct (negb (Js.truthy (VNumber neg c e)));
      (split; [discriminate|split; [validate_throws|reflexivity]]).
  - unfold isValidFormat.
    destruct key as [|c key].
    { split; [discriminate|split; [validate_throws|reflexivity]]. }
    unfold validateApiKey, await, lift, try_catch, fetch_unguarded, read_body, ok,
      throw, ret.
    replace (negb (Js.truthy (VString (c :: key)))) with false by reflexivity.
    cbn [startsWith bind].
    destruct (strip_prefix (js "sk-or-") (c :: key)) as [rest|] eqn:Hp; cbn [negb].
    + destruct net as [after_ms message|head_ms st bms b].
      * split; [discriminate|split; [validate_throws|reflexivity]].
      * cbn [Ai.status body_ms body aborted_by].
        destruct (N.eqb st 401 || N.eqb st 403)%bool.
        { split; [discriminate|split; [validate_throws|reflexivity]]. }
        destruct (negb (N.leb 200 st && N.leb st 299));
          (split; [discriminate|split; [intros e0 H; discriminate|reflexivity]]).
    + split; [discriminate|split; [validate_throws|reflexivity]].
Qed.



(* ================================================================== *)
(** * More properties of the session *)
(* ================================================================== *)

(** ** Trimming *)

Lemma trim_start_app_stop (x y : jsstring) (c : N) :
  is_space c = false -> trim_start (x ++ c :: y) = trim_start x ++ c :: y.
Proof.
  intros Hc. induction x as [|a x IH]; simpl.
  - rewrite Hc. reflexivity.
  - destruct (is_space a); [exact IH|reflexivity].
Qed.

Lemma trim_end_cons_stop (c : N) (r : jsstring) :
  is_space c = false -> trim_end (c :: r) = c :: trim_end r.
Proof.
  intros Hc. unfold trim_end. simpl rev at 2.
  rewrite (trim_start_app_stop (rev r) [] c Hc), rev_app_distr. reflexivity.
Qed.

Lemma trim_end_prefix_stop (p r : jsstring) :
  forallb (fun c => negb (is_space c)) p = true ->
  trim_end (p ++ r) = p ++ trim_end r.
Proof.
  induction p as [|c p IH]; intros H; [reflexivity|].
  simpl in H. apply andb_prop in H. destruct H as [Hc Hp].
  simpl. rewrite trim_end_cons_stop by (destruct (is_space c); [discriminate|reflexivity]).
  rewrite (IH Hp). reflexivity.
Qed.

Lemma trim_start_head (s : jsstring) :
  trim_start s = [] \/ exists c r, trim_start s = c :: r /\ is_space c = false.
Proof.
  induction s as [|a s IH]; [left; reflexivity|].
  simpl. destruct (is_space a) eqn:Ha; [exact IH|].
  right. exists a, s. split; [reflexivity|exact Ha].
Qed.

Lemma trim_end_idempotent (s : jsstring) : trim_end (trim_end s) = trim_end s.
Proof.
  unfold trim_end. rewrite rev_involutive, trim_start_idempotent. reflexivity.
Qed.

Lemma trim_idempotent (s : jsstring) : trim (trim s) = trim s.
Proof.
  unfold trim. destruct (trim_start_head s) as [E|(c & r & E & Hc)]; rewrite E.
  - reflexivity.
  - rewrite (trim_end_cons_stop c r Hc). simpl trim_start. rewrite Hc.
    rewrite (trim_end_cons_stop c (trim_end r) Hc), trim_end_idempotent.
    reflexivity.
Qed.

Lemma trim_start_length (s : jsstring) : List.length (trim_start s) <= List.length s.
Proof.
  induction s as [|a s IH]; simpl; [lia|].
  destruct (is_space a); simpl; lia.
Qed.

Lemma trim_length (s : jsstring) : List.length (trim s) <= List.length s.
Proof.
  unfold trim, trim_end. rewrite length_rev.
  pose proof (trim_start_length (rev (trim_start s))) as H1.
  rewrite length_rev in H1.
  pose proof (trim_start_length s). lia.
Qed.

Lemma strip_prefix_app (p s r : jsstring) :
  strip_prefix p s = Some r -> s = p ++ r.
Proof.
  revert s. induction p as [|x p IH]; intros s H.
  - inversion H. reflexivity.
  - destruct s as [|y s]; [discriminate|]. simpl in H.
    destruct (N.eqb x y) eqn:E; [|discriminate].
    apply N.eqb_eq in E. subst y. simpl. rewrite (IH s H). reflexivity.
Qed.

Lemma strip_prefix_of_app (p r : jsstring) : strip_prefix p (p ++ r) = Some r.
Proof.
  induction p as [|x p IH]; [reflexivity|].
  simpl. rewrite N.eqb_refl. exact IH.
Qed.

Lemma eqb_refl (a : jsstring) : JsString.eqb a a = true.
Proof.
  induction a as [|x a IH]; [reflexivity|].
  simpl. rewrite N.eqb_refl. exact IH.
Qed.

Lemma eqb_eq (a b : jsstring) : JsString.eqb a b = true <-> a = b.
Proof.
  split; [|intros ->; apply eqb_refl].
  revert b. induction a as [|x a IH]; intros [|y b] H; try discriminate; [reflexivity|].
  simpl in H. apply andb_prop in H. destruct H as [Hx Ha].
  apply N.eqb_eq in Hx. rewrite Hx, (IH b Ha). reflexivity.
Qed.

(** ** Controllers *)

Lemma abort_length (now : N) (cs : list (option N)) :
  forall c, List.length (abort now c cs) = List.length cs.
Proof.
  induction cs as [|x cs IH]; intros c; [destruct c; reflexivity|].
  destruct c as [|c]; [destruct x; reflexivity|].
  simpl. destruct x; simpl; rewrite IH; reflexivity.
Qed.

(** A controller that is live after an [abort] was live before, and is not
    the one aborted. *)
Lemma abort_live (now : N) (cs : list (option N)) :
  forall c i,
    nth_error (abort now c cs) i = Some None ->
    nth_error cs i = Some None /\ i <> c.
Proof.
  induction cs as [|x cs IH]; intros c i H.
  - destruct c; destruct i; discriminate.
  - destruct c as [|c].
    + destruct x as [a|]; destruct i as [|i]; simpl in H; try discriminate;
        (split; [exact H|discriminate]).
    + assert (E : abort now (S c) (x :: cs) = x :: abort now c cs)
        by (destruct x; reflexivity).
      rewrite E in H. destruct i as [|i]; simpl in H.
      * split; [exact H|discriminate].
      * destruct (IH c i H) as [H1 H2]. split; [exact H1|].
        intros E'. inversion E'. contradiction.
Qed.

(** The controller aborted is aborted. *)
Lemma abort_aborts (now : N) (cs : list (option N)) :
  forall c, nth_error cs c = Some None -> nth_error (abort now c cs) c = Some (Some now).
Proof.
  induction cs as [|x cs IH]; intros c H.
  - destruct c; discriminate.
  - destruct c as [|c]; simpl in H.
    + inversion H. reflexivity.
    + assert (E : abort now (S c) (x :: cs) = x :: abort now c cs)
        by (destruct x; reflexivity).
      rewrite E. simpl. exact (IH c H).
Qed.

(** Once the current controller is aborted, none is live. *)
Lemma none_live_after_abort (now : N) (s : Session) :
  (forall i, nth_error (controllers s) i = Some None -> abortControllerRef s = Some i) ->
  forall i,
    nth_error (match abortControllerRef s with
               | Some c => abort now c (controllers s)
               | None => controllers s
               end) i <> Some None.
Proof.
  intros Hone i H.
  destruct (abortControllerRef s) as [c|] eqn:Hc.
  - destruct (abort_live now (controllers s) c i H) as [H1 H2].
    specialize (Hone i H1). inversion Hone. apply H2. symmetry. assumption.
  - specialize (Hone i H). discriminate.
Qed.

Lemma live_at_end (l : list (option N)) (i : nat) :
  (forall j, nth_error l j <> Some None) ->
  nth_error (l ++ [None]) i = Some None -> i = List.length l.
Proof.
  intros Hl H.
  destruct (Nat.lt_ge_cases i (List.length l)) as [Hlt|Hge].
  - rewrite nth_error_app1 in H by exact Hlt. exfalso. exact (Hl i H).
  - rewrite nth_error_app2 in H by exact Hge.
    destruct (i - List.length l) as [|k] eqn:E; [lia|].
    destruct k; discriminate.
Qed.

Lemma nth_error_at_end (l : list (option N)) (x : option N) :
  nth_error (l ++ [x]) (List.length l) = Some x.
Proof.
  rewrite nth_error_app2 by lia. rewrite Nat.sub_diag. reflexivity.
Qed.

(** ** What every state of the hook keeps true *)

Lemma consistent_mount (key mdl : jsstring) (stored : option (list HistoryEntry)) :
  consistent (mount key mdl stored).
Proof.
  repeat split; try discriminate.
  intros i H. destruct i; discriminate.
Qed.

Lemma consistent_submit_begin (now : N) (m : jsstring) (s : Session) :
  consistent s -> consistent (fst (submit_begin now m s)).
Proof.
  intros (He & Hone & Hscan). unfold submit_begin.
  destruct (match m with [] => true | _ :: _ => Nat.eqb (List.length (trim m)) 0 end).
  { repeat split; simpl; try assumption. intros _. discriminate. }
  destruct (negb (hasApiKey s)).
  { repeat split; simpl; try assumption. intros _. discriminate. }
  pose proof (none_live_after_abort now s Hone) as Hnone.
  assert (Hlive : forall i,
             nth_error ((match abortControllerRef s with
                         | Some c => abort now c (controllers s)
                         | None => controllers s
                         end) ++ [None]) i = Some None ->
             Some (List.length (match abortControllerRef s with
                                | Some c => abort now c (controllers s)
                                | None => controllers s
                                end)) = Some i).
  { intros i H. rewrite (live_at_end _ i Hnone H). reflexivity. }
  destruct (isMountedRef s) eqn:Hm; simpl.
  - split; [discriminate|split; [exact Hlive|]].
    intros _ _. eexists. split; [reflexivity|apply nth_error_at_end].
  - split; [exact He|split; [exact Hlive|discriminate]].
Qed.

Lemma consistent_submit_settle (now : N) (uuid : jsstring) (p : Pending)
  (outcome : completion AnalysisResult) (s : Session) :
  consistent s -> consistent (submit_settle now uuid p outcome s).
Proof.
  intros Hs. pose proof Hs as (He & Hone & Hscan). unfold submit_settle.
  destruct outcome as [r|[msg t o| |msg|]];
    cbn [error_name String.eqb Ascii.eqb Bool.eqb andb];
    (destruct (isMountedRef s) eqn:Hm; [|exact Hs]);
    repeat split; simpl; try discriminate; try assumption.
Qed.

Lemma consistent_cancelRequest (now : N) (s : Session) :
  consistent s -> consistent (cancelRequest now s).
Proof.
  intros (He & Hone & Hscan). unfold cancelRequest.
  pose proof (none_live_after_abort now s Hone) as Hnone.
  destruct (isMountedRef s) eqn:Hm; repeat split; simpl;
    try discriminate; try assumption;
    intros i H; exfalso; exact (Hnone i H).
Qed.

Lemma consistent_reset (now : N) (s : Session) :
  consistent s -> consistent (reset now s).
Proof.
  intros Hs. apply (consistent_cancelRequest now) in Hs.
  unfold reset. destruct (isMountedRef (cancelRequest now s)) eqn:Hm; [|exact Hs].
  destruct Hs as (He & Hone & Hscan).
  repeat split; simpl; try discriminate. exact Hone.
Qed.

Lemma consistent_setHistory (h : option (list HistoryEntry)) (s : Session) :
  consistent s -> consistent (setHistory h s).
Proof. intros Hs. exact Hs. Qed.

Lemma consistent_loadFromHistory (historyId : jsstring) (s s' : Session) :
  consistent s -> loadFromHistory historyId s = Normal s' -> consistent s'.
Proof.
  intros Hs H. unfold loadFromHistory in H.
  destruct (history s) as [h|]; [|discriminate].
  destruct (find (fun e => JsString.eqb (id e) historyId) h) as [entry|];
    [|inversion H; subst; exact Hs].
  destruct (isMountedRef s); inversion H; subst; [|exact Hs].
  destruct Hs as (He & Hone & Hscan).
  repeat split; simpl; try discriminate. exact Hone.
Qed.

Lemma consistent_unmount (now : N) (s : Session) :
  consistent s -> consistent (unmount now s).
Proof.
  intros (He & Hone & Hscan). unfold unmount.
  pose proof (none_live_after_abort now s Hone) as Hnone.
  repeat split; simpl; try discriminate; try assumption.
  intros i H. exfalso. exact (Hnone i H).
Qed.

Lemma consistent_perform (now : N) (a : action) (s s' : Session) :
  consistent s -> perform now a s = Normal s' -> consistent s'.
Proof.
  intros Hs H.
  destruct a; simpl in H;
    try exact (consistent_loadFromHistory historyId s s' Hs H);
    inversion H; subst; clear H.
  - apply consistent_submit_begin. exact Hs.
  - apply consistent_submit_settle. exact Hs.
  - apply consistent_cancelRequest. exact Hs.
  - apply consistent_reset. exact Hs.
  - unfold retry. destruct (currentMessage s); [exact Hs|].
    apply consistent_submit_begin. exact Hs.
  - exact Hs.
  - exact Hs.
  - exact Hs.
  - exact Hs.
  - exact Hs.
  - apply consistent_unmount. exact Hs.
Qed.

Lemma reachable_consistent (s : Session) : reachable s -> consistent s.
Proof.
  induction 1 as [key mdl stored|s s' now a _ IH Hstep].
  - apply consistent_mount.
  - exact (consistent_perform now a s s' IH Hstep).
Qed.

(** X8. The error flag follows the status.  In every state the hook can
    reach, a failed scan has its error record: [hasError] holds exactly when
    the status is [ERROR]. *)
Theorem error_flag_follows_status :
  forall (s : Session),
    reachable s ->
    (hasError s = true <-> status s = ERROR).
Proof.
  intros s Hs. destruct (reachable_consistent s Hs) as (He & _ & _).
  unfold hasError.
  destruct (status s); split; intros H; try discriminate; try reflexivity.
  destruct (error s); [reflexivity|]. exfalso. exact (He eq_refl eq_refl).
Qed.

Lemma error_flag_follows_status_witness :
  hasError (submit_settle 9 (js "u") (a_pending None) (Throw SyntaxError)
              (fst first_submit)) = true.
Proof.
  apply (error_flag_follows_status
           (submit_settle 9 (js "u") (a_pending None) (Throw SyntaxError)
              (fst first_submit))
           (@reachable_step (fst first_submit) _ 9%N
              (Settle (js "u") (a_pending None) (Throw SyntaxError))
              (@reachable_step a_session _ 0%N (Submit (js "first"))
                 (reachable_mount (js "sk-or-1") DEFAULT_MODEL None) eq_refl)
              eq_refl)).
  reflexivity.
Defined.

(** X9. At most one request is live.  In every state the hook can reach, a
    controller that was not aborted is the one [abortControllerRef] holds:
    two requests are never both left running. *)
Theorem at_most_one_request_is_live :
  forall (s : Session) (i j : nat),
    reachable s ->
    nth_error (controllers s) i = Some None ->
    nth_error (controllers s) j = Some None ->
    i = j /\ abortControllerRef s = Some i.
Proof.
  intros s i j Hs Hi Hj.
  destruct (reachable_consistent s Hs) as (_ & Hone & _).
  pose proof (Hone i Hi) as Ei. pose proof (Hone j Hj) as Ej.
  split; [|exact Ei]. rewrite Ei in Ej. inversion Ej. reflexivity.
Qed.

Lemma at_most_one_request_is_live_witness :
  abortControllerRef (fst second_submit) = Some 1.
Proof.
  exact (proj2 (at_most_one_request_is_live (fst second_submit) 1 1
                  (@reachable_step (fst first_submit) _ 200%N (Submit (js "second"))
                     (@reachable_step a_session _ 0%N (Submit (js "first"))
                        (reachable_mount (js "sk-or-1") DEFAULT_MODEL None) eq_refl)
                     eq_refl)
                  eq_refl eq_refl)).
Defined.

(** X10. A scan can always be cancelled.  While a mounted hook is scanning,
    [abortControllerRef] holds a controller that was not aborted, and
    [cancelRequest] aborts it at that instant, leaves no controller live and
    the status idle. *)
Theorem scanning_request_can_be_cancelled :
  forall (s : Session) (now : N),
    reachable s -> isMountedRef s = true -> status s = SCANNING ->
    exists c,
      abortControllerRef s = Some c
      /\ nth_error (controllers s) c = Some None
      /\ nth_error (controllers (cancelRequest now s)) c = Some (Some now)
      /\ (forall i, nth_error (controllers (cancelRequest now s)) i <> Some None)
      /\ status (cancelRequest now s) = IDLE.
Proof.
  intros s now Hs Hm Hst.
  destruct (reachable_consistent s Hs) as (_ & Hone & Hscan).
  destruct (Hscan Hm Hst) as (c & Hc & Hlive).
  exists c. split; [exact Hc|]. split; [exact Hlive|].
  pose proof (none_live_after_abort now s Hone) as Hnone.
  unfold cancelRequest. simpl. rewrite Hc in *. rewrite Hm.
  split; [exact (abort_aborts now (controllers s) c Hlive)|].
  split; [exact Hnone|reflexivity].
Qed.

Lemma scanning_request_can_be_cancelled_witness :
  exists c,
    abortControllerRef (fst first_submit) = Some c
    /\ nth_error (controllers (cancelRequest 200 (fst first_submit))) c
       = Some (Some 200%N).
Proof.
  destruct (scanning_request_can_be_cancelled (fst first_submit) 200
              (@reachable_step a_session _ 0%N (Submit (js "first"))
                 (reachable_mount (js "sk-or-1") DEFAULT_MODEL None) eq_refl)
              eq_refl eq_refl)
    as (c & Hc & _ & Hab & _).
  exists c. split; [exact Hc|exact Hab].
Defined.

(** X11. [reset] leaves nothing in flight.  On a mounted hook in any state
    it can reach, [reset] gives the idle state with no message, result or
    error, no current controller and every controller aborted; the key, the
    model and the history stay, and a second [reset] changes nothing. *)
Theorem reset_leaves_nothing_in_flight :
  forall (s : Session) (now again : N),
    reachable s -> isMountedRef s = true ->
    status (reset now s) = IDLE
    /\ currentMessage (reset now s) = []
    /\ result (reset now s) = None
    /\ error (reset now s) = None
    /\ abortControllerRef (reset now s) = None
    /\ (forall i, nth_error (controllers (reset now s)) i <> Some None)
    /\ apiKey (reset now s) = apiKey s
    /\ selectedModel (reset now s) = selectedModel s
    /\ history (reset now s) = history s
    /\ reset again (reset now s) = reset now s.
Proof.
  intros s now again Hs Hm.
  destruct (reachable_consistent s Hs) as (_ & Hone & _).
  pose proof (none_live_after_abort now s Hone) as Hnone.
  unfold reset, cancelRequest. cbn [isMountedRef]. rewrite Hm.
  cbn [isMountedRef status currentMessage result error abortControllerRef controllers
       apiKey selectedModel history].
  repeat split. exact Hnone.
Qed.

Lemma reset_leaves_nothing_in_flight_witness :
  status (reset 300 (fst first_submit)) = IDLE
  /\ forall i, nth_error (controllers (reset 300 (fst first_submit))) i <> Some None.
Proof.
  destruct (reset_leaves_nothing_in_flight (fst first_submit) 300 400
              (@reachable_step a_session _ 0%N (Submit (js "first"))
                 (reachable_mount (js "sk-or-1") DEFAULT_MODEL None) eq_refl)
              eq_refl)
    as (H1 & _ & _ & _ & _ & H6 & _).
  split; [exact H1|exact H6].
Defined.

(** One action on an unmounted hook. *)
Lemma unmounted_step (now : N) (a : action) (s s' : Session) :
  isMountedRef s = false -> perform now a s = Normal s' ->
  status s' = status s /\ result s' = result s
  /\ currentMessage s' = currentMessage s /\ isMountedRef s' = false.
Proof.
  intros Hm H.
  assert (Hbegin : forall m,
             status (fst (submit_begin now m s)) = status s
             /\ result (fst (submit_begin now m s)) = result s
             /\ currentMessage (fst (submit_begin now m s)) = currentMessage s
             /\ isMountedRef (fst (submit_begin now m s)) = false).
  { intros m. unfold submit_begin.
    destruct (match m with [] => true | _ :: _ => Nat.eqb (List.length (trim m)) 0 end);
      [simpl; auto|].
    destruct (negb (hasApiKey s)); [simpl; auto|].
    rewrite Hm. simpl. auto. }
  destruct a; simpl in H.
  - inversion H. apply Hbegin.
  - inversion H. unfold submit_settle.
    destruct outcome as [r|[msg t o| |msg|]];
      cbn [error_name String.eqb Ascii.eqb Bool.eqb andb]; rewrite Hm; auto.
  - inversion H. unfold cancelRequest. rewrite Hm. simpl. auto.
  - inversion H. unfold reset, cancelRequest. cbn [isMountedRef]. rewrite Hm.
    simpl. auto.
  - inversion H. unfold retry.
    pose proof (Hbegin (currentMessage s)) as Hb.
    destruct (currentMessage s); [auto|exact Hb].
  - unfold loadFromHistory in H. destruct (history s) as [h|]; [|discriminate].
    destruct (find (fun e => JsString.eqb (id e) historyId) h);
      [rewrite Hm in H|]; inversion H; subst; auto.
  - inversion H. simpl. auto.
  - inversion H. simpl. auto.
  - inversion H. simpl. auto.
  - inversion H. simpl. auto.
  - inversion H. simpl. auto.
  - inversion H. simpl. auto.
Qed.

(** X12. An unmounted hook shows nothing new.  Whatever is done after the
    unmounting (a late continuation, a submit, a cancel, a reset, a load),
    the status, the result and the current message stay what they were, and
    the hook stays unmounted. *)
Theorem unmounted_session_is_frozen :
  forall (s s' : Session) (now : N),
    follows (unmount now s) s' ->
    status s' = status s /\ result s' = result s
    /\ currentMessage s' = currentMessage s /\ isMountedRef s' = false.
Proof.
  intros s s' now H.
  induction H as [|s1 s2 t a _ IH Hstep].
  - simpl. auto.
  - destruct IH as (H1 & H2 & H3 & H4).
    destruct (unmounted_step t a s1 s2 H4 Hstep) as (G1 & G2 & G3 & G4).
    rewrite G1, G2, G3. auto.
Qed.

Lemma unmounted_session_is_frozen_witness :
  status (submit_settle 5000 (js "u") (a_pending None) (Normal a_result)
            (unmount 300 (fst first_submit)))
  = SCANNING.
Proof.
  exact (proj1 (unmounted_session_is_frozen (fst first_submit) _ 300
                  (@follows_step _ _ _ 5000%N
                     (Settle (js "u") (a_pending None) (Normal a_result))
                     (@follows_refl _) eq_refl))).
Defined.

(** A key that passes the check of [analyzeMessage] is not empty. *)
Lemma nonblank_key_present (s : Session) :
  blank (VString (apiKey s)) = false -> hasApiKey s = true.
Proof.
  intros H. destruct (proj1 (blank_spec _) H) as (k & E & Hk).
  inversion E. unfold hasApiKey. destruct (apiKey s); [|reflexivity].
  subst k. exfalso. apply Hk. reflexivity.
Qed.

Lemma trimmed_not_blank (m : jsstring) :
  trim m <> [] -> blank (VString (trim m)) = false.
Proof.
  intros H. apply blank_spec. exists (trim m). split; [reflexivity|].
  rewrite trim_idempotent. exact H.
Qed.

Lemma signal_at_end (l : list (option N)) (x : option N) :
  nth (List.length l) (l ++ [x]) None = x.
Proof. rewrite app_nth2 by lia. rewrite Nat.sub_diag. reflexivity. Qed.

(** X13. A cancelled scan ends as an error.  After [cancelRequest] during a
    scan, before the first response is in, the status is idle; the request
    then settles with the TIMEOUT error [Request cancelled], and its
    continuation puts the hook in the error state with the record of a
    timeout. *)
Theorem cancelled_scan_ends_in_error :
  forall (s : Session) (message uuid : jsstring) (now cancelled settled : N)
         (net : nat -> Network),
    isMountedRef s = true -> blank (VString (apiKey s)) = false ->
    trim message <> [] ->
    (cancelled <= now + latency (net 1%nat))%N ->
    exists s1 p w',
      submit_begin now message s = (s1, Some p)
      /\ status (cancelRequest cancelled s1) = IDLE
      /\ analyzeMessage (VString (message_sent p)) (VString (key_sent p))
                        (options_of (cancelRequest cancelled s1) p) net
                        {| clock := now; log := [] |}
         = (Throw (AIError (js "Request cancelled") TIMEOUT (Some AbortError)), w')
      /\ status (submit_settle settled uuid p
                   (Throw (AIError (js "Request cancelled") TIMEOUT (Some AbortError)))
                   (cancelRequest cancelled s1)) = ERROR
      /\ error (submit_settle settled uuid p
                  (Throw (AIError (js "Request cancelled") TIMEOUT (Some AbortError)))
                  (cancelRequest cancelled s1))
         = Some {| type := js "TIMEOUT";
                   message := js "Request timed out. Please try again." |}.
Proof.
  intros s message uuid now cancelled settled net Hm Hk Ht Hc.
  pose proof (submit_begin_starts now message s Hm (nonblank_key_present s Hk) Ht)
    as Hbegin.
  cbv zeta in Hbegin.
  assert (Hab : aborted_by (Some cancelled)
                           (clock {| clock := now; log := [] |} + latency (net 1%nat))
                = true) by (apply N.leb_le; exact Hc).
  destruct (first_call_aborted (VString (trim message)) (VString (apiKey s))
              {| model := Some (selectedModel s); maxRetries := None;
                 timeoutMs := None; signal := Some cancelled |}
              net {| clock := now; log := [] |} 2
              (trimmed_not_blank message Ht) Hk eq_refl (or_introl Hab))
    as (w' & Hrun & _).
  do 2 eexists. exists w'. split; [exact Hbegin|].
  split; [reflexivity|]. split.
  - unfold options_of, signal_of, cancelRequest.
    cbn [controllers abortControllerRef message_sent key_sent model_sent controller].
    rewrite abort_at_end, signal_at_end. exact Hrun.
  - apply submit_settle_AIError. reflexivity.
Qed.

Lemma cancelled_scan_ends_in_error_witness :
  exists s1 p,
    submit_begin 0 (js "first") a_session = (s1, Some p)
    /\ status (submit_settle 300 (js "u") p
                 (fst (analyzeMessage (VString (message_sent p)) (VString (key_sent p))
                         (options_of (cancelRequest 200 s1) p) slow_success
                         {| clock := 0; log := [] |}))
                 (cancelRequest 200 s1)) = ERROR.
Proof.
  destruct (cancelled_scan_ends_in_error a_session (js "first") (js "u") 0 200 300
              slow_success eq_refl eq_refl)
    as (s1 & p & w' & Hb & _ & Hrun & Hst & _);
    [discriminate|vm_compute; discriminate|].
  exists s1, p. split; [exact Hb|]. rewrite Hrun. exact Hst.
Defined.

(** X14. A change of the history during a scan is lost.  The continuation
    of a scan stores the history its call saw when it started, with the new
    entry added: whatever the history was set to in between (cleared, an
    entry removed, replaced from another tab) is overwritten. *)
Theorem history_change_during_scan_is_lost :
  forall (s : Session) (message uuid : jsstring) (now settled : N)
         (changed : option (list HistoryEntry)) (r : AnalysisResult),
    isMountedRef s = true -> hasApiKey s = true -> trim message <> [] ->
    exists s1 p,
      submit_begin now message s = (s1, Some p)
      /\ history (submit_settle settled uuid p (Normal r) (setHistory changed s1))
         = Some (add_to_history (history s)
                   {| id := uuid; timestamp := settled;
                      originalMessage := trim message;
                      entry_result := r; entry_model := selectedModel s |}).
Proof.
  intros s message uuid now settled changed r Hm Hk Ht.
  pose proof (submit_begin_starts now message s Hm Hk Ht) as Hbegin.
  cbv zeta in Hbegin.
  do 2 eexists. split; [exact Hbegin|]. reflexivity.
Qed.

Lemma history_change_during_scan_is_lost_witness :
  exists s1 p,
    submit_begin 0 (js "hi") (mount (js "sk-or-1") DEFAULT_MODEL (Some [an_entry]))
    = (s1, Some p)
    /\ history (submit_settle 9 (js "u") p (Normal a_result) (clearHistory s1))
       = Some [an_entry;
               {| id := js "u"; timestamp := 9; originalMessage := js "hi";
                  entry_result := a_result; entry_model := DEFAULT_MODEL |}].
Proof.
  destruct (history_change_during_scan_is_lost
              (mount (js "sk-or-1") DEFAULT_MODEL (Some [an_entry]))
              (js "hi") (js "u") 0 9 (Some []) a_result eq_refl eq_refl)
    as (s1 & p & Hb & Hh); [discriminate|].
  exists s1, p. split; [exact Hb|exact Hh].
Defined.

(** C9, on the code.  The entry of a scan is added to the history its call
    saw when it started, not to the history of the moment.  A hook holds one
    entry; a scan starts at instant 10; at instant 20 a storage event brings
    the history another tab has written, with two entries more; the scan
    succeeds at instant 30.  The history stored then is the old entry and
    the new one: the two entries made at instants 12 and 15, more recent
    than the one kept, are gone, with 2 entries where 4 are due. *)
Theorem newer_history_entries_are_dropped :
  exists s1 p s2 s3,
    submit_begin 10 (js "hi") Tabs.one_entry = (s1, Some p)
    /\ perform 20 (StorageEvent Tabs.from_other_tab) s1 = Normal s2
    /\ history s2 = Some [Tabs.entry_at (js "old") 1; Tabs.entry_at (js "e1") 12;
                          Tabs.entry_at (js "e2") 15]
    /\ perform 30 (Settle (js "n") p (Normal a_result)) s2 = Normal s3
    /\ history s3 = Some [Tabs.entry_at (js "old") 1; Tabs.entry_at (js "n") 30]
    /\ reachable s3.
Proof.
  do 4 eexists.
  split; [reflexivity|]. split; [reflexivity|]. split; [reflexivity|].
  split; [reflexivity|]. split; [reflexivity|].
  refine (@reachable_step _ _ 30%N (Settle (js "n") _ (Normal a_result))
            (@reachable_step _ _ 20%N (StorageEvent Tabs.from_other_tab)
               (@reachable_step Tabs.one_entry _ 10%N (Submit (js "hi"))
                  (reachable_mount (js "sk-or-1") DEFAULT_MODEL
                     (Some [Tabs.entry_at (js "old") 1])) eq_refl)
               eq_refl)
            eq_refl).
Qed.

(** ** The history *)

Lemma slice_last_snoc (A : Type) (n : nat) (l : list A) (x : A) :
  slice_last (S n) (l ++ [x]) = slice_last n l ++ [x].
Proof.
  unfold slice_last. rewrite length_app. simpl List.length.
  replace (List.length l + 1 - S n) with (List.length l - n) by lia.
  rewrite skipn_app.
  replace (List.length l - n - List.length l) with 0 by lia. reflexivity.
Qed.

Lemma In_slice_last (A : Type) (n : nat) (l : list A) (y : A) :
  In y (slice_last n l) -> In y l.
Proof.
  unfold slice_last. intros H.
  rewrite <- (firstn_skipn (List.length l - n) l). apply in_or_app. right. exact H.
Qed.

Lemma find_snoc (A : Type) (f : A -> bool) (l : list A) (x : A) :
  (forall y, In y l -> f y = false) -> f x = true -> find f (l ++ [x]) = Some x.
Proof.
  intros Hl Hx. induction l as [|a l IH]; simpl.
  - rewrite Hx. reflexivity.
  - rewrite (Hl a (or_introl eq_refl)). apply IH.
    intros y Hy. apply Hl. right. exact Hy.
Qed.

Lemma find_filter_out (historyId : jsstring) (l : list HistoryEntry) :
  find (fun e => JsString.eqb (id e) historyId)
       (filter (fun h => negb (JsString.eqb (id h) historyId)) l) = None.
Proof.
  induction l as [|a l IH]; [reflexivity|].
  simpl. destruct (JsString.eqb (id a) historyId) eqn:E; simpl; [exact IH|].
  rewrite E. exact IH.
Qed.

(** X15. A settled scan can be loaded again.  When the identifier given to
    the entry of a successful scan is not that of an entry the call saw, a
    later [loadFromHistory] of it, here after a [reset], brings back the
    scan: its message, its result, the status [COMPLETE] and no error. *)
Theorem settled_scan_can_be_reloaded :
  forall (s : Session) (p : Pending) (uuid : jsstring) (now later : N)
         (r : AnalysisResult),
    isMountedRef s = true ->
    (forall e, In e (default (history_seen p) []) -> id e <> uuid) ->
    exists s',
      loadFromHistory uuid (reset later (submit_settle now uuid p (Normal r) s))
      = Normal s'
      /\ status s' = COMPLETE /\ result s' = Some r
      /\ currentMessage s' = message_sent p /\ error s' = None.
Proof.
  intros s p uuid now later r Hm Hfresh.
  unfold submit_settle. rewrite Hm.
  unfold reset, cancelRequest, with_scan. cbn [isMountedRef]. rewrite Hm.
  unfold loadFromHistory. cbn [history isMountedRef].
  unfold add_to_history. change 50 with (S 49).
  rewrite slice_last_snoc, find_snoc.
  - eexists. split; [reflexivity|]. repeat split.
  - intros y Hy. apply In_slice_last in Hy.
    destruct (JsString.eqb (id y) uuid) eqn:E; [|reflexivity].
    apply eqb_eq in E. exfalso. exact (Hfresh y Hy E).
  - apply eqb_refl.
Qed.

Lemma settled_scan_can_be_reloaded_witness :
  exists s',
    loadFromHistory (js "u")
      (reset 9 (submit_settle 5 (js "u") (a_pending (Some [an_entry]))
                  (Normal a_result) a_session))
    = Normal s'
    /\ result s' = Some a_result.
Proof.
  destruct (settled_scan_can_be_reloaded a_session (a_pending (Some [an_entry]))
              (js "u") 5 9 a_result eq_refl)
    as (s' & Hl & _ & Hr & _).
  - intros e [E|[]]. subst e. discriminate.
  - exists s'. split; [exact Hl|exact Hr].
Defined.

(** X16. A removed entry cannot be loaded.  After [removeFromHistory] of an
    identifier, [loadFromHistory] of it changes nothing, however many entries
    had it, and after [clearHistory] no identifier loads anything; neither
    throws then, while on a stored history that is [null] [loadFromHistory]
    throws a [TypeError]. *)
Theorem removed_entry_is_not_loaded :
  forall (s : Session) (historyId other : jsstring),
    loadFromHistory historyId (removeFromHistory historyId s)
    = Normal (removeFromHistory historyId s)
    /\ loadFromHistory other (clearHistory s) = Normal (clearHistory s)
    /\ exists cause,
         loadFromHistory other (setHistory None s) = Throw (TypeError cause).
Proof.
  intros s historyId other. split; [|split].
  - unfold loadFromHistory, removeFromHistory, setHistory. cbn [history].
    rewrite find_filter_out. reflexivity.
  - reflexivity.
  - eexists. reflexivity.
Qed.

(** X17. [retry] sends the same message again.  After a scan that failed,
    [retry] starts a request with the text, the key and the model of the
    failed one, on a fresh controller, aborting the old one; the hook is
    scanning again, with the error cleared. *)
Theorem retry_resends_the_message :
  forall (s : Session) (message uuid : jsstring) (now failed again : N)
         (e : exception),
    isMountedRef s = true -> hasApiKey s = true -> trim message <> [] ->
    exists s1 p s3 p',
      submit_begin now message s = (s1, Some p)
      /\ retry again (submit_settle failed uuid p (Throw e) s1) = (s3, Some p')
      /\ message_sent p' = message_sent p
      /\ key_sent p' = key_sent p
      /\ model_sent p' = model_sent p
      /\ controller p' = S (controller p)
      /\ nth_error (controllers s3) (controller p) = Some (Some again)
      /\ status s3 = SCANNING /\ error s3 = None.
Proof.
  intros s message uuid now failed again e Hm Hk Ht.
  pose proof (submit_begin_starts now message s Hm Hk Ht) as Hbegin.
  cbv zeta in Hbegin.
  set (aborted := match abortControllerRef s with
                  | Some c => abort now c (controllers s)
                  | None => controllers s
                  end) in *.
  set (s1 := {| apiKey := apiKey s; selectedModel := selectedModel s;
                history := history s; currentMessage := trim message;
                status := SCANNING; result := None; error := None;
                controllers := aborted ++ [None];
                abortControllerRef := Some (List.length aborted);
                isMountedRef := true |}) in *.
  set (s2 := submit_settle failed uuid
               {| message_sent := trim message; key_sent := apiKey s;
                  model_sent := selectedModel s; history_seen := history s;
                  controller := List.length aborted |} (Throw e) s1).
  assert (H2 : apiKey s2 = apiKey s /\ selectedModel s2 = selectedModel s
               /\ currentMessage s2 = trim message
               /\ controllers s2 = aborted ++ [None]
               /\ abortControllerRef s2 = Some (List.length aborted)
               /\ isMountedRef s2 = true).
  { subst s2. unfold submit_settle.
    destruct e as [msg t o| |msg|];
      cbn [error_name String.eqb Ascii.eqb Bool.eqb andb isMountedRef s1];
      repeat split. }
  destruct H2 as (Ek & Emdl & Emsg & Ecs & Eref & Emnt).
  assert (Hk2 : hasApiKey s2 = true) by (unfold hasApiKey; rewrite Ek; exact Hk).
  assert (Ht2 : trim (trim message) <> []) by (rewrite trim_idempotent; exact Ht).
  pose proof (submit_begin_starts again (trim message) s2 Emnt Hk2 Ht2) as Hagain.
  cbv zeta in Hagain. rewrite Eref, Ecs, abort_at_end, trim_idempotent in Hagain.
  assert (Hretry : retry again s2 = submit_begin again (trim message) s2).
  { unfold retry. rewrite Emsg. destruct (trim message); [contradiction|reflexivity]. }
  do 4 eexists. split; [exact Hbegin|].
  split; [fold s2; rewrite Hretry; exact Hagain|].
  cbn [message_sent key_sent model_sent controller controllers status error].
  rewrite Ek, Emdl, length_app. simpl List.length.
  split; [reflexivity|]. split; [reflexivity|]. split; [reflexivity|].
  split; [lia|]. split; [|split; reflexivity].
  rewrite nth_error_app1 by (rewrite length_app; simpl; lia).
  apply nth_error_at_end.
Qed.

Lemma retry_resends_the_message_witness :
  exists s1 p s3 p',
    submit_begin 0 (js " hi ") a_session = (s1, Some p)
    /\ retry 9 (submit_settle 5 (js "u") p (Throw AbortError) s1) = (s3, Some p')
    /\ message_sent p' = js "hi".
Proof.
  destruct (retry_resends_the_message a_session (js " hi ") (js "u") 0 5 9 AbortError
              eq_refl eq_refl)
    as (s1 & p & s3 & p' & Hb & Hr & Hmsg & _); [discriminate|].
  exists s1, p, s3, p'. split; [exact Hb|]. split; [exact Hr|].
  rewrite Hmsg. rewrite (submit_begin_starts 0 (js " hi ") a_session eq_refl eq_refl) in Hb
    by discriminate.
  inversion Hb. reflexivity.
Defined.

(* ================================================================== *)
(** * The key settings and the input *)
(* ================================================================== *)

Lemma valid_format_trim (key : jsstring) :
  isValidFormat key = true ->
  exists rest, key = js "sk-or-" ++ rest /\ trim key = js "sk-or-" ++ trim_end rest.
Proof.
  unfold isValidFormat. intros H.
  destruct (strip_prefix (js "sk-or-") key) as [rest|] eqn:E; [|discriminate].
  apply strip_prefix_app in E. exists rest. split; [exact E|].
  subst key. unfold trim.
  replace (trim_start (js "sk-or-" ++ rest)) with (js "sk-or-" ++ rest) by reflexivity.
  apply trim_end_prefix_stop. reflexivity.
Qed.

(** X18. A key that [saveApiKey] saves is one the client accepts.  When
    [saveApiKey] returns [true], the key saved is the trimmed input, which
    starts with [sk-or-] and passes the key check of [analyzeMessage], and
    the validation error is cleared; when it returns [false], the saved key
    is the one there was and a validation error is set. *)
Theorem saved_key_is_usable :
  forall (newKey : jsstring) (st : KeySettings),
    if snd (saveApiKey newKey st)
    then savedKey (fst (saveApiKey newKey st)) = trim newKey
         /\ isValidFormat (trim newKey) = true
         /\ blank (VString (trim newKey)) = false
         /\ validationError (fst (saveApiKey newKey st)) = None
         /\ isValidating (fst (saveApiKey newKey st)) = false
    else savedKey (fst (saveApiKey newKey st)) = savedKey st
         /\ exists text, validationError (fst (saveApiKey newKey st)) = Some text.
Proof.
  intros newKey st. unfold saveApiKey.
  destruct (match newKey with
            | [] => true
            | _ :: _ => Nat.eqb (List.length (trim newKey)) 0
            end).
  { simpl. split; [reflexivity|eexists; reflexivity]. }
  destruct (isValidFormat newKey) eqn:F; simpl.
  - destruct (valid_format_trim newKey F) as (rest & _ & Et).
    split; [reflexivity|]. split; [|split; [|split; reflexivity]].
    + rewrite Et. unfold isValidFormat. rewrite strip_prefix_of_app. reflexivity.
    + apply trimmed_not_blank. rewrite Et. discriminate.
  - split; [reflexivity|eexists; reflexivity].
Qed.

Lemma length_slice_last (A : Type) (n : nat) (l : list A) :
  n <= List.length l -> List.length (slice_last n l) = n.
Proof. intros H. unfold slice_last. rewrite length_skipn. lia. Qed.

Lemma maskedKey_cases (key : jsstring) :
  maskedKey key
  = if Nat.ltb 12 (List.length key)
    then firstn 8 key ++ repeat bullet 16 ++ slice_last 4 key
    else repeat bullet (List.length key).
Proof. destruct key; reflexivity. Qed.

(** X19. The mask shows the ends of a long key and nothing of a short one.
    For a key of more than 12 code units the mask has 28: the first 8 of the
    key, 16 bullets and the last 4 of the key, so it does not tell the length
    of the key; a shorter key is masked whole, bullet for code unit. *)
Theorem masked_key_hides_the_middle :
  forall (key : jsstring),
    List.length (maskedKey key)
    = (if Nat.ltb 12 (List.length key) then 28 else List.length key)
    /\ if Nat.ltb 12 (List.length key)
       then firstn 8 (maskedKey key) = firstn 8 key
            /\ firstn 16 (skipn 8 (maskedKey key)) = repeat bullet 16
            /\ skipn 24 (maskedKey key) = slice_last 4 key
       else Forall (fun c => c = bullet) (maskedKey key).
Proof.
  intros key. rewrite maskedKey_cases.
  destruct (Nat.ltb 12 (List.length key)) eqn:L.
  - apply Nat.ltb_lt in L.
    assert (H8 : List.length (firstn 8 key) = 8)
      by (rewrite length_firstn; lia).
    assert (H4 : List.length (slice_last 4 key) = 4)
      by (apply length_slice_last; lia).
    split.
    + rewrite !length_app, H8, H4, repeat_length. reflexivity.
    + split; [|split].
      * rewrite firstn_app, H8. simpl (8 - 8). rewrite firstn_O, app_nil_r.
        apply firstn_firstn.
      * rewrite skipn_app, H8. simpl (8 - 8).
        rewrite (skipn_all2 (firstn 8 key)) by lia.
        rewrite skipn_O, app_nil_l, firstn_app, repeat_length. simpl (16 - 16).
        rewrite firstn_O, app_nil_r. apply firstn_all2. rewrite repeat_length. lia.
      * rewrite skipn_app, H8.
        rewrite (skipn_all2 (firstn 8 key)) by lia.
        simpl (24 - 8). rewrite app_nil_l, skipn_app, repeat_length.
        rewrite (skipn_all2 (repeat bullet 16)) by (rewrite repeat_length; lia).
        simpl (16 - 16). rewrite skipn_O. reflexivity.
  - split; [apply repeat_length|].
    apply Forall_forall. intros x Hx. exact (repeat_spec _ _ _ Hx).
Qed.

(** X20. A typed message is sent whole.  The text area lets through at most
    5000 code units, so the message a submit sends is no longer than that,
    the cut at 10000 code units that [analyzeMessage] applies never
    shortens it, and the request carries all of it. *)
Theorem typed_message_is_sent_whole :
  forall (typed : jsstring) (s s1 : Session) (p : Pending) (now : N),
    submit_begin now (Ui.onChange typed) s = (s1, Some p) ->
    (N.of_nat (List.length (message_sent p)) <= Ui.maxChars)%N
    /\ message_sent p = trim (Ui.onChange typed)
    /\ request_of (message_sent p) (key_sent p) (model_sent p)
       = {| authorization := js "Bearer " ++ key_sent p;
            request_model := model_sent p;
            user_content := js "Analyze this message:" ++ [10; 10]%N
                            ++ message_sent p |}.
Proof.
  intros typed s s1 p now H.
  assert (Hp : message_sent p = trim (Ui.onChange typed)).
  { unfold submit_begin in H.
    destruct (match Ui.onChange typed with
              | [] => true
              | _ :: _ => Nat.eqb (List.length (trim (Ui.onChange typed))) 0
              end); [discriminate|].
    destruct (negb (hasApiKey s)); [discriminate|].
    inversion H. reflexivity. }
  assert (Hlen : List.length (message_sent p) <= N.to_nat Ui.maxChars).
  { rewrite Hp. pose proof (trim_length (Ui.onChange typed)) as H1.
    unfold Ui.onChange, slice_to in *.
    pose proof (firstn_le_length (N.to_nat Ui.maxChars) typed) as H2.
    rewrite length_firstn in H1. lia. }
  split; [lia|]. split; [exact Hp|].
  unfold request_of, slice_to. rewrite firstn_all2; [reflexivity|].
  unfold MAX_MESSAGE_LENGTH. unfold Ui.maxChars in Hlen. lia.
Qed.

Lemma typed_message_is_sent_whole_witness :
  message_sent (a_pending None) = trim (Ui.onChange (js "hi")).
Proof.
  exact (proj1 (proj2 (typed_message_is_sent_whole (js "hi") a_session
                         (fst (submit_begin 0 (js "hi") a_session))
                         {| message_sent := js "hi"; key_sent := js "sk-or-1";
                            model_sent := DEFAULT_MODEL; history_seen := None;
                            controller := 0 |} 0 eq_refl))).
Defined.

(* ================================================================== *)
(** * Properties of the storage *)
(* ================================================================== *)

Import Storage.

Lemma eqb_neq (a b : jsstring) : a <> b -> JsString.eqb a b = false.
Proof.
  intros H. destruct (JsString.eqb a b) eqn:E; [|reflexivity].
  apply eqb_eq in E. contradiction.
Qed.

Lemma lookup_put_same (key v : jsstring) (l : list (jsstring * jsstring)) :
  lookup key (put key v l) = Some v.
Proof.
  induction l as [|[k old] l IH]; simpl.
  - rewrite eqb_refl. reflexivity.
  - destruct (JsString.eqb k key) eqn:E; simpl; rewrite E; [reflexivity|exact IH].
Qed.

Lemma lookup_put_other (key other v : jsstring) (l : list (jsstring * jsstring)) :
  other <> key -> lookup other (put key v l) = lookup other l.
Proof.
  intros H. induction l as [|[k old] l IH]; simpl.
  - rewrite eqb_neq by (intros E; apply H; symmetry; exact E). reflexivity.
  - destruct (JsString.eqb k key) eqn:E; simpl.
    + apply eqb_eq in E. subst k.
      rewrite (eqb_neq key other) by (intros E; apply H; symmetry; exact E).
      reflexivity.
    + rewrite IH. reflexivity.
Qed.

Lemma lookup_drop_same (key : jsstring) (l : list (jsstring * jsstring)) :
  lookup key (drop key l) = None.
Proof.
  induction l as [|[k v] l IH]; [reflexivity|].
  unfold drop in *. simpl. destruct (JsString.eqb k key) eqn:E; simpl; [exact IH|].
  rewrite E. exact IH.
Qed.

Lemma lookup_drop_other (key other : jsstring) (l : list (jsstring * jsstring)) :
  other <> key -> lookup other (drop key l) = lookup other l.
Proof.
  intros H. induction l as [|[k v] l IH]; [reflexivity|].
  unfold drop in *. simpl. destruct (JsString.eqb k key) eqn:E; simpl.
  - apply eqb_eq in E. subst k.
    rewrite (eqb_neq key other) by (intros E; apply H; symmetry; exact E).
    exact IH.
  - rewrite IH. reflexivity.
Qed.

Lemma lookup_absent (key : jsstring) (l : list (jsstring * jsstring)) :
  ~ In key (map fst l) -> lookup key l = None.
Proof.
  induction l as [|[k v] l IH]; intros H; [reflexivity|].
  simpl. rewrite eqb_neq by (intros E; apply H; left; exact E).
  apply IH. intros Hin. apply H. right. exact Hin.
Qed.

Lemma drop_put (key v : jsstring) (l : list (jsstring * jsstring)) :
  drop key (put key v l) = drop key l.
Proof.
  unfold drop. induction l as [|[k old] l IH]; simpl.
  - rewrite eqb_refl. reflexivity.
  - destruct (JsString.eqb k key) eqn:E; simpl; rewrite E; simpl.
    + reflexivity.
    + rewrite IH. reflexivity.
Qed.

(** The probe of [isStorageAvailable], settled: it fails when the storage
    is denied or does not take the test item, and otherwise leaves the
    storage without the test key. *)
Lemma isStorageAvailable_cases (st : LocalStorage) :
  isStorageAvailable st
  = if denied st then (false, st)
    else if accepts st (put testKey (js "test") (items st))
    then (true, with_items st (drop testKey (items st)))
    else (false, st).
Proof.
  unfold isStorageAvailable, native_setItem.
  destruct (denied st) eqn:Hd; [reflexivity|].
  destruct (accepts st (put testKey (js "test") (items st))); [|reflexivity].
  unfold native_getItem, native_removeItem, with_items. cbn [denied items accepts].
  rewrite Hd, lookup_put_same, eqb_refl, drop_put. reflexivity.
Qed.

Lemma key_text_not_testKey (key : STORAGE_KEYS) : key_text key <> testKey.
Proof. destruct key; discriminate. Qed.

(** A text that starts with [sk-or-] is not JSON. *)
Lemma key_is_not_json (text : jsstring) :
  isValidFormat text = true -> Json.parse text = None.
Proof.
  intros H. destruct (valid_format_trim text H) as (rest & -> & _).
  unfold Json.parse, Json.fuel_for. rewrite length_app.
  replace (2 * (List.length (js "sk-or-") + List.length rest) + 2)
    with (S (2 * (List.length (js "sk-or-") + List.length rest) + 1)) by lia.
  reflexivity.
Qed.

(** What [getItem] gives for an item [setItem] stored. *)
Lemma stored_item_read (st st1 : LocalStorage) (key : STORAGE_KEYS) (text : jsstring) :
  setItem key text st = (true, st1) ->
  fst (isStorageAvailable st1) = true ->
  forall defaultValue,
    fst (getItem key defaultValue st1)
    = match Json.parse text with
      | Some parsed => parsed
      | None => VString text
      end.
Proof.
  intros Hset Hav.
  assert (Hitem : lookup (key_text key) (drop testKey (items st1)) = Some text).
  { unfold setItem in Hset. rewrite isStorageAvailable_cases in Hset.
    destruct (denied st) eqn:Hd; [discriminate|].
    destruct (accepts st (put testKey (js "test") (items st))); [|discriminate].
    cbn [negb] in Hset.
    destruct (N.ltb MAX_ITEM_SIZE (utf8_size text)); [discriminate|].
    unfold native_setItem, with_items in Hset. cbn [denied items accepts] in Hset.
    rewrite Hd in Hset.
    destruct (accepts st (put (key_text key) text (drop testKey (items st))));
      [|discriminate].
    inversion Hset. cbn [items].
    rewrite lookup_drop_other by apply key_text_not_testKey.
    apply lookup_put_same. }
  intros d. unfold getItem. rewrite isStorageAvailable_cases in *.
  destruct (denied st1) eqn:Hd; [discriminate|].
  destruct (accepts st1 (put testKey (js "test") (items st1))); [|discriminate].
  cbn [negb]. unfold native_getItem, with_items. cbn [denied items].
  rewrite Hd, Hitem. reflexivity.
Qed.

(** X21. A stored string is read back parsed.  After [setItem] stored a
    string, [getItem] of the key on a storage that is still available gives
    what [JSON.parse] makes of the text, and the text itself only when it is
    not JSON.  A text that starts with [sk-or-] is not JSON: it is read back
    as it was stored. *)
Theorem stored_string_is_read_back_parsed :
  forall (st st1 : LocalStorage) (key : STORAGE_KEYS) (text : jsstring)
         (defaultValue : value),
    setItem key text st = (true, st1) ->
    fst (isStorageAvailable st1) = true ->
    fst (getItem key defaultValue st1)
    = match Json.parse text with
      | Some parsed => parsed
      | None => VString text
      end
    /\ (isValidFormat text = true ->
        fst (getItem key defaultValue st1) = VString text).
Proof.
  intros st st1 key text defaultValue Hset Hav.
  pose proof (stored_item_read st st1 key text Hset Hav defaultValue) as Hget.
  split; [exact Hget|].
  intros Hfmt. rewrite Hget, (key_is_not_json text Hfmt). reflexivity.
Qed.

Lemma stored_string_is_read_back_parsed_witness :
  fst (getItem SELECTED_MODEL VNull
         (snd (setItem SELECTED_MODEL (jq "'gpt'") empty)))
  = VString (js "gpt").
Proof.
  exact (proj1 (stored_string_is_read_back_parsed empty
                  (snd (setItem SELECTED_MODEL (jq "'gpt'") empty))
                  SELECTED_MODEL (jq "'gpt'") VNull eq_refl eq_refl)).
Defined.

(** X22. A storage that is full counts as unavailable.  When the storage
    does not take the test item of the probe, [getItem] gives the default
    whatever is stored under the key, and [setItem], [removeItem] and
    [clearAll] answer [false] and leave the storage as it was: nothing can
    be read, and nothing removed to make room. *)
Theorem full_storage_counts_as_unavailable :
  forall (st : LocalStorage) (key : STORAGE_KEYS) (text : jsstring)
         (defaultValue : value),
    accepts st (put testKey (js "test") (items st)) = false ->
    getItem key defaultValue st = (fallback key defaultValue, st)
    /\ setItem key text st = (false, st)
    /\ removeItem key st = (false, st)
    /\ clearAll st = (false, st).
Proof.
  intros st key text defaultValue H.
  unfold getItem, setItem, removeItem, clearAll.
  rewrite isStorageAvailable_cases, H.
  destruct (denied st); repeat split.
Qed.

Lemma full_storage_counts_as_unavailable_witness :
  fst (getItem API_KEY VNull (full [(key_text API_KEY, js "sk-or-1")]))
  = VString [].
Proof.
  exact (f_equal fst
           (proj1 (full_storage_counts_as_unavailable
                     (full [(key_text API_KEY, js "sk-or-1")]) API_KEY [] VNull
                     eq_refl))).
Defined.

Lemma lookup_fold_drop (key : jsstring) (keys : list jsstring) :
  forall l,
    lookup key (fold_left (fun l k => drop k l) keys l)
    = if existsb (JsString.eqb key) keys then None else lookup key l.
Proof.
  induction keys as [|k keys IH]; intros l; [reflexivity|].
  simpl. rewrite IH.
  destruct (JsString.eqb key k) eqn:E; simpl.
  - apply eqb_eq in E. subst k. rewrite lookup_drop_same.
    destruct (existsb (JsString.eqb key) keys); reflexivity.
  - rewrite lookup_drop_other; [reflexivity|].
    intros E'. rewrite E', eqb_refl in E. discriminate.
Qed.

(** Whether a key is one of the application's own. *)
Lemma own_key_collected (key : jsstring) (l : list (jsstring * jsstring)) :
  let own := fun k : jsstring =>
               match k with
               | [] => false
               | _ :: _ => match strip_prefix STORAGE_PREFIX k with
                           | Some _ => true
                           | None => false
                           end
               end in
  lookup key (fold_left (fun l k => drop k l) (filter own (map fst l)) l)
  = if own key then None else lookup key l.
Proof.
  intros own. rewrite lookup_fold_drop.
  destruct (existsb (JsString.eqb key) (filter own (map fst l))) eqn:E.
  - apply existsb_exists in E. destruct E as (k & Hin & Hk).
    apply eqb_eq in Hk. subst k. apply filter_In in Hin. destruct Hin as [_ Hown].
    rewrite Hown. reflexivity.
  - destruct (own key) eqn:Hown; [|reflexivity].
    apply lookup_absent. intros Hin.
    assert (Hex : existsb (JsString.eqb key) (filter own (map fst l)) = true).
    { apply existsb_exists. exists key. split; [|apply eqb_refl].
      apply filter_In. split; assumption. }
    rewrite Hex in E. discriminate.
Qed.

(** What [clearAll] leaves under a key. *)
Lemma clearAll_lookup :
  forall (st st' : LocalStorage) (key : jsstring),
    clearAll st = (true, st') ->
    lookup key (items st')
    = match strip_prefix STORAGE_PREFIX key with
      | Some _ => None
      | None => lookup key (items st)
      end.
Proof.
  intros st st' key H. unfold clearAll in H.
  rewrite isStorageAvailable_cases in H.
  destruct (denied st) eqn:Hd; [discriminate|].
  destruct (accepts st (put testKey (js "test") (items st))); [|discriminate].
  cbn [negb with_items denied items] in H. rewrite Hd in H.
  inversion H. cbn [items with_items]. rewrite own_key_collected.
  destruct key as [|c key].
  - apply lookup_drop_other. discriminate.
  - destruct (strip_prefix STORAGE_PREFIX (c :: key)) as [rest|] eqn:Hp; [reflexivity|].
    apply lookup_drop_other. intros E. rewrite E in Hp. discriminate.
Qed.

(** X23. [clearAll] removes the application's items and no other.  When
    [clearAll] answers [true], no key that starts with [messageclearance_]
    is left, and every other key holds what it held. *)
Theorem clearAll_removes_only_own_items :
  forall (st st' : LocalStorage) (key : jsstring),
    clearAll st = (true, st') ->
    lookup key (items st')
    = match strip_prefix STORAGE_PREFIX key with
      | Some _ => None
      | None => lookup key (items st)
      end.
Proof.
  intros st st' key H. exact (clearAll_lookup st st' key H).
Qed.

Lemma clearAll_removes_only_own_items_witness :
  lookup (js "theme")
         (items (snd (clearAll {| denied := false; accepts := fun _ => true;
                                  items := [(key_text API_KEY, js "sk-or-1");
                                            (js "theme", js "dark")] |})))
  = Some (js "dark").
Proof.
  exact (clearAll_removes_only_own_items
           {| denied := false; accepts := fun _ => true;
              items := [(key_text API_KEY, js "sk-or-1"); (js "theme", js "dark")] |}
           _ (js "theme") eq_refl).
Defined.

(* ================================================================== *)
(** * The state read from the storage, and what validation reads *)
(* ================================================================== *)

Import LocalState.

(** X24. The state of [useLocalStorage] is not [null] at mount, but a
    storage event can make it so.  With an initial value that is not
    [null], the initializer never gives [null]: where [getItem] gives
    [null] it takes the initial value, and a missing item gives the default
    of the key.  The handler of storage events has no such guard: an
    event for the key whose new value is the text [null] sets the state to
    [null], and an event for another key changes nothing. *)
Theorem stored_state_is_null_only_by_event :
  forall (key : STORAGE_KEYS) (initialValue : value) (st : LocalStorage),
    initialValue <> VNull ->
    fst (initialState key initialValue st) <> VNull
    /\ (fst (getItem key VNull st) = VNull ->
        fst (initialState key initialValue st) = initialValue)
    /\ (lookup (key_text key) (items st) = None ->
        fst (initialState key initialValue st) = STORAGE_DEFAULTS key)
    /\ (forall storedValue,
          handleStorageChange (key_text key) initialValue (Some (key_text key))
                              (Some (js "null")) storedValue = VNull)
    /\ (forall other newValue storedValue,
          other <> key_text key ->
          handleStorageChange (key_text key) initialValue (Some other) newValue
                              storedValue = storedValue).
Proof.
  intros key initialValue st Hinit. split; [|split; [|split; [|split]]].
  - unfold initialState.
    destruct (getItem key VNull st) as [item st1].
    destruct item; simpl; try discriminate. exact Hinit.
  - unfold initialState.
    destruct (getItem key VNull st) as [item st1]. simpl.
    intros ->. reflexivity.
  - intros Hnone. unfold initialState, getItem.
    rewrite isStorageAvailable_cases.
    destruct (denied st) eqn:Hd; [destruct key; reflexivity|].
    destruct (accepts st (put testKey (js "test") (items st)));
      [|destruct key; reflexivity].
    cbn [negb]. unfold native_getItem, with_items. cbn [denied items].
    rewrite Hd, lookup_drop_other by apply key_text_not_testKey.
    rewrite Hnone. destruct key; reflexivity.
  - intros storedValue. unfold handleStorageChange. rewrite eqb_refl. reflexivity.
  - intros other newValue storedValue Hother. unfold handleStorageChange.
    rewrite (eqb_neq other (key_text key) Hother). reflexivity.
Qed.

Lemma stored_state_is_null_only_by_event_witness :
  fst (initialState CHAT_HISTORY (VArray [])
         {| denied := false; accepts := fun _ => true;
            items := [(key_text CHAT_HISTORY, js "null")] |})
  <> VNull.
Proof.
  apply (stored_state_is_null_only_by_event CHAT_HISTORY (VArray [])
           {| denied := false; accepts := fun _ => true;
              items := [(key_text CHAT_HISTORY, js "null")] |}).
  discriminate.
Defined.

Lemma own_set_prop_other (props : list (jsstring * value)) (key other : jsstring)
  (v : value) :
  other <> key -> Js.own (Js.set_prop props key v) other = Js.own props other.
Proof.
  intros H. induction props as [|[k w] props IH]; simpl.
  - rewrite eqb_neq by (intros E; apply H; symmetry; exact E). reflexivity.
  - destruct (JsString.eqb k key) eqn:E; simpl.
    + apply eqb_eq in E. subst k.
      rewrite (eqb_neq key other) by (intros E; apply H; symmetry; exact E).
      reflexivity.
    + rewrite IH. reflexivity.
Qed.

(** X25. Validation reads three properties.  Setting any property of an
    object other than [verdict], [risks] and [rewrites] does not change what
    [validateAnalysisResponse] says of it: [missing] and [suggested_opener],
    which the results panel also reads, are accepted whatever they hold. *)
Theorem validation_reads_three_properties :
  forall (props : list (jsstring * value)) (key : jsstring) (v : value),
    key <> js "verdict" -> key <> js "risks" -> key <> js "rewrites" ->
    validateAnalysisResponse (VObject (Js.set_prop props key v))
    = validateAnalysisResponse (VObject props).
Proof.
  intros props key v Hv Hr Hw.
  unfold validateAnalysisResponse, JsOps.get.
  cbn [Js.truthy Js.typeof negb orb String.eqb Ascii.eqb Bool.eqb andb].
  rewrite !own_set_prop_other by (intros E; symmetry in E; contradiction).
  reflexivity.
Qed.

Lemma validation_reads_three_properties_witness :
  validateAnalysisResponse
    (VObject (Js.set_prop [(js "verdict", VString (js "needs_edit"))]
                          (js "missing") (VString (js "x"))))
  = Normal (Some (js "Missing or invalid risks array")).
Proof.
  rewrite (validation_reads_three_properties
             [(js "verdict", VString (js "needs_edit"))] (js "missing")
             (VString (js "x")));
    [reflexivity|discriminate|discriminate|discriminate].
Defined.

(** X26. The settings the modal stores outlive [clearAll].  [handleSave]
    writes the key and the model under [openrouter_api_key] and
    [openrouter_model], which do not start with [messageclearance_]: after a
    [clearAll] that answers [true] both are still there, while the key the
    hooks store under [messageclearance_api_key] is gone. *)
Theorem modal_settings_outlive_clearAll :
  forall (st st1 st2 : LocalStorage) (tempKey tempModel : jsstring),
    Modal.handleSave tempKey tempModel st = Some st1 ->
    clearAll st1 = (true, st2) ->
    lookup (js "openrouter_api_key") (items st2) = Some tempKey
    /\ lookup (js "openrouter_model") (items st2) = Some tempModel
    /\ lookup (key_text API_KEY) (items st2) = None.
Proof.
  intros st st1 st2 tempKey tempModel Hsave Hclear.
  unfold Modal.handleSave, native_setItem in Hsave.
  destruct (denied st) eqn:Hd; [discriminate|].
  destruct (accepts st (put (js "openrouter_api_key") tempKey (items st)));
    [|discriminate].
  cbn [with_items denied accepts items] in Hsave. rewrite Hd in Hsave.
  destruct (accepts st (put (js "openrouter_model") tempModel
                            (put (js "openrouter_api_key") tempKey (items st))));
    [|discriminate].
  inversion Hsave. subst st1. clear Hsave.
  rewrite !(clearAll_lookup _ st2 _ Hclear).
  cbn [items with_items]. split; [|split].
  - change (strip_prefix STORAGE_PREFIX (js "openrouter_api_key")) with (@None jsstring).
    rewrite lookup_put_other by discriminate. apply lookup_put_same.
  - change (strip_prefix STORAGE_PREFIX (js "openrouter_model")) with (@None jsstring).
    apply lookup_put_same.
  - reflexivity.
Qed.

Lemma modal_settings_outlive_clearAll_witness :
  lookup (js "openrouter_api_key")
         (items (snd (clearAll (with_items empty
                                  [(js "openrouter_api_key", js "sk-or-1");
                                   (js "openrouter_model", js "m")]))))
  = Some (js "sk-or-1").
Proof.
  exact (proj1 (modal_settings_outlive_clearAll empty _ _ (js "sk-or-1") (js "m")
                  eq_refl eq_refl)).
Defined.

(** X27. A key of white space passes the check of the hook.  [hasApiKey]
    asks for a key that is not empty, [analyzeMessage] for one that is not
    blank: with a key that is only white space, a submit starts a scan, the
    request is turned down before any call with the INVALID_API_KEY error
    [API key is required], and the hook ends in the error state with the
    record of an invalid key. *)
Theorem blank_key_passes_the_hook_check :
  forall (s : Session) (message uuid : jsstring) (now settled : N)
         (net : nat -> Network) (w : World),
    isMountedRef s = true -> apiKey s <> [] -> trim (apiKey s) = [] ->
    trim message <> [] ->
    exists s1 p,
      submit_begin now message s = (s1, Some p)
      /\ status s1 = SCANNING
      /\ analyzeMessage (VString (message_sent p)) (VString (key_sent p))
                        (options_of s1 p) net w
         = (Throw (AIError (js "API key is required") INVALID_API_KEY None), w)
      /\ status (submit_settle settled uuid p
                   (Throw (AIError (js "API key is required") INVALID_API_KEY None))
                   s1) = ERROR
      /\ error (submit_settle settled uuid p
                  (Throw (AIError (js "API key is required") INVALID_API_KEY None))
                  s1)
         = Some {| type := js "INVALID_API_KEY";
                   message := js "Your API key is invalid. Please check and update it." |}.
Proof.
  intros s message uuid now settled net w Hm Hkey Hblank Ht.
  assert (Hk : hasApiKey s = true)
    by (unfold hasApiKey; destruct (apiKey s); [contradiction|reflexivity]).
  pose proof (submit_begin_starts now message s Hm Hk Ht) as Hbegin.
  cbv zeta in Hbegin.
  do 2 eexists. split; [exact Hbegin|]. split; [reflexivity|]. split.
  - cbn [message_sent key_sent]. unfold analyzeMessage.
    rewrite (trimmed_not_blank message Ht), blank_string, Hblank. reflexivity.
  - apply submit_settle_AIError. reflexivity.
Qed.

Lemma blank_key_passes_the_hook_check_witness :
  exists s1 p,
    submit_begin 0 (js "hi") (mount (js " ") DEFAULT_MODEL None) = (s1, Some p)
    /\ fst (analyzeMessage (VString (message_sent p)) (VString (key_sent p))
                           (options_of s1 p) slow_success world0)
       = Throw (AIError (js "API key is required") INVALID_API_KEY None).
Proof.
  destruct (blank_key_passes_the_hook_check (mount (js " ") DEFAULT_MODEL None)
              (js "hi") (js "u") 0 9 slow_success world0 eq_refl)
    as (s1 & p & Hb & _ & Hrun & _); [discriminate|reflexivity|discriminate|].
  exists s1, p. split; [exact Hb|]. rewrite Hrun. reflexivity.
Defined.

(** X28. [apiKeyStorage] keeps a key and drops a blank.  A key that starts
    with [sk-or-] and was stored by [apiKeyStorage.set] is what
    [apiKeyStorage.get] gives on a storage that is still available, and
    [apiKeyStorage.exists] answers [true]; a text that is blank is not
    stored but removed, and [apiKeyStorage.get] then gives the empty
    string. *)
Theorem api_key_storage_round_trip :
  forall (st st1 : LocalStorage) (text : jsstring),
    apiKeyStorage_set (VString text) st = (true, st1) ->
    (isValidFormat text = true -> fst (isStorageAvailable st1) = true ->
     fst (apiKeyStorage_get st1) = text
     /\ fst (apiKeyStorage_exists st1) = true)
    /\ (trim text = [] -> fst (apiKeyStorage_get st1) = []).
Proof.
  intros st st1 text Hset. split.
  - intros Hfmt Hav.
    destruct (valid_format_trim text Hfmt) as (rest & Etext & Etrim).
    unfold apiKeyStorage_set in Hset. rewrite Etrim in Hset.
    change (js "sk-or-" ++ trim_end rest)
      with (115%N :: (tl (js "sk-or-") ++ trim_end rest)) in Hset.
    cbv iota in Hset.
    pose proof (stored_item_read st st1 API_KEY text Hset Hav (VString [])) as Hget.
    rewrite (key_is_not_json text Hfmt) in Hget.
    assert (Hkey : fst (apiKeyStorage_get st1) = text).
    { unfold apiKeyStorage_get.
      destruct (getItem API_KEY (VString []) st1) as [v st2]. simpl in Hget.
      subst v. simpl. rewrite Etext. reflexivity. }
    split; [exact Hkey|].
    unfold apiKeyStorage_exists.
    destruct (apiKeyStorage_get st1) as [k st2]. simpl in Hkey. subst k.
    rewrite Etext. reflexivity.
  - intros Hblank. unfold apiKeyStorage_set in Hset. rewrite Hblank in Hset.
    unfold removeItem in Hset. rewrite isStorageAvailable_cases in Hset.
    destruct (denied st) eqn:Hd; [discriminate|].
    destruct (accepts st (put testKey (js "test") (items st))); [|discriminate].
    cbn [negb] in Hset. unfold native_removeItem, with_items in Hset.
    cbn [denied items accepts] in Hset. rewrite Hd in Hset. inversion Hset.
    unfold apiKeyStorage_get, getItem. rewrite isStorageAvailable_cases.
    cbn [denied accepts items].
    destruct (accepts st (put testKey (js "test")
                              (drop (key_text API_KEY) (drop testKey (items st)))));
      [|reflexivity].
    cbn [negb]. unfold native_getItem, with_items. cbn [denied items].
    rewrite lookup_drop_other by apply key_text_not_testKey.
    rewrite lookup_drop_same. reflexivity.
Qed.

Lemma api_key_storage_round_trip_witness :
  fst (apiKeyStorage_get (snd (apiKeyStorage_set (VString (js "sk-or-1")) empty)))
  = js "sk-or-1".
Proof.
  exact (proj1 (proj1 (api_key_storage_round_trip empty _ (js "sk-or-1") eq_refl)
                  eq_refl eq_refl)).
Defined.
